(** * Block-distributed matrix-vector product (pthreadMatrixVecMult)

    A shallow embedding of [quinn.h], [pth_matrix_vector.c] and
    [matrix_vector.c]: the block-distribution macros, the worker
    [Pth_mat_vect], the serial reference [Mat_vect_mult], the binary
    matrix file routines [Read_matrix] / [Write_vector] and the control
    flow of the two [main]s; and of the two tools [make_matrix.c] and
    [print_matrix.c] that write and print such files. *)

From Stdlib Require Import ZArith Lia List Bool.
From Stdlib Require Import PrimFloat SpecFloat FloatOps FloatAxioms.
From Stdlib Require Import Strings.Byte Strings.Ascii Strings.String.
From stdpp Require Import base list gmap strings pretty.

Local Open Scope Z_scope.

(** ** C integer types

    [int] is 32 bits, [long] is 64 bits and [size_t] is an unsigned 64-bit
    type (LP64).  A signed value that does not fit wraps around. *)
Module CInt.

Definition wrap (bits z : Z) : Z :=
  (z + 2 ^ (bits - 1)) mod 2 ^ bits - 2 ^ (bits - 1).

Definition INT_MAX : Z := 2147483647.
Definition INT_MIN : Z := -2147483648.
Definition LONG_MAX : Z := 9223372036854775807.
Definition LONG_MIN : Z := -9223372036854775808.

Definition int_of (z : Z) : Z := wrap 32 z.
Definition long_of (z : Z) : Z := wrap 64 z.
Definition size_of (z : Z) : Z := z mod 2 ^ 64.

Definition is_int (z : Z) : Prop := INT_MIN <= z <= INT_MAX.
Definition is_long (z : Z) : Prop := LONG_MIN <= z <= LONG_MAX.

End CInt.

(** ** quinn.h

    The macros are expanded at type [long]: in [Pth_mat_vect] the rank
    argument is a [long], so the usual arithmetic conversions turn every
    operation of the expansion into a [long] operation.  C's [/] truncates
    toward zero ([Z.quot]). *)
Module Quinn.
Import CInt.

(* #define MIN(a,b) ((a)<(b)?(a):(b)) *)
Definition MIN (a b : Z) : Z := if a <? b then a else b.

(* #define BLOCK_LOW(id,p,n) ((id)*(n)/(p)) *)
Definition BLOCK_LOW (id p n : Z) : Z :=
  long_of (Z.quot (long_of (id * n)) p).

(* #define BLOCK_HIGH(id,p,n) (BLOCK_LOW((id)+1,p,n)-1) *)
Definition BLOCK_HIGH (id p n : Z) : Z :=
  long_of (BLOCK_LOW (long_of (id + 1)) p n - 1).

(* #define BLOCK_SIZE(id,p,n) (BLOCK_HIGH(id,p,n)-BLOCK_LOW(id,p,n)+1) *)
Definition BLOCK_SIZE (id p n : Z) : Z :=
  long_of (long_of (BLOCK_HIGH id p n - BLOCK_LOW id p n) + 1).

(* #define BLOCK_OWNER(j,p,n) (((p)*((j)+1)-1)/(n)) *)
Definition BLOCK_OWNER (j p n : Z) : Z :=
  long_of (Z.quot (long_of (long_of (p * long_of (j + 1)) - 1)) n).

(* #define CEILING(i,j) (((i)+(j)-1)/(j)) *)
Definition CEILING (i j : Z) : Z :=
  long_of (Z.quot (long_of (long_of (i + j) - 1)) j).

End Quinn.

(** ** Shared memory

    The three global arrays [A], [x] and [y] of doubles.  An access whose
    index falls outside the array has no defined behaviour in C; here it
    is a fault ([None]). *)
Module Mem.

Inductive arr : Type := ArrA | ArrX | ArrY.

Record mem : Type := Build {
  mem_A : list float;
  mem_x : list float;
  mem_y : list float
}.

Definition arr_of (a : arr) (μ : mem) : list float :=
  match a with
  | ArrA => mem_A μ
  | ArrX => mem_x μ
  | ArrY => mem_y μ
  end.

Definition set_arr (a : arr) (l : list float) (μ : mem) : mem :=
  match a with
  | ArrA => Build l (mem_x μ) (mem_y μ)
  | ArrX => Build (mem_A μ) l (mem_y μ)
  | ArrY => Build (mem_A μ) (mem_x μ) l
  end.

Definition in_range (k : Z) (l : list float) : bool :=
  (0 <=? k) && (k <? Z.of_nat (length l)).

Definition load (a : arr) (k : Z) (μ : mem) : option float :=
  if in_range k (arr_of a μ) then arr_of a μ !! Z.to_nat k else None.

Definition store (a : arr) (k : Z) (v : float) (μ : mem) : option mem :=
  if in_range k (arr_of a μ)
  then Some (set_arr a (<[Z.to_nat k := v]> (arr_of a μ)) μ)
  else None.

(** One array access, as seen from outside the thread. *)
Inductive access : Type :=
| Rd (a : arr) (k : Z)
| Wr (a : arr) (k : Z).

Definition in_bounds (μ : mem) (e : access) : Prop :=
  match e with
  | Rd a k | Wr a k => 0 <= k < Z.of_nat (length (arr_of a μ))
  end.

Definition is_write (e : access) : bool :=
  match e with Wr _ _ => true | Rd _ _ => false end.

Definition same_cell (e1 e2 : access) : Prop :=
  match e1, e2 with
  | Rd a1 k1, Rd a2 k2 | Rd a1 k1, Wr a2 k2
  | Wr a1 k1, Rd a2 k2 | Wr a1 k1, Wr a2 k2 => a1 = a2 /\ k1 = k2
  end.

(** Two accesses conflict when they touch the same cell and one writes. *)
Definition conflict (e1 e2 : access) : Prop :=
  same_cell e1 e2 /\ (is_write e1 = true \/ is_write e2 = true).

End Mem.

(** ** Code over shared memory

    A piece of C code that only touches the three arrays is a tree of
    loads and stores; what the code keeps in locals and registers lives in
    the continuations.  The same tree is run alone ([run]) or interleaved
    with other threads ([Threads]). *)
Module Code.
Import Mem.

Inductive prog (R : Type) : Type :=
| Ret (r : R)
| Load (a : arr) (k : Z) (cont : float -> prog R)
| Store (a : arr) (k : Z) (v : float) (cont : prog R).
Arguments Ret {R} r.
Arguments Load {R} a k cont.
Arguments Store {R} a k v cont.

Fixpoint bind {R S : Type} (c : prog R) (f : R -> prog S) : prog S :=
  match c with
  | Ret r => f r
  | Load a k cont => Load a k (fun v => bind (cont v) f)
  | Store a k v cont => Store a k v (bind cont f)
  end.

Definition ld (a : arr) (k : Z) : prog float := Load a k Ret.
Definition st (a : arr) (k : Z) (v : float) : prog unit := Store a k v (Ret tt).

(** [for (i = ...; ...; i++) body], over the values the counter takes. *)
Fixpoint for_each (l : list Z) (body : Z -> prog unit) : prog unit :=
  match l with
  | [] => Ret tt
  | i :: l' => bind (body i) (fun _ => for_each l' body)
  end.

(** A counter that starts at [lo] and makes [cnt] rounds (none when
    [cnt <= 0]). *)
Definition for_range (lo cnt : Z) (body : Z -> prog unit) : prog unit :=
  for_each (seqZ lo cnt) body.

(** Running a piece of code alone. *)
Fixpoint run {R : Type} (c : prog R) (μ : mem) : option (R * mem) :=
  match c with
  | Ret r => Some (r, μ)
  | Load a k cont =>
      match load a k μ with
      | Some v => run (cont v) μ
      | None => None
      end
  | Store a k v cont =>
      match store a k v μ with
      | Some μ' => run cont μ'
      | None => None
      end
  end.

(** The accesses it makes on the way, the faulting one included. *)
Fixpoint accesses {R : Type} (c : prog R) (μ : mem) : list access :=
  match c with
  | Ret _ => []
  | Load a k cont =>
      Rd a k :: match load a k μ with
                | Some v => accesses (cont v) μ
                | None => []
                end
  | Store a k v cont =>
      Wr a k :: match store a k v μ with
                | Some μ' => accesses cont μ'
                | None => []
                end
  end.

(** Number of accesses left, along the branch where every load yields 0.0. *)
Fixpoint size {R : Type} (c : prog R) : nat :=
  match c with
  | Ret _ => O
  | Load _ _ cont => S (size (cont 0%float))
  | Store _ _ _ cont => S (size cont)
  end.

(** [every P c]: whatever the loads yield, each access of [c] satisfies
    [P]. *)
Inductive every {R : Type} (P : access -> Prop) : prog R -> Prop :=
| every_Ret (r : R) : every P (Ret r)
| every_Load (a : arr) (k : Z) (cont : float -> prog R) :
    P (Rd a k) -> (forall v, every P (cont v)) -> every P (Load a k cont)
| every_Store (a : arr) (k : Z) (v : float) (cont : prog R) :
    P (Wr a k) -> every P cont -> every P (Store a k v cont).

(** [uniform c]: the number of accesses of [c] does not depend on what
    the loads yield. *)
Inductive uniform {R : Type} : prog R -> Prop :=
| uniform_Ret (r : R) : uniform (Ret r)
| uniform_Load (a : arr) (k : Z) (cont : float -> prog R) :
    (forall v, uniform (cont v)) ->
    (forall v, size (cont v) = size (cont 0%float)) ->
    uniform (Load a k cont)
| uniform_Store (a : arr) (k : Z) (v : float) (cont : prog R) :
    uniform cont -> uniform (Store a k v cont).

End Code.

Notation "x <- c1 ;; c2" := (Code.bind c1 (fun x => c2))
  (at level 100, c1 at next level, right associativity).
Notation "c1 ;; c2" := (Code.bind c1 (fun _ => c2))
  (at level 100, right associativity).

(** ** The workers *)
Module Engine.
Import CInt Quinn Mem Code.

(** The globals the workers only read: [thread_count], [m] and [n]. *)
Record dims : Type := Dims {
  thread_count : Z;
  m : Z;
  n : Z
}.

(** Body of the row loop of [Pth_mat_vect]:
      y[i] = 0.0;
      for (j = 0; j < n; j++) y[i] += A[i * n + j] * x[j];
    [i * n + j] is [int] arithmetic. *)
Definition column_step (n i j : Z) : prog unit :=
  yi <- ld ArrY i ;;
  a <- ld ArrA (int_of (int_of (i * n) + j)) ;;
  xj <- ld ArrX j ;;
  st ArrY i (PrimFloat.add yi (PrimFloat.mul a xj)).

Definition row_body (n i : Z) : prog unit :=
  st ArrY i 0%float ;;
  for_range 0 n (column_step n i).

(** pth_matrix_vector.c, [Pth_mat_vect].  The two bounds are [long]
    values stored into [int] locals.  The row loop runs for i = first,
    first+1, ..., last; [last < INT_MAX] whenever m is an [int], so [i++]
    does not overflow. *)
Definition Pth_mat_vect (g : dims) (rank : Z) : prog unit :=
  let my_rank := rank in
  let local_first_row := int_of (BLOCK_LOW my_rank (thread_count g) (m g)) in
  let local_last_row := int_of (BLOCK_HIGH my_rank (thread_count g) (m g)) in
  for_range local_first_row (local_last_row - local_first_row + 1)
    (row_body (n g)).

(** matrix_vector.c, [Mat_vect_mult]. *)
Definition Mat_vect_mult (m n : Z) : prog unit :=
  for_range 0 m (fun i =>
    st ArrY i 0%float ;;
    for_range 0 n (fun j =>
      yi <- ld ArrY i ;;
      a <- ld ArrA (int_of (int_of (i * n) + j)) ;;
      xj <- ld ArrX j ;;
      st ArrY i (PrimFloat.add yi (PrimFloat.mul a xj)))).

(** All workers one after the other, rank 0 first. *)
Definition workers_in_order (g : dims) : prog unit :=
  for_range 0 (thread_count g) (Pth_mat_vect g).

(** The values the row counter of worker [rank] takes. *)
Definition block_rows (g : dims) (rank : Z) : list Z :=
  let first := int_of (BLOCK_LOW rank (thread_count g) (m g)) in
  let last := int_of (BLOCK_HIGH rank (thread_count g) (m g)) in
  seqZ first (last - first + 1).

(** The dimensions are [int]s, as the globals that hold them, and main
    has checked the thread count. *)
Record int_dims (g : dims) : Prop := IntDims {
  int_p : is_int (thread_count g);
  int_m : is_int (m g);
  pos_p : 1 <= thread_count g;
  nonneg_m : 0 <= m g
}.

(** The rows a worker is given. *)
Definition in_block (g : dims) (rank i : Z) : Prop :=
  BLOCK_LOW rank (thread_count g) (m g) <= i
  <= BLOCK_HIGH rank (thread_count g) (m g).

(** The accesses open to worker [rank]: it reads and writes [y] in its own
    rows, reads the matching rows of [A], reads [x], and writes nothing
    else. *)
Definition worker_access (g : dims) (rank : Z) (e : access) : Prop :=
  match e with
  | Wr ArrY i | Rd ArrY i => in_block g rank i
  | Rd ArrA k =>
      exists i j, in_block g rank i /\ 0 <= j < n g /\
                  k = int_of (int_of (i * n g) + j)
  | Rd ArrX j => 0 <= j < n g
  | Wr ArrA _ | Wr ArrX _ => False
  end.

(** What the specification asks of [y]: row i of A times x, summed from
    column 0 upward, starting from 0.0. *)
Definition spec_term (A x : list float) (n i : Z) (acc : float) (j : Z)
  : float :=
  PrimFloat.add acc
    (PrimFloat.mul (nth (Z.to_nat (i * n + j)) A 0%float)
                   (nth (Z.to_nat j) x 0%float)).

Definition spec_row (A x : list float) (n i : Z) : float :=
  foldl (spec_term A x n i) 0%float (seqZ 0 n).

Definition spec_y (A x : list float) (m n : Z) : list float :=
  spec_row A x n <$> seqZ 0 m.

(** [y] after the rows listed in [l] have been given their value. *)
Definition write_rows (A x : list float) (n : Z) (y : list float)
    (l : list Z) : list float :=
  foldl (fun y i => <[Z.to_nat i := spec_row A x n i]> y) y l.

(** The buffers have the shape the data model gives them: A holds m*n
    values, x holds n, y holds m, and the counts are [int]s. *)
Record shaped (g : dims) (μ : mem) : Prop := Shaped {
  shaped_m : 1 <= m g;
  shaped_n : 1 <= n g;
  shaped_mn : is_int (m g * n g);
  shaped_A : Z.of_nat (length (mem_A μ)) = m g * n g;
  shaped_x : Z.of_nat (length (mem_x μ)) = n g;
  shaped_y : Z.of_nat (length (mem_y μ)) = m g
}.

End Engine.

(** ** Threads

    The p workers run at the same time.  A configuration holds the shared
    memory and what each thread still has to do; in one step the
    scheduler picks a thread, which makes its next access. *)
Module Threads.
Import Mem Code Engine.

Record config : Type := Config {
  cfg_mem : mem;
  cfg_threads : list (prog unit)
}.

(** The access thread [t] makes next, if it has one. *)
Definition next_access (c : config) (t : nat) : option access :=
  match cfg_threads c !! t with
  | Some (Load a k _) => Some (Rd a k)
  | Some (Store a k _ _) => Some (Wr a k)
  | Some (Ret _) | None => None
  end.

(** Thread [t] makes one access.  A thread that is done (or a [t] that is
    no thread) leaves the configuration as it is; an access out of bounds
    is a fault. *)
Definition thread_step (t : nat) (c : config) : option config :=
  match cfg_threads c !! t with
  | Some (Load a k cont) =>
      match load a k (cfg_mem c) with
      | Some v => Some (Config (cfg_mem c) (<[t := cont v]> (cfg_threads c)))
      | None => None
      end
  | Some (Store a k v cont) =>
      match store a k v (cfg_mem c) with
      | Some μ' => Some (Config μ' (<[t := cont]> (cfg_threads c)))
      | None => None
      end
  | Some (Ret _) | None => Some c
  end.

Fixpoint run_schedule (s : list nat) (c : config) : option config :=
  match s with
  | [] => Some c
  | t :: s' =>
      match thread_step t c with
      | Some c' => run_schedule s' c'
      | None => None
      end
  end.

Definition all_done (c : config) : Prop :=
  Forall (fun th => th = Ret tt) (cfg_threads c).

(** Two different threads race when their next accesses conflict. *)
Definition race (c : config) : Prop :=
  exists t1 t2 e1 e2, t1 <> t2 /\
    next_access c t1 = Some e1 /\ next_access c t2 = Some e2 /\
    conflict e1 e2.

(** The configuration right after the p threads were created. *)
Definition spawn (g : dims) (μ : mem) : config :=
  Config μ (Pth_mat_vect g <$> seqZ 0 (thread_count g)).

(** Accesses thread [t] still has to make. *)
Definition work_left (c : config) (t : nat) : nat :=
  match cfg_threads c !! t with
  | Some th => size th
  | None => O
  end.

(** Invariant of the configurations reached from [spawn g μ0]: [A] and
    [x] are as they were, [y] keeps its length, thread t only makes the
    accesses open to rank t, and what is left of it, run alone on the
    present memory, ends with the specified values in its own rows. *)
Record inv (g : dims) (μ0 : mem) (c : config) : Prop := Inv {
  inv_A : mem_A (cfg_mem c) = mem_A μ0;
  inv_x : mem_x (cfg_mem c) = mem_x μ0;
  inv_len : length (mem_y (cfg_mem c)) = length (mem_y μ0);
  inv_threads : length (cfg_threads c) = Z.to_nat (thread_count g);
  inv_own : forall t th, cfg_threads c !! t = Some th ->
    every (worker_access g (Z.of_nat t)) th /\ uniform th;
  inv_result : forall t th, cfg_threads c !! t = Some th ->
    exists μ', run th (cfg_mem c) = Some (tt, μ') /\
      forall i, in_block g (Z.of_nat t) i ->
        mem_y μ' !! Z.to_nat i = Some (spec_row (mem_A μ0) (mem_x μ0) (n g) i)
}.

End Threads.

(** ** Bytes on disk

    The matrix file format: two 32-bit signed integers (rows, columns) and
    then rows*columns IEEE-754 doubles, all in native (little-endian) byte
    order. *)
Module Bytes.
Import CInt.

Definition byte_of_Z (z : Z) : byte :=
  default "000"%byte (Byte.of_N (Z.to_N (Z.land z 255))).

Definition Z_of_byte (b : byte) : Z := Z.of_N (Byte.to_N b).

Fixpoint le_split (k : nat) (z : Z) : list byte :=
  match k with
  | O => []
  | S k' => byte_of_Z z :: le_split k' (Z.shiftr z 8)
  end.

Fixpoint le_combine (bs : list byte) : Z :=
  match bs with
  | [] => 0
  | b :: bs' => Z.lor (Z_of_byte b) (Z.shiftl (le_combine bs') 8)
  end.

Definition bytes_of_int (z : Z) : list byte := le_split 4 z.
Definition int_of_bytes (bs : list byte) : Z := int_of (le_combine bs).

(** The 64-bit pattern of a double and back. *)
Definition double_of_bits (b : Z) : float :=
  let s := Z.testbit b 63 in
  let ex := Z.land (Z.shiftr b 52) 2047 in
  let fr := Z.land b (2 ^ 52 - 1) in
  if ex =? 2047 then
    if fr =? 0 then (if s then neg_infinity else infinity) else nan
  else if ex =? 0 then
    match fr with
    | Zpos p => SF2Prim (S754_finite s p (-1074)%Z)
    | _ => SF2Prim (S754_zero s)
    end
  else
    match (fr + 2 ^ 52)%Z with
    | Zpos p => SF2Prim (S754_finite s p (ex - 1075)%Z)
    | _ => nan
    end.

Definition bits_of_double (f : float) : Z :=
  let sign (s : bool) := if s then 2 ^ 63 else 0 in
  match Prim2SF f with
  | S754_zero s => sign s
  | S754_infinity s => sign s + 2047 * 2 ^ 52
  | S754_nan => 2047 * 2 ^ 52 + 2 ^ 51
  | S754_finite s m e =>
      sign s + (if Zpos m <? 2 ^ 52 then Zpos m
                else (e + 1075) * 2 ^ 52 + (Zpos m - 2 ^ 52))
  end.

Definition bytes_of_double (f : float) : list byte :=
  le_split 8 (bits_of_double f).
Definition double_of_bytes (bs : list byte) : float :=
  double_of_bits (le_combine bs).

(** A whole matrix file. *)
Definition matrix_file (rows cols : Z) (entries : list float) : list byte :=
  bytes_of_int rows ++ bytes_of_int cols ++ flat_map bytes_of_double entries.

End Bytes.

(** ** The world around the program

    What the C library and the system answer: the files, how large a
    request [malloc] still grants, what a fresh block holds, which paths
    can be opened for writing, how many bytes the device still takes,
    which [pthread_create] calls succeed, the clock, and the size of the
    buffer the library gives a stream that is opened on a file.

    Output streams are fully buffered (the sources never call [setvbuf]):
    what [fwrite] accepts stays in the buffer of the stream until the
    buffer overflows or the stream is closed, so a device that is full
    may show only in [fclose]. *)
Module Env.
Import CInt Bytes.

Record world : Type := World {
  w_files : gmap string (list byte);
  w_heap : Z;
  w_junk : nat -> float;
  w_writable : string -> bool;
  w_disk : Z;
  w_thread_ok : Z -> bool;
  w_clock : nat -> float;
  w_bufsiz : Z
}.

Definition set_files (fs : gmap string (list byte)) (w : world) : world :=
  World fs (w_heap w) (w_junk w) (w_writable w) (w_disk w) (w_thread_ok w)
        (w_clock w) (w_bufsiz w).

Definition set_disk (d : Z) (w : world) : world :=
  World (w_files w) (w_heap w) (w_junk w) (w_writable w) d (w_thread_ok w)
        (w_clock w) (w_bufsiz w).

(** The world in which [filename] holds [bytes] and the device has room
    for [disk] more. *)
Definition with_file (filename : string) (bytes : list byte) (disk : Z)
    (w : world) : world :=
  set_disk disk (set_files (<[filename := bytes]> (w_files w)) w).

(** [malloc(size)] is not NULL. *)
Definition malloc_ok (w : world) (size : Z) : bool := size <=? w_heap w.

(** The block [malloc] hands out, [count] doubles long. *)
Definition fresh (w : world) (count : nat) : list float :=
  w_junk w <$> seq 0 count.

(** [fread(&v, sizeof(int), 1, fp)]: the value and the rest of the stream
    when it returns 1. *)
Definition fread_int (s : list byte) : option (Z * list byte) :=
  if (4 <=? Z.of_nat (length s)) then Some (int_of_bytes (take 4 s), drop 4 s)
  else None.

(** [fread(A, sizeof(double), count, fp)]: the doubles read; their number
    is what [fread] returns. *)
Definition fread_doubles (count : Z) (s : list byte) : list float :=
  let k := Z.to_nat (Z.min count (Z.of_nat (length s) / 8)) in
  (fun i => double_of_bytes (take 8 (drop (8 * i) s))) <$> seq 0 k.

(** An output stream: the path it was opened on and the bytes that
    [fwrite] has accepted and that have not gone to the device yet. *)
Record stream : Type := Stream {
  s_name : string;
  s_buf : list byte
}.

(** The stream hands [data] to the device ([write(2)], repeated until
    everything is out or the device is full): the device takes what it
    has room for, and the result is the number of bytes it took. *)
Definition sys_write (filename : string) (data : list byte) (w : world)
  : Z * world :=
  let out := take (Z.to_nat (w_disk w)) data in
  let old := default [] (w_files w !! filename) in
  (Z.of_nat (length out),
   with_file filename (old ++ out) (w_disk w - Z.of_nat (length out)) w).

(** [fwrite(ptr, item, count, fp)] of the bytes [data], as the GNU C
    library does it for a fully buffered stream.  Data that fits into
    what is left of the buffer is copied there and nothing goes out.
    Otherwise the buffer is filled and flushed, the whole blocks (of the
    buffer's size, when that is at least 128) that follow go out
    directly, and the remainder is copied to the emptied buffer.  The
    return value is the number of whole items accepted: [count], unless
    the device did not take all that was to go out.  (The buffer is taken
    as there from [fopen] on; the library sets it up in the first
    [fwrite].) *)
Definition fwrite (data : list byte) (item : Z) (fp : stream) (w : world)
  : Z * stream * world :=
  let size := Z.to_nat (w_bufsiz w) in
  let space := (size - length (s_buf fp))%nat in
  if (length data <=? space)%nat then
    (Z.of_nat (length data) / item, Stream (s_name fp) (s_buf fp ++ data), w)
  else
    let rest := (length data - space)%nat in
    let keep := if (128 <=? size)%nat then (rest mod size)%nat else 0%nat in
    let out := s_buf fp ++ take (length data - keep) data in
    let (k, w') := sys_write (s_name fp) out w in
    if k <? Z.of_nat (length out) then
      (Z.max (Z.of_nat space) (k - Z.of_nat (length (s_buf fp))) / item,
       Stream (s_name fp) [], w')
    else
      (Z.of_nat (length data) / item,
       Stream (s_name fp) (drop (length data - keep) data), w').

(** [fclose(fp)]: what is left in the buffer goes out; the result is 0, or
    EOF (-1) when the device did not take it all. *)
Definition fclose (fp : stream) (w : world) : Z * world :=
  let (k, w') := sys_write (s_name fp) (s_buf fp) w in
  (if k <? Z.of_nat (length (s_buf fp)) then -1 else 0, w').

(** [fopen(filename, "wb")]: the file is created or cut to length 0. *)
Definition fopen_wb (filename : string) (w : world)
  : option (stream * world) :=
  if w_writable w filename
  then Some (Stream filename [], with_file filename [] (w_disk w) w)
  else None.

End Env.

(** ** pth_matrix_vector.c: the file routines and [main] *)
Module Program.
Import CInt Quinn Bytes Env Mem Code Engine.

(** The caller's variables behind [A_p], [m_p] and [n_p]. *)
Record outs : Type := Outs {
  out_A : option (list float);
  out_m : Z;
  out_n : Z
}.

(** [Read_matrix] (the same text in pth_matrix_vector.c and
    matrix_vector.c).  [rows * cols] is an [int] product; it is converted
    to [size_t] for [malloc] and [fread] and for the comparison with what
    [fread] returns. *)
Definition Read_matrix (w : world) (filename : string) (out : outs)
  : Z * outs :=
  match w_files w !! filename with
  | None => (-1, out)
  | Some s0 =>
      match fread_int s0 with
      | None => (-1, out)
      | Some (rows, s1) =>
          match fread_int s1 with
          | None => (-1, out)
          | Some (cols, s2) =>
              if (rows <=? 0) || (cols <=? 0) then (-1, out)
              else
                let count := size_of (int_of (rows * cols)) in
                if negb (malloc_ok w (size_of (count * 8))) then (-1, out)
                else
                  let A := fread_doubles count s2 in
                  if negb (Z.of_nat (length A) =? count) then (-1, out)
                  else (0, Outs (Some A) rows cols)
          end
      end
  end.

(** [Write_vector].  [fclose] is called on every path, and what it
    returns is not looked at. *)
Definition Write_vector (w : world) (filename : string) (y : list float)
    (m : Z) : Z * world :=
  let cols := 1 in
  match fopen_wb filename w with
  | None => (-1, w)
  | Some (fp, w0) =>
      let '(r1, fp1, w1) := fwrite (bytes_of_int m) 4 fp w0 in
      if negb (r1 =? 1) then (-1, (fclose fp1 w1).2)
      else
        let '(r2, fp2, w2) := fwrite (bytes_of_int cols) 4 fp1 w1 in
        if negb (r2 =? 1) then (-1, (fclose fp2 w2).2)
        else
          let data := flat_map bytes_of_double (take (Z.to_nat (size_of m)) y) in
          let '(r3, fp3, w3) := fwrite data 8 fp2 w2 in
          if negb (r3 =? size_of m) then (-1, (fclose fp3 w3).2)
          else (0, (fclose fp3 w3).2)
  end.

(** The bytes [Write_vector] sets out to write. *)
Definition vector_bytes (y : list float) (m : Z) : list byte :=
  bytes_of_int m ++ bytes_of_int 1 ++
  flat_map bytes_of_double (take (Z.to_nat (size_of m)) y).

(** [atoi]: blanks, an optional sign, then digits up to the first
    character that is none.  A value that does not fit an [int] is taken
    modulo 2^32. *)
Definition is_space (c : ascii) : bool :=
  let k := Z.of_nat (nat_of_ascii c) in
  (k =? 32) || ((9 <=? k) && (k <=? 13)).

Definition digit_of (c : ascii) : option Z :=
  let k := Z.of_nat (nat_of_ascii c) in
  if (48 <=? k) && (k <=? 57) then Some (k - 48) else None.

Fixpoint skip_spaces (s : string) : string :=
  match s with
  | String c s' => if is_space c then skip_spaces s' else s
  | EmptyString => s
  end.

Fixpoint digits_value (s : string) (acc : Z) : Z :=
  match s with
  | String c s' =>
      match digit_of c with
      | Some d => digits_value s' (10 * acc + d)
      | None => acc
      end
  | EmptyString => acc
  end.

Definition atoi (s : string) : Z :=
  match skip_spaces s with
  | String "-"%char s' => int_of (- digits_value s' 0)
  | String "+"%char s' => int_of (digits_value s' 0)
  | s' => int_of (digits_value s' 0)
  end.

Definition nl : string := String (ascii_of_nat 10) EmptyString.

(** What the run shows to the outside, in order: the lines on the error
    stream (the timing line kept structured, its two times are printed
    with %e), the [pthread_create] and [pthread_join] calls, and the call
    of [Write_vector] with what it returned. *)
Inductive event : Type :=
| EvStderr (line : string)
| EvTiming (m p : Z) (overall work : float)
| EvCreate (rank : Z) (ok : bool)
| EvJoin (rank : Z)
| EvWrite (filename : string) (ret : Z).

(** How the run ends: [exit(code)] / [return code], or a worker made an
    access out of bounds. *)
Inductive status : Type :=
| Exit (code : Z)
| Fault.

Record outcome : Type := Outcome {
  o_status : status;
  o_events : list event;
  o_world : world
}.

Definition Usage (prog_name : string) : list event :=
  [ EvStderr ("Usage: " +:+ prog_name +:+
              " <file_A> <file_x> <file_y> <num_threads>" +:+ nl);
    EvStderr ("  Multiplies matrix A by vector x using pthreads" +:+ nl);
    EvStderr ("  Stores result in y and prints timing to stderr" +:+ nl);
    EvStderr ("  Example: " +:+ prog_name +:+ " A.mat x.mat y.mat 4" +:+ nl) ].

(** Modelled from the spec: timer.h is not among the sources; its
    [GET_TIME(t)] stores the wall clock, in seconds, into the double [t].
    The k-th use reads [w_clock w k]. *)
Definition GET_TIME (w : world) (k : nat) : float := w_clock w k.

(** The parallel region: [pthread_create] for ranks 0..p-1 (what it
    returns is not looked at), then [pthread_join] for the same ranks.
    The threads that were created run [Pth_mat_vect]; they are run here in
    rank order. *)
Definition parallel_region (w : world) (g : dims) (μ : mem)
  : list event * option mem :=
  let ranks := seqZ 0 (thread_count g) in
  let created := filter (fun r => w_thread_ok w r = true) ranks in
  (((fun r => EvCreate r (w_thread_ok w r)) <$> ranks) ++ (EvJoin <$> ranks),
   snd <$> run (for_each created (Pth_mat_vect g)) μ).

(** [main] of pth_matrix_vector.c; [argv] holds the [argc] arguments.
    [sizeof(double)] and [sizeof(pthread_t)] are 8.  The globals [A], [x]
    start as NULL and [m], [n] as 0; the locals [m_x], [n_x] hold nothing
    until [Read_matrix] has set them and are not read before.  [free] is
    not modelled: [malloc_ok] looks at the size of the request only. *)
Definition main (w : world) (argv : list string) : outcome :=
  let arg (k : nat) := nth k argv EmptyString in
  let start_total := GET_TIME w 0 in
  if negb (Z.of_nat (length argv) =? 5) then
    Outcome (Exit 1) (Usage (arg 0%nat)) w
  else
  let thread_count := atoi (arg 4%nat) in
  if thread_count <=? 0 then
    Outcome (Exit 1)
      [EvStderr ("Error: Number of threads must be positive" +:+ nl)] w
  else
  let (retA, oA) := Read_matrix w (arg 1%nat) (Outs None 0 0) in
  if negb (retA =? 0) then
    Outcome (Exit 1)
      [EvStderr ("Error: Failed to read matrix A from " +:+ arg 1%nat +:+ nl)] w
  else
  let (retx, ox) := Read_matrix w (arg 2%nat) (Outs None 0 0) in
  if negb (retx =? 0) then
    Outcome (Exit 1)
      [EvStderr ("Error: Failed to read vector x from " +:+ arg 2%nat +:+ nl)] w
  else
  let m := out_m oA in
  let n := out_n oA in
  let m_x := out_m ox in
  let n_x := out_n ox in
  if negb (n_x =? 1) then
    Outcome (Exit 1)
      [EvStderr ("Error: x must be a column vector (n_x = " +:+ pretty n_x
                 +:+ ", should be 1)" +:+ nl)] w
  else
  if negb (n =? m_x) then
    Outcome (Exit 1)
      [EvStderr ("Error: Incompatible dimensions for multiplication" +:+ nl);
       EvStderr ("  Matrix A is " +:+ pretty m +:+ " x " +:+ pretty n
                 +:+ ", Vector x is " +:+ pretty m_x +:+ " x 1" +:+ nl)] w
  else
  if negb (malloc_ok w (size_of (size_of m * 8))) then
    Outcome (Exit 1)
      [EvStderr ("Error: Cannot allocate memory for result vector" +:+ nl)] w
  else
  let y := fresh w (Z.to_nat m) in
  if negb (malloc_ok w (size_of (size_of thread_count * 8))) then
    Outcome (Exit 1)
      [EvStderr ("Error: Cannot allocate memory for thread handles" +:+ nl)] w
  else
  let start_work := GET_TIME w 1 in
  let μ0 := Build (default [] (out_A oA)) (default [] (out_A ox)) y in
  let (evs, res) := parallel_region w (Dims thread_count m n) μ0 in
  match res with
  | None => Outcome Fault evs w
  | Some μ =>
      let end_work := GET_TIME w 2 in
      let (retw, w') := Write_vector w (arg 3%nat) (mem_y μ) m in
      if negb (retw =? 0) then
        Outcome (Exit 1)
          (evs ++ [EvWrite (arg 3%nat) retw;
                   EvStderr ("Error: Failed to write result to "
                             +:+ arg 3%nat +:+ nl)]) w'
      else
        let end_total := GET_TIME w 3 in
        Outcome (Exit 0)
          (evs ++ [EvWrite (arg 3%nat) retw;
                   EvTiming m thread_count
                     (PrimFloat.sub end_total start_total)
                     (PrimFloat.sub end_work start_work)]) w'
  end.

(** Every check of [main] before the parallel region has passed: five
    arguments, a positive thread count p, A read as m x n, x read as
    n x 1, and both allocations granted. *)
Record validated (w : world) (argv : list string) (p : Z)
    (A x : list float) (m n : Z) : Prop := Validated {
  v_argc : length argv = 5%nat;
  v_p : p = atoi (nth 4 argv EmptyString);
  v_pos : 0 < p;
  v_A : Read_matrix w (nth 1 argv EmptyString) (Outs None 0 0)
        = (0, Outs (Some A) m n);
  v_x : Read_matrix w (nth 2 argv EmptyString) (Outs None 0 0)
        = (0, Outs (Some x) n 1);
  v_y : malloc_ok w (size_of (size_of m * 8)) = true;
  v_handles : malloc_ok w (size_of (size_of p * 8)) = true
}.

(** What [main] does once the checks have passed. *)
Definition compute_and_write (w : world) (argv : list string) (p : Z)
    (A x : list float) (m n : Z) : outcome :=
  let out := nth 3 argv EmptyString in
  let (evs, res) :=
    parallel_region w (Dims p m n) (Build A x (fresh w (Z.to_nat m))) in
  match res with
  | None => Outcome Fault evs w
  | Some μ =>
      let (retw, w') := Write_vector w out (mem_y μ) m in
      if negb (retw =? 0) then
        Outcome (Exit 1)
          (evs ++ [EvWrite out retw;
                   EvStderr ("Error: Failed to write result to "
                             +:+ out +:+ nl)]) w'
      else
        Outcome (Exit 0)
          (evs ++ [EvWrite out retw;
                   EvTiming m p
                     (PrimFloat.sub (GET_TIME w 3) (GET_TIME w 0))
                     (PrimFloat.sub (GET_TIME w 2) (GET_TIME w 1))]) w'
  end.

Definition is_stderr (e : event) : Prop :=
  match e with EvStderr _ => True | _ => False end.




End Program.

(** ** A small instance

    The 2x3 matrix [[1,2,3],[4,5,6]] and the vector [1,1,1]; [y] starts
    with whatever the allocator left there. *)
Module Sample.
Import Bytes Env Mem Engine Program.

Definition sample_dims (p : Z) : dims := Dims p 2 3.

Definition sample_mem : mem :=
  Build [1; 2; 3; 4; 5; 6]%float [1; 1; 1]%float [42; 42]%float.

Definition sample_files : gmap string (list byte) :=
  <["A.mat" := matrix_file 2 3 [1; 2; 3; 4; 5; 6]%float]>
    (<["x.mat" := matrix_file 3 1 [1; 1; 1]%float]> ∅).

Definition sample_clock (k : nat) : float :=
  match k with
  | O => 0%float
  | S O => 1%float
  | S (S O) => 3%float
  | _ => 4%float
  end.

(** A machine with 1 GiB of heap on which fresh memory reads 42.0 and
    streams have a buffer of 4096 bytes. *)
Definition sample_world (disk : Z) (thread_ok : Z -> bool) : world :=
  World sample_files (2 ^ 30) (fun _ => 42%float) (fun _ => true) disk
        thread_ok sample_clock 4096.

Definition sample_argv (p : string) : list string :=
  ["pth_matrix_vector"; "A.mat"; "x.mat"; "y.mat"; p]%string.


(** A matrix file whose header announces 1431655766 x 3 entries and that
    holds two, next to a 3 x 1 vector, on a machine with 16 GiB of heap. *)
Definition short_file : list byte :=
  matrix_file 1431655766 3 [1; 2]%float.

Definition short_world : world :=
  World (<["A.mat" := short_file]>
           (<["x.mat" := matrix_file 3 1 [1; 1; 1]%float]> ∅))
        (2 ^ 34) (fun _ => 42%float) (fun _ => true) 4096 (fun _ => true)
        sample_clock 4096.

End Sample.

(** ** matrix_vector.c: the serial program

    [Read_matrix], [Mat_vect_mult] and [Write_vector] are the functions
    modelled above ([Read_matrix] and [Write_vector] have the same text in
    both programs). *)
Module Serial.
Import CInt Bytes Env Mem Code Engine Program.

Definition Usage (prog_name : string) : list event :=
  [ EvStderr ("Usage: " +:+ prog_name +:+ " <file_A> <file_x> <file_y>" +:+ nl);
    EvStderr ("  Multiplies matrix A by vector x and stores result in y" +:+ nl);
    EvStderr ("  All files are in binary matrix format" +:+ nl);
    EvStderr ("  Example: " +:+ prog_name +:+ " A.mat x.mat y.mat" +:+ nl) ].

(** [main] of matrix_vector.c.  The locals [A], [x], [y] start as NULL;
    [m_A], [n_A], [m_x], [n_x] hold nothing until [Read_matrix] has set
    them and are not read before. *)
Definition main (w : world) (argv : list string) : outcome :=
  let arg (k : nat) := nth k argv EmptyString in
  if negb (Z.of_nat (length argv) =? 4) then
    Outcome (Exit 1) (Usage (arg 0%nat)) w
  else
  let (retA, oA) := Read_matrix w (arg 1%nat) (Outs None 0 0) in
  if negb (retA =? 0) then
    Outcome (Exit 1)
      [EvStderr ("Error: Failed to read matrix A from " +:+ arg 1%nat +:+ nl)] w
  else
  let (retx, ox) := Read_matrix w (arg 2%nat) (Outs None 0 0) in
  if negb (retx =? 0) then
    Outcome (Exit 1)
      [EvStderr ("Error: Failed to read vector x from " +:+ arg 2%nat +:+ nl)] w
  else
  let m_A := out_m oA in
  let n_A := out_n oA in
  let m_x := out_m ox in
  let n_x := out_n ox in
  if negb (n_x =? 1) then
    Outcome (Exit 1)
      [EvStderr ("Error: x must be a column vector (n_x = " +:+ pretty n_x
                 +:+ ", should be 1)" +:+ nl)] w
  else
  if negb (n_A =? m_x) then
    Outcome (Exit 1)
      [EvStderr ("Error: Incompatible dimensions for multiplication" +:+ nl);
       EvStderr ("  Matrix A is " +:+ pretty m_A +:+ " x " +:+ pretty n_A
                 +:+ ", Vector x is " +:+ pretty m_x +:+ " x 1" +:+ nl);
       EvStderr ("  Number of columns in A (" +:+ pretty n_A
                 +:+ ") must equal number of rows in x (" +:+ pretty m_x
                 +:+ ")" +:+ nl)] w
  else
  if negb (malloc_ok w (size_of (size_of m_A * 8))) then
    Outcome (Exit 1)
      [EvStderr ("Error: Cannot allocate memory for result vector" +:+ nl)] w
  else
  let y := fresh w (Z.to_nat m_A) in
  match run (Mat_vect_mult m_A n_A)
            (Build (default [] (out_A oA)) (default [] (out_A ox)) y) with
  | None => Outcome Fault [] w
  | Some (_, μ) =>
      let (retw, w') := Write_vector w (arg 3%nat) (mem_y μ) m_A in
      if negb (retw =? 0) then
        Outcome (Exit 1)
          [EvWrite (arg 3%nat) retw;
           EvStderr ("Error: Failed to write result to "
                     +:+ arg 3%nat +:+ nl)] w'
      else
        Outcome (Exit 0) [EvWrite (arg 3%nat) retw] w'
  end.

End Serial.

(** ** make_matrix.c *)
Module MakeMatrix.
Import CInt Bytes Env Mem Program.

(** What the C library answers: [RAND_MAX], and the values the calls of
    [rand()] return, in order, after [srand(time(NULL))]. *)
Record libc : Type := Libc {
  RAND_MAX : Z;
  rand : nat -> Z
}.

(** [(double)v] for an [int] v: exact. *)
Definition double_of_int (v : Z) : float :=
  if v <? 0 then PrimFloat.opp (of_uint63 (Uint63Axioms.of_Z (- v)))
  else of_uint63 (Uint63Axioms.of_Z v).

(** [((double)rand() / (double)RAND_MAX) * 10.0], at the k-th call. *)
Definition entry (c : libc) (k : nat) : float :=
  PrimFloat.mul
    (PrimFloat.div (double_of_int (rand c k)) (double_of_int (RAND_MAX c)))
    10%float.

(** [for (i = 0; i < total_elements; i++) matrix[i] = ...]: [l] holds the
    values [i] still takes and [k] counts the calls of [rand] made so
    far.  A store outside the block is a fault. *)
Fixpoint fill (c : libc) (k : nat) (l : list Z) (matrix : list float)
  : option (list float) :=
  match l with
  | [] => Some matrix
  | i :: l' =>
      if in_range i matrix
      then fill c (S k) l' (<[Z.to_nat i := entry c k]> matrix)
      else None
  end.

Definition Usage (prog_name : string) : list event :=
  [ EvStderr ("Usage: " +:+ prog_name +:+ " <file_name> <rows> <cols>" +:+ nl);
    EvStderr ("  Creates a binary matrix file with random double values" +:+ nl);
    EvStderr ("  Example: " +:+ prog_name +:+ " A.mat 100 50" +:+ nl) ].

(** [main] of make_matrix.c.  [total_elements] is the [int] product
    rows * cols; it is converted to [size_t] for [malloc], for [fwrite]
    and for the comparison with what [fwrite] returns.  The block has
    size / 8 doubles; an [fwrite] that is asked for more items than the
    block holds reads outside it (a fault).  [fclose] is called on every
    path after [fopen], and what it returns is not looked at. *)
Definition main (c : libc) (w : world) (argv : list string) : outcome :=
  let arg (k : nat) := nth k argv EmptyString in
  if negb (Z.of_nat (length argv) =? 4) then
    Outcome (Exit 1) (Usage (arg 0%nat)) w
  else
  let rows := atoi (arg 2%nat) in
  let cols := atoi (arg 3%nat) in
  if (rows <=? 0) || (cols <=? 0) then
    Outcome (Exit 1)
      (EvStderr ("Error: rows and cols must be positive integers" +:+ nl)
       :: Usage (arg 0%nat)) w
  else
  match fopen_wb (arg 1%nat) w with
  | None =>
      Outcome (Exit 1)
        [EvStderr ("Error: Cannot open file " +:+ arg 1%nat
                   +:+ " for writing" +:+ nl)] w
  | Some (fp, w0) =>
      let '(r1, fp1, w1) := fwrite (bytes_of_int rows) 4 fp w0 in
      if negb (r1 =? 1) then
        Outcome (Exit 1)
          [EvStderr ("Error: Failed to write rows to file" +:+ nl)]
          (fclose fp1 w1).2
      else
      let '(r2, fp2, w2) := fwrite (bytes_of_int cols) 4 fp1 w1 in
      if negb (r2 =? 1) then
        Outcome (Exit 1)
          [EvStderr ("Error: Failed to write cols to file" +:+ nl)]
          (fclose fp2 w2).2
      else
      let total_elements := int_of (rows * cols) in
      let size := size_of (size_of total_elements * 8) in
      if negb (malloc_ok w2 size) then
        Outcome (Exit 1)
          [EvStderr ("Error: Cannot allocate memory for matrix" +:+ nl)]
          (fclose fp2 w2).2
      else
      match fill c 0 (seqZ 0 total_elements)
                 (fresh w2 (Z.to_nat (size / 8))) with
      | None => Outcome Fault [] w2
      | Some matrix =>
          let count := size_of total_elements in
          if Z.of_nat (length matrix) <? count then Outcome Fault [] w2
          else
          let data :=
            flat_map bytes_of_double (take (Z.to_nat count) matrix) in
          let '(r3, fp3, w3) := fwrite data 8 fp2 w2 in
          if negb (r3 =? count) then
            Outcome (Exit 1)
              [EvStderr ("Error: Failed to write matrix data to file" +:+ nl)]
              (fclose fp3 w3).2
          else Outcome (Exit 0) [] (fclose fp3 w3).2
      end
  end.

End MakeMatrix.

(** ** print_matrix.c *)
Module PrintMatrix.
Import CInt Bytes Env Mem Program.

(** What the program prints, in order: a line on the error stream, text
    on the standard output, or one matrix entry (printed with the format
    %05.2f and a blank after it). *)
Inductive output : Type :=
| Stderr (line : string)
| Stdout (text : string)
| Entry (v : float).

Record result : Type := Result {
  r_status : status;
  r_outputs : list output
}.

Definition Usage (prog_name : string) : list output :=
  [ Stderr ("Usage: " +:+ prog_name +:+ " <file_name>" +:+ nl);
    Stderr ("  Prints a binary matrix file to the screen" +:+ nl);
    Stderr ("  Example: " +:+ prog_name +:+ " A.mat" +:+ nl) ].

(** [matrix[k]]; outside the block it is a fault. *)
Definition cell (matrix : list float) (k : Z) : option float :=
  if in_range k matrix then matrix !! Z.to_nat k else None.

(** The inner loop over [j] and the [printf] of the newline after it; the
    index [i * cols + j] is [int] arithmetic.  The flag tells whether the
    loop came to its end. *)
Fixpoint print_row (matrix : list float) (cols i : Z) (l : list Z)
  : list output * bool :=
  match l with
  | [] => ([Stdout nl], true)
  | j :: l' =>
      match cell matrix (int_of (int_of (i * cols) + j)) with
      | Some v =>
          let (out, ok) := print_row matrix cols i l' in (Entry v :: out, ok)
      | None => ([], false)
      end
  end.

(** The outer loop over [i]. *)
Fixpoint print_rows (matrix : list float) (cols : Z) (l : list Z)
  : list output * bool :=
  match l with
  | [] => ([], true)
  | i :: l' =>
      let (out, ok) := print_row matrix cols i (seqZ 0 cols) in
      if ok then
        let (out', ok') := print_rows matrix cols l' in (out ++ out', ok')
      else (out, false)
  end.

(** [main] of print_matrix.c. *)
Definition main (w : world) (argv : list string) : result :=
  let arg (k : nat) := nth k argv EmptyString in
  if negb (Z.of_nat (length argv) =? 2) then
    Result (Exit 1) (Usage (arg 0%nat))
  else
  match w_files w !! arg 1%nat with
  | None =>
      Result (Exit 1)
        [Stderr ("Error: Cannot open file " +:+ arg 1%nat
                 +:+ " for reading" +:+ nl)]
  | Some s0 =>
      match fread_int s0 with
      | None =>
          Result (Exit 1) [Stderr ("Error: Failed to read rows from file" +:+ nl)]
      | Some (rows, s1) =>
          match fread_int s1 with
          | None =>
              Result (Exit 1)
                [Stderr ("Error: Failed to read cols from file" +:+ nl)]
          | Some (cols, s2) =>
              if (rows <=? 0) || (cols <=? 0) then
                Result (Exit 1)
                  [Stderr ("Error: Invalid dimensions in file (rows="
                           +:+ pretty rows +:+ ", cols=" +:+ pretty cols
                           +:+ ")" +:+ nl)]
              else
              let count := size_of (int_of (rows * cols)) in
              if negb (malloc_ok w (size_of (count * 8))) then
                Result (Exit 1)
                  [Stderr ("Error: Cannot allocate memory for matrix" +:+ nl)]
              else
              let matrix := fread_doubles count s2 in
              if negb (Z.of_nat (length matrix) =? count) then
                Result (Exit 1)
                  [Stderr ("Error: Failed to read matrix data from file"
                           +:+ nl)]
              else
              let header :=
                Stdout ("Matrix: " +:+ pretty rows +:+ " x " +:+ pretty cols
                        +:+ nl) in
              let (out, ok) := print_rows matrix cols (seqZ 0 rows) in
              Result (if ok then Exit 0 else Fault) (header :: out)
          end
      end
  end.

(** The text of a matrix: row after row, each entry of the row and then a
    newline. *)
Definition row_text (entries : list float) (cols i : Z) : list output :=
  (Entry <$> take (Z.to_nat cols) (drop (Z.to_nat (i * cols)) entries))
  ++ [Stdout nl].

Definition matrix_text (entries : list float) (rows cols : Z) : list output :=
  concat (row_text entries cols <$> seqZ 0 rows).

End PrintMatrix.

Import CInt Quinn Mem Code Engine Threads Bytes Env Program Sample.

(** ** Integer facts *)

Ltac unfold_int :=
  unfold is_int, is_long, INT_MIN, INT_MAX, LONG_MIN, LONG_MAX in *.
Ltac int_lia := unfold_int; lia.
Ltac int_nia := unfold_int; nia.

Lemma long_of_id z : is_long z -> long_of z = z.
Proof.
  unfold long_of, wrap. intros H.
  change (2 ^ (64 - 1)) with 9223372036854775808.
  change (2 ^ 64) with 18446744073709551616.
  rewrite Z.mod_small by int_lia. lia.
Qed.

Lemma int_of_id z : is_int z -> int_of z = z.
Proof.
  unfold int_of, wrap. intros H.
  change (2 ^ (32 - 1)) with 2147483648.
  change (2 ^ 32) with 4294967296.
  rewrite Z.mod_small by int_lia. lia.
Qed.

Lemma int_of_range z : is_int (int_of z).
Proof.
  unfold int_of, wrap.
  change (2 ^ (32 - 1)) with 2147483648.
  change (2 ^ 32) with 4294967296.
  pose proof (Z.mod_pos_bound (z + 2147483648) 4294967296). int_lia.
Qed.

Lemma is_int_is_long z : is_int z -> is_long z.
Proof. int_lia. Qed.

Lemma int_mul_is_long a b : is_int a -> is_int b -> is_long (a * b).
Proof. intros. int_nia. Qed.

(** ** The block partition

    p workers share n rows; both are [int]s, as the globals
    [thread_count] and [m] that hold them. *)
Section Partition.

Variables p n : Z.
Hypothesis Hp : is_int p.
Hypothesis Hn : is_int n.
Hypothesis Hn0 : 0 <= n.
Hypothesis Hp1 : 1 <= p.

Lemma BLOCK_LOW_bounds id : 0 <= id <= p -> 0 <= id * n / p <= n.
Proof.
  intros Hid. split.
  - apply Z.div_pos; nia.
  - apply Z.div_le_upper_bound; nia.
Qed.

Lemma block_low_mono a b : a <= b -> a * n / p <= b * n / p.
Proof. intros. apply Z.div_le_mono; nia. Qed.

Lemma blocks_ordered a b : a < b -> (a + 1) * n / p - 1 < b * n / p.
Proof. intros Hab. pose proof (block_low_mono (a + 1) b ltac:(lia)). lia. Qed.

(** On the arguments the program passes, the expansions compute the
    mathematical floor expressions: nothing wraps. *)
Lemma BLOCK_LOW_eq id : 0 <= id <= p -> BLOCK_LOW id p n = id * n / p.
Proof.
  intros Hid. unfold BLOCK_LOW.
  assert (Hprod : 0 <= id * n <= p * n) by nia.
  assert (is_long (id * n)).
  { pose proof (int_mul_is_long p n Hp Hn). int_lia. }
  rewrite (long_of_id (id * n)) by done.
  rewrite Z.quot_div_nonneg by lia.
  apply long_of_id. pose proof (BLOCK_LOW_bounds id Hid). int_lia.
Qed.

Lemma BLOCK_HIGH_eq id :
  0 <= id < p -> BLOCK_HIGH id p n = (id + 1) * n / p - 1.
Proof.
  intros Hid. unfold BLOCK_HIGH.
  rewrite (long_of_id (id + 1)) by int_lia.
  rewrite BLOCK_LOW_eq by lia.
  apply long_of_id. pose proof (BLOCK_LOW_bounds (id + 1)). int_lia.
Qed.

Lemma BLOCK_SIZE_eq id :
  0 <= id < p -> BLOCK_SIZE id p n = (id + 1) * n / p - id * n / p.
Proof.
  intros Hid. unfold BLOCK_SIZE.
  rewrite BLOCK_HIGH_eq, BLOCK_LOW_eq by lia.
  pose proof (BLOCK_LOW_bounds (id + 1)).
  pose proof (BLOCK_LOW_bounds id).
  rewrite (long_of_id ((id + 1) * n / p - 1 - id * n / p)) by int_lia.
  rewrite long_of_id by int_lia. lia.
Qed.

Lemma CEILING_eq : CEILING n p = (n + p - 1) / p.
Proof.
  unfold CEILING.
  rewrite (long_of_id (n + p)) by int_lia.
  rewrite (long_of_id (n + p - 1)) by int_lia.
  rewrite Z.quot_div_nonneg by lia.
  apply long_of_id.
  assert (0 <= (n + p - 1) / p <= n + p - 1).
  { split; [apply Z.div_pos; lia|]. apply Z.div_le_upper_bound; nia. }
  int_lia.
Qed.

(** n/p is the floor and (n+p-1)/p the ceiling of the quotient. *)
Lemma floor_ceil_spec :
  n / p * p <= n < (n / p + 1) * p /\
  ((n + p - 1) / p - 1) * p < n <= (n + p - 1) / p * p.
Proof.
  pose proof (Z.div_mod n p ltac:(lia)).
  pose proof (Z.mod_pos_bound n p ltac:(lia)).
  pose proof (Z.div_mod (n + p - 1) p ltac:(lia)).
  pose proof (Z.mod_pos_bound (n + p - 1) p ltac:(lia)).
  nia.
Qed.

Lemma floor_ceil_step a :
  0 <= a ->
  (a + 1) * n / p - a * n / p = n / p \/
  (a + 1) * n / p - a * n / p = (n + p - 1) / p.
Proof.
  intros Ha.
  pose proof (Z.div_mod n p ltac:(lia)) as Hqr.
  pose proof (Z.mod_pos_bound n p ltac:(lia)) as Hr.
  set (q := n / p) in *. set (r := n mod p) in *.
  assert (Hlo : a * n / p = a * q + a * r / p).
  { replace (a * n) with (a * q * p + a * r) by nia.
    rewrite Z.div_add_l by lia. reflexivity. }
  assert (Hhi : (a + 1) * n / p = (a + 1) * q + (a * r + r) / p).
  { replace ((a + 1) * n) with ((a + 1) * q * p + (a * r + r)) by nia.
    rewrite Z.div_add_l by lia. reflexivity. }
  rewrite Hlo, Hhi.
  pose proof (Z.div_mod (a * r) p ltac:(lia)) as Hd.
  pose proof (Z.mod_pos_bound (a * r) p ltac:(lia)) as Hm.
  set (u := a * r / p) in *. set (v := (a * r) mod p) in *.
  destruct (Z.eq_dec r 0) as [Hr0 | Hr0].
  - left. replace (a * r + r) with 0 by nia. replace (a * r) with 0 by nia.
    rewrite Z.div_0_l by lia. nia.
  - assert (Hceil : (n + p - 1) / p = q + 1).
    { replace (n + p - 1) with (1 * p + (q * p + (r - 1))) by lia.
      rewrite Z.div_add_l by lia.
      rewrite Z.div_add_l by lia.
      rewrite (Z.div_small (r - 1) p) by lia. lia. }
    rewrite Hceil.
    destruct (Z_lt_le_dec (v + r) p) as [Hs | Hs].
    + left. replace (a * r + r) with (u * p + (v + r)) by lia.
      rewrite Z.div_add_l by lia. rewrite (Z.div_small (v + r)) by lia. nia.
    + right. replace (a * r + r) with ((u + 1) * p + (v + r - p)) by lia.
      rewrite Z.div_add_l by lia. rewrite (Z.div_small (v + r - p)) by lia. nia.
Qed.

(** The worker that [BLOCK_OWNER] names holds the row (stated on the
    floor expressions). *)
Lemma owner_floor j :
  0 <= j < n ->
  let w := (p * (j + 1) - 1) / n in
  0 <= w < p /\ w * n / p <= j <= (w + 1) * n / p - 1.
Proof.
  intros Hj w.
  pose proof (Z.div_mod (p * (j + 1) - 1) n ltac:(lia)) as Hd.
  pose proof (Z.mod_pos_bound (p * (j + 1) - 1) n ltac:(lia)) as Hm.
  fold w in Hd.
  assert (Hw : 0 <= w < p).
  { split.
    - apply Z.div_pos; nia.
    - apply Z.div_lt_upper_bound; nia. }
  split; [exact Hw|]. split.
  - assert (w * n / p < j + 1); [|lia].
    apply Z.div_lt_upper_bound; nia.
  - assert (j + 1 <= (w + 1) * n / p); [|lia].
    apply Z.div_le_lower_bound; nia.
Qed.

Lemma blocks_disjoint id1 id2 r :
  0 <= id1 < p -> 0 <= id2 < p ->
  BLOCK_LOW id1 p n <= r <= BLOCK_HIGH id1 p n ->
  BLOCK_LOW id2 p n <= r <= BLOCK_HIGH id2 p n -> id1 = id2.
Proof.
  intros H1 H2. rewrite !BLOCK_LOW_eq, !BLOCK_HIGH_eq by lia.
  intros R1 R2.
  destruct (Z.lt_trichotomy id1 id2) as [Hlt | [Heq | Hgt]]; [|done|].
  - pose proof (blocks_ordered id1 id2 Hlt). lia.
  - pose proof (blocks_ordered id2 id1 ltac:(lia)). lia.
Qed.

Lemma blocks_cover r :
  0 <= r < n ->
  exists id, 0 <= id < p /\ BLOCK_LOW id p n <= r <= BLOCK_HIGH id p n.
Proof.
  intros Hr. destruct (owner_floor r Hr) as [Hw Hin].
  exists ((p * (r + 1) - 1) / n). split; [exact Hw|].
  rewrite BLOCK_LOW_eq, BLOCK_HIGH_eq by lia. exact Hin.
Qed.

Lemma blocks_inside id r :
  0 <= id < p -> BLOCK_LOW id p n <= r <= BLOCK_HIGH id p n -> 0 <= r < n.
Proof.
  intros Hid. rewrite BLOCK_LOW_eq, BLOCK_HIGH_eq by lia.
  pose proof (BLOCK_LOW_bounds id). pose proof (BLOCK_LOW_bounds (id + 1)). lia.
Qed.

(** C1: the p inclusive ranges [BLOCK_LOW .. BLOCK_HIGH] start at 0, end at
    n-1, follow one another without gap, stay inside [0,n), are pairwise
    disjoint, and every row of [0,n) lies in exactly one of them. *)
Theorem block_partition :
  BLOCK_LOW 0 p n = 0 /\
  BLOCK_HIGH (p - 1) p n = n - 1 /\
  (forall id, 0 <= id < p - 1 ->
     BLOCK_LOW (id + 1) p n = BLOCK_HIGH id p n + 1) /\
  (forall id r, 0 <= id < p ->
     BLOCK_LOW id p n <= r <= BLOCK_HIGH id p n -> 0 <= r < n) /\
  (forall id1 id2 r, 0 <= id1 < p -> 0 <= id2 < p ->
     BLOCK_LOW id1 p n <= r <= BLOCK_HIGH id1 p n ->
     BLOCK_LOW id2 p n <= r <= BLOCK_HIGH id2 p n -> id1 = id2) /\
  (forall r, 0 <= r < n ->
     exists id, 0 <= id < p /\
       BLOCK_LOW id p n <= r <= BLOCK_HIGH id p n /\
       forall id', 0 <= id' < p ->
         BLOCK_LOW id' p n <= r <= BLOCK_HIGH id' p n -> id' = id).
Proof.
  split; [|split; [|split; [|split; [|split]]]].
  - rewrite BLOCK_LOW_eq by lia. rewrite Z.mul_0_l. apply Z.div_0_l; lia.
  - rewrite BLOCK_HIGH_eq by lia.
    replace (p - 1 + 1) with p by lia. rewrite Z.mul_comm, Z.div_mul by lia. done.
  - intros id Hid. rewrite BLOCK_LOW_eq, BLOCK_HIGH_eq by lia. lia.
  - exact blocks_inside.
  - exact blocks_disjoint.
  - intros r Hr.
    destruct (blocks_cover r Hr) as (id & Hid & Hown).
    exists id. split; [exact Hid|]. split; [exact Hown|].
    intros id' Hid' Hin'. by apply (blocks_disjoint id' id r).
Qed.

(** C5: every block has floor(n/p) or ceil(n/p) rows; the ceiling is also
    what the macro [CEILING] computes. *)
Theorem block_size_balanced (id : Z) :
  0 <= id < p ->
  BLOCK_SIZE id p n = BLOCK_HIGH id p n - BLOCK_LOW id p n + 1 /\
  (BLOCK_SIZE id p n = n / p \/ BLOCK_SIZE id p n = (n + p - 1) / p) /\
  n / p * p <= n < (n / p + 1) * p /\
  ((n + p - 1) / p - 1) * p < n <= (n + p - 1) / p * p /\
  CEILING n p = (n + p - 1) / p.
Proof.
  intros Hid.
  rewrite BLOCK_SIZE_eq, BLOCK_HIGH_eq, BLOCK_LOW_eq by lia.
  split; [lia|]. split; [apply floor_ceil_step; lia|].
  destruct floor_ceil_spec as [Hf Hc].
  split; [exact Hf|]. split; [exact Hc | exact CEILING_eq].
Qed.

(** C6: the worker named by [BLOCK_OWNER] is a valid rank and its block
    contains the row. *)
Theorem block_owner_inverse (j : Z) :
  1 <= n -> 0 <= j < n ->
  let w := BLOCK_OWNER j p n in
  0 <= w < p /\ BLOCK_LOW w p n <= j <= BLOCK_HIGH w p n.
Proof.
  intros Hn1 Hj.
  assert (Hw : BLOCK_OWNER j p n = (p * (j + 1) - 1) / n).
  { unfold BLOCK_OWNER.
    assert (Hj1 : is_int (j + 1)) by int_lia.
    rewrite (long_of_id (j + 1)) by (by apply is_int_is_long).
    pose proof (int_mul_is_long p (j + 1) Hp Hj1) as Hpl.
    rewrite (long_of_id (p * (j + 1))) by done.
    assert (0 < p * (j + 1)) by nia.
    rewrite (long_of_id (p * (j + 1) - 1)) by int_lia.
    rewrite Z.quot_div_nonneg by lia.
    apply long_of_id.
    assert (0 <= (p * (j + 1) - 1) / n <= p * (j + 1) - 1).
    { split; [apply Z.div_pos; lia|]. apply Z.div_le_upper_bound; nia. }
    int_lia. }
  cbv zeta. rewrite Hw.
  destruct (owner_floor j Hj) as [Hr Hin].
  split; [exact Hr|].
  rewrite BLOCK_LOW_eq, BLOCK_HIGH_eq by lia. exact Hin.
Qed.

End Partition.

Lemma block_partition_witness :
  BLOCK_LOW 0 3 7 = 0 /\ BLOCK_HIGH 2 3 7 = 6 /\
  BLOCK_LOW 1 3 7 = BLOCK_HIGH 0 3 7 + 1.
Proof.
  assert (Hint : is_int 3 /\ is_int 7) by (split; int_lia).
  destruct Hint as [H3 H7].
  destruct (block_partition 3 7 H3 H7 ltac:(lia) ltac:(lia))
    as (H0 & H1 & H2 & _).
  split; [exact H0|]. split; [exact H1|]. apply (H2 0). lia.
Defined.

Lemma block_size_balanced_witness :
  BLOCK_SIZE 1 3 7 = 7 / 3 \/ BLOCK_SIZE 1 3 7 = (7 + 3 - 1) / 3.
Proof.
  assert (Hint : is_int 3 /\ is_int 7) by (split; int_lia).
  destruct Hint as [H3 H7].
  exact (proj1 (proj2 (block_size_balanced 3 7 H3 H7 ltac:(lia) ltac:(lia)
                         1 ltac:(lia)))).
Defined.

Lemma block_owner_inverse_witness :
  0 <= BLOCK_OWNER 4 3 7 < 3 /\
  BLOCK_LOW (BLOCK_OWNER 4 3 7) 3 7 <= 4 <= BLOCK_HIGH (BLOCK_OWNER 4 3 7) 3 7.
Proof.
  assert (Hint : is_int 3 /\ is_int 7) by (split; int_lia).
  destruct Hint as [H3 H7].
  exact (block_owner_inverse 3 7 H3 H7 ltac:(lia) ltac:(lia) 4 ltac:(lia)
           ltac:(lia)).
Defined.

(** ** Running code *)

Lemma run_bind {R S} (c : prog R) (f : R -> prog S) μ :
  run (bind c f) μ =
  match run c μ with
  | Some (r, μ') => run (f r) μ'
  | None => None
  end.
Proof.
  revert μ. induction c as [r | a k cont IH | a k v cont IH]; intros μ; simpl.
  - reflexivity.
  - destruct (load a k μ); [apply IH | reflexivity].
  - destruct (store a k v μ); [apply IH | reflexivity].
Qed.

Lemma accesses_bind {R S} (c : prog R) (f : R -> prog S) μ :
  accesses (bind c f) μ =
  accesses c μ ++
  match run c μ with
  | Some (r, μ') => accesses (f r) μ'
  | None => []
  end.
Proof.
  revert μ. induction c as [r | a k cont IH | a k v cont IH]; intros μ; simpl.
  - reflexivity.
  - destruct (load a k μ); [by rewrite IH | reflexivity].
  - destruct (store a k v μ); [by rewrite IH | reflexivity].
Qed.

Lemma run_for_each_app l1 l2 body μ :
  run (for_each (l1 ++ l2) body) μ =
  match run (for_each l1 body) μ with
  | Some (_, μ') => run (for_each l2 body) μ'
  | None => None
  end.
Proof.
  revert μ. induction l1 as [|i l1 IH]; intros μ; simpl; [reflexivity|].
  rewrite !run_bind. destruct (run (body i) μ) as [[[] μ']|]; [apply IH | reflexivity].
Qed.

(** A loop over loops is one loop over the concatenated ranges. *)
Lemma run_for_each_nested (l : list Z) (f : Z -> list Z) body μ :
  run (for_each l (fun r => for_each (f r) body)) μ =
  run (for_each (concat (f <$> l)) body) μ.
Proof.
  revert μ. induction l as [|r l IH]; intros μ; simpl; [reflexivity|].
  rewrite run_bind, run_for_each_app.
  destruct (run (for_each (f r) body) μ) as [[[] μ']|]; [apply IH | reflexivity].
Qed.

(** ** The rows of the workers, put end to end *)

Lemma Pth_mat_vect_rows g rank :
  Pth_mat_vect g rank = for_each (block_rows g rank) (row_body (n g)).
Proof. unfold Pth_mat_vect, block_rows, for_range. reflexivity. Qed.

Lemma Mat_vect_mult_rows m n :
  Mat_vect_mult m n = for_each (seqZ 0 m) (row_body n).
Proof. unfold Mat_vect_mult, for_range, row_body, column_step. reflexivity. Qed.

Lemma block_rows_eq g rank :
  int_dims g -> 0 <= rank < thread_count g ->
  block_rows g rank =
  seqZ (rank * m g / thread_count g)
       ((rank + 1) * m g / thread_count g - rank * m g / thread_count g).
Proof.
  intros [Hp Hm Hp1 Hm0] Hr. unfold block_rows.
  rewrite BLOCK_LOW_eq, BLOCK_HIGH_eq by (done || lia).
  pose proof (BLOCK_LOW_bounds (thread_count g) (m g) Hm0 Hp1 rank ltac:(lia)).
  pose proof (BLOCK_LOW_bounds (thread_count g) (m g) Hm0 Hp1 (rank + 1) ltac:(lia)).
  rewrite !int_of_id by (unfold is_int, INT_MIN, INT_MAX in *; lia).
  f_equal. lia.
Qed.

Lemma in_block_rows g rank i :
  int_dims g -> 0 <= rank < thread_count g ->
  i ∈ block_rows g rank <-> in_block g rank i.
Proof.
  intros Hg Hr. rewrite block_rows_eq by done. destruct Hg as [Hp Hm Hp1 Hm0].
  unfold in_block. rewrite BLOCK_LOW_eq, BLOCK_HIGH_eq by (done || lia).
  rewrite elem_of_seqZ. lia.
Qed.

Lemma blocks_concat_upto p m (k : nat) :
  0 <= m -> 1 <= p -> Z.of_nat k <= p ->
  concat ((fun r => seqZ (r * m / p) ((r + 1) * m / p - r * m / p))
            <$> seqZ 0 (Z.of_nat k))
  = seqZ 0 (Z.of_nat k * m / p).
Proof.
  intros Hm Hp. induction k as [|k IH]; intros Hk.
  - simpl. rewrite Z.div_0_l by lia. reflexivity.
  - rewrite seqZ_S, fmap_app, concat_app, IH by lia. simpl.
    rewrite app_nil_r, Z.add_0_l.
    pose proof (BLOCK_LOW_bounds p m Hm Hp (Z.of_nat k) ltac:(lia)).
    pose proof (block_low_mono p m Hm Hp (Z.of_nat k) (Z.of_nat k + 1) ltac:(lia)).
    replace (Z.of_nat (S k)) with (Z.of_nat k + 1) by lia.
    set (a := Z.of_nat k * m / p) in *.
    set (b := (Z.of_nat k + 1) * m / p) in *.
    replace b with (a + (b - a)) at 2 by lia.
    rewrite seqZ_app by lia. reflexivity.
Qed.

Lemma blocks_concat g :
  int_dims g ->
  concat (block_rows g <$> seqZ 0 (thread_count g)) = seqZ 0 (m g).
Proof.
  intros Hg. pose proof Hg as [Hp Hm Hp1 Hm0].
  transitivity (concat ((fun r => seqZ (r * m g / thread_count g)
       ((r + 1) * m g / thread_count g - r * m g / thread_count g))
            <$> seqZ 0 (thread_count g))).
  - f_equal. apply Forall_fmap_ext. apply Forall_seqZ.
    intros r Hr. apply block_rows_eq; [done | lia].
  - pose proof (blocks_concat_upto (thread_count g) (m g)
                  (Z.to_nat (thread_count g)) Hm0 Hp1 ltac:(lia)) as E.
    rewrite Z2Nat.id in E by lia. rewrite E.
    rewrite Z.mul_comm, Z.div_mul by lia. reflexivity.
Qed.

(** The workers, run one after the other, are the serial loop: the same
    accesses on the same memory, fault or not. *)
Lemma workers_in_order_serial g μ :
  int_dims g ->
  run (workers_in_order g) μ = run (Mat_vect_mult (m g) (n g)) μ.
Proof.
  intros Hg. rewrite Mat_vect_mult_rows.
  erewrite <- blocks_concat by done.
  rewrite <- run_for_each_nested.
  unfold workers_in_order, for_range, Pth_mat_vect, block_rows. reflexivity.
Qed.

(** ** Loads and stores *)

Lemma in_range_true k (l : list float) :
  0 <= k < Z.of_nat (length l) -> in_range k l = true.
Proof. unfold in_range. intros. apply andb_true_iff. lia. Qed.

Lemma in_range_spec k (l : list float) :
  in_range k l = true <-> 0 <= k < Z.of_nat (length l).
Proof. unfold in_range. rewrite andb_true_iff. lia. Qed.

Lemma load_in_range a k μ :
  0 <= k < Z.of_nat (length (arr_of a μ)) ->
  load a k μ = Some (nth (Z.to_nat k) (arr_of a μ) 0%float).
Proof.
  intros Hk. unfold load. rewrite in_range_true by done.
  destruct (lookup_lt_is_Some_2 (arr_of a μ) (Z.to_nat k) ltac:(lia)) as [v Hv].
  rewrite Hv. f_equal. symmetry. by apply nth_lookup_Some.
Qed.

Lemma store_in_range a k v μ :
  0 <= k < Z.of_nat (length (arr_of a μ)) ->
  store a k v μ = Some (set_arr a (<[Z.to_nat k := v]> (arr_of a μ)) μ).
Proof. intros Hk. unfold store. by rewrite in_range_true. Qed.

Lemma store_Some a k v μ μ' :
  store a k v μ = Some μ' ->
  0 <= k < Z.of_nat (length (arr_of a μ)) /\
  μ' = set_arr a (<[Z.to_nat k := v]> (arr_of a μ)) μ.
Proof.
  unfold store. destruct (in_range k (arr_of a μ)) eqn:E; [|done].
  apply in_range_spec in E. intros [= <-]. done.
Qed.

Lemma load_bounds a k μ : is_Some (load a k μ) <-> in_bounds μ (Rd a k).
Proof.
  simpl. split.
  - intros [v Hv]. unfold load in Hv.
    destruct (in_range k (arr_of a μ)) eqn:E; [|done]. by apply in_range_spec.
  - intros. rewrite load_in_range by done. eauto.
Qed.

Lemma store_bounds a k v μ : is_Some (store a k v μ) <-> in_bounds μ (Wr a k).
Proof.
  simpl. split.
  - intros [μ' H]. by apply store_Some in H as [? _].
  - intros. rewrite store_in_range by done. eauto.
Qed.

Lemma shaped_set_y g μ l :
  shaped g μ -> length l = length (mem_y μ) -> shaped g (set_arr ArrY l μ).
Proof. intros [] Hl. split; simpl; try done. by rewrite Hl. Qed.

(** ** What a row costs and yields *)

Lemma row_index g μ i j :
  shaped g μ -> 0 <= i < m g -> 0 <= j < n g ->
  int_of (int_of (i * n g) + j) = i * n g + j /\
  0 <= i * n g + j < Z.of_nat (length (mem_A μ)).
Proof.
  intros [Hm Hn Hmn HA Hx Hy] Hi Hj.
  assert (0 <= i * n g /\ i * n g + j < m g * n g) as [? ?] by nia.
  unfold is_int, INT_MIN, INT_MAX in Hmn.
  rewrite (int_of_id (i * n g)) by (unfold is_int, INT_MIN, INT_MAX; lia).
  rewrite int_of_id by (unfold is_int, INT_MIN, INT_MAX; lia).
  lia.
Qed.

Lemma run_columns g μ i l acc :
  shaped g μ -> 0 <= i < m g -> Forall (fun j => 0 <= j < n g) l ->
  mem_y μ !! Z.to_nat i = Some acc ->
  run (for_each l (column_step (n g) i)) μ =
  Some (tt, Build (mem_A μ) (mem_x μ)
              (<[Z.to_nat i := foldl (spec_term (mem_A μ) (mem_x μ) (n g) i) acc l]>
                 (mem_y μ))).
Proof.
  intros Hs Hi Hl. revert μ acc Hs.
  induction Hl as [|j l Hj Hl IH]; intros μ acc Hs Hacc; simpl.
  - rewrite list_insert_id by done. by destruct μ.
  - pose proof (lookup_lt_Some _ _ _ Hacc) as Hlen.
    destruct (row_index g μ i j Hs Hi Hj) as [Hidx HA].
    rewrite (load_in_range ArrY) by (simpl; lia). simpl.
    rewrite Hidx, (load_in_range ArrA) by done. simpl.
    rewrite (load_in_range ArrX) by (simpl; destruct Hs; lia). simpl.
    rewrite (store_in_range ArrY) by (simpl; lia). simpl.
    rewrite (nth_lookup_Some _ _ _ _ Hacc).
    rewrite (IH _ (spec_term (mem_A μ) (mem_x μ) (n g) i acc j)).
    + simpl. by rewrite list_insert_insert_eq.
    + apply (shaped_set_y g μ); [done|]. by rewrite length_insert.
    + simpl. by apply list_lookup_insert_eq.
Qed.

Lemma run_row_body g μ i :
  shaped g μ -> 0 <= i < m g ->
  run (row_body (n g) i) μ =
  Some (tt, Build (mem_A μ) (mem_x μ)
              (<[Z.to_nat i := spec_row (mem_A μ) (mem_x μ) (n g) i]> (mem_y μ))).
Proof.
  intros Hs Hi. unfold row_body. rewrite run_bind. simpl.
  assert (Hlen : Z.of_nat (length (mem_y μ)) = m g) by (by destruct Hs).
  rewrite (store_in_range ArrY) by (simpl; lia). simpl.
  unfold for_range.
  rewrite (run_columns g _ i _ 0%float).
  - simpl. by rewrite list_insert_insert_eq.
  - apply (shaped_set_y g μ); [done|]. by rewrite length_insert.
  - done.
  - apply Forall_seqZ. lia.
  - simpl. apply list_lookup_insert_eq. lia.
Qed.

Lemma length_write_rows A x n y l :
  length (write_rows A x n y l) = length y.
Proof.
  revert y. induction l as [|i l IH]; intros y; simpl; [done|].
  unfold write_rows in *. simpl. by rewrite IH, length_insert.
Qed.

Lemma run_rows g μ l :
  shaped g μ -> Forall (fun i => 0 <= i < m g) l ->
  run (for_each l (row_body (n g))) μ =
  Some (tt, Build (mem_A μ) (mem_x μ)
              (write_rows (mem_A μ) (mem_x μ) (n g) (mem_y μ) l)).
Proof.
  intros Hs Hl. revert μ Hs.
  induction Hl as [|i l Hi Hl IH]; intros μ Hs; cbn [for_each].
  - by destruct μ.
  - rewrite run_bind, run_row_body by done.
    rewrite IH; [done|].
    apply (shaped_set_y g μ); [done|]. by rewrite length_insert.
Qed.

Lemma lookup_write_rows A x n y l (k : nat) :
  (k < length y)%nat -> Forall (fun i => 0 <= i) l ->
  write_rows A x n y l !! k =
  if decide (Z.of_nat k ∈ l) then Some (spec_row A x n (Z.of_nat k)) else y !! k.
Proof.
  intros Hk Hl. revert y Hk.
  induction Hl as [|i l Hi Hl IH]; intros y Hk.
  - unfold write_rows. cbn [foldl].
    case_decide as Hin; [by apply not_elem_of_nil in Hin | done].
  - unfold write_rows in *. cbn [foldl]. rewrite IH by (by rewrite length_insert).
    destruct (decide (Z.of_nat k ∈ l)) as [Hin | Hnin].
    + rewrite decide_True by (by right). done.
    + destruct (decide (i = Z.of_nat k)) as [-> | Hne].
      * rewrite decide_True by left. rewrite Nat2Z.id.
        by apply list_lookup_insert_eq.
      * rewrite decide_False
          by (rewrite elem_of_cons; intros [E|E]; [by rewrite E in Hne | done]).
        apply list_lookup_insert_ne. lia.
Qed.

Lemma write_rows_all A x m n y :
  Z.of_nat (length y) = m ->
  write_rows A x n y (seqZ 0 m) = spec_y A x m n.
Proof.
  intros Hy. apply list_eq. intros k.
  destruct (decide (k < length y)%nat) as [Hk | Hk].
  - rewrite lookup_write_rows by (done || apply Forall_seqZ; lia).
    rewrite decide_True by (apply elem_of_seqZ; lia).
    unfold spec_y. rewrite list_lookup_fmap, lookup_seqZ_lt by lia. done.
  - rewrite lookup_ge_None_2 by (rewrite length_write_rows; lia).
    unfold spec_y. rewrite list_lookup_fmap, lookup_seqZ_ge by lia. done.
Qed.

(** The serial loop leaves exactly the specified vector. *)
Lemma run_Mat_vect_mult g μ :
  shaped g μ ->
  run (Mat_vect_mult (m g) (n g)) μ =
  Some (tt, Build (mem_A μ) (mem_x μ) (spec_y (mem_A μ) (mem_x μ) (m g) (n g))).
Proof.
  intros Hs. rewrite Mat_vect_mult_rows, (run_rows g) by (done || apply Forall_seqZ; lia).
  rewrite write_rows_all by (by destruct Hs). done.
Qed.

(** ** Accesses *)

Lemma every_mono {R} (P Q : access -> Prop) (c : prog R) :
  (forall e, P e -> Q e) -> every P c -> every Q c.
Proof. intros HPQ. induction 1; constructor; auto. Qed.

Lemma every_bind {R S} P (c : prog R) (f : R -> prog S) :
  every P c -> (forall r, every P (f r)) -> every P (bind c f).
Proof. intros Hc Hf. induction Hc; simpl; [apply Hf | by constructor ..]. Qed.

Lemma every_for_each P (l : list Z) body :
  Forall (fun i => every P (body i)) l -> every P (for_each l body).
Proof.
  induction 1 as [|i l Hi Hl IH]; cbn [for_each]; [constructor|].
  by apply every_bind.
Qed.

Lemma length_store a k v μ μ' b :
  store a k v μ = Some μ' -> length (arr_of b μ') = length (arr_of b μ).
Proof.
  intros H. apply store_Some in H as [_ ->].
  destruct a, b; simpl; try done; by rewrite length_insert.
Qed.




Lemma every_column_step g rank i j :
  in_block g rank i -> 0 <= j < n g ->
  every (worker_access g rank) (column_step (n g) i j).
Proof.
  intros Hi Hj. unfold column_step, ld, st. simpl.
  constructor; [done|]. intros yi.
  constructor; [simpl; by exists i, j|]. intros a.
  constructor; [done|]. intros xj.
  constructor; [done|]. constructor.
Qed.

Lemma every_row_body g rank i :
  in_block g rank i -> every (worker_access g rank) (row_body (n g) i).
Proof.
  intros Hi. unfold row_body, st, for_range. cbn [bind].
  constructor; [done|].
  apply every_for_each, Forall_seqZ. intros j Hj.
  apply every_column_step; [done | lia].
Qed.

Lemma every_Pth_mat_vect g rank :
  int_dims g -> 0 <= rank < thread_count g ->
  every (worker_access g rank) (Pth_mat_vect g rank).
Proof.
  intros Hg Hr. rewrite Pth_mat_vect_rows.
  apply every_for_each, Forall_forall. intros i Hi.
  apply every_row_body. by apply in_block_rows.
Qed.

Lemma in_block_range g rank i :
  int_dims g -> 0 <= rank < thread_count g ->
  in_block g rank i -> 0 <= i < m g.
Proof.
  intros [Hp Hm Hp1 Hm0] Hr. unfold in_block.
  rewrite BLOCK_LOW_eq, BLOCK_HIGH_eq by (done || lia).
  pose proof (BLOCK_LOW_bounds (thread_count g) (m g) Hm0 Hp1 rank ltac:(lia)).
  pose proof (BLOCK_LOW_bounds (thread_count g) (m g) Hm0 Hp1 (rank + 1) ltac:(lia)).
  lia.
Qed.

Lemma run_Pth_mat_vect g μ rank :
  int_dims g -> shaped g μ -> 0 <= rank < thread_count g ->
  run (Pth_mat_vect g rank) μ =
  Some (tt, Build (mem_A μ) (mem_x μ)
              (write_rows (mem_A μ) (mem_x μ) (n g) (mem_y μ) (block_rows g rank))).
Proof.
  intros Hg Hs Hr. rewrite Pth_mat_vect_rows. apply run_rows; [done|].
  apply Forall_forall. intros i Hi. apply in_block_rows in Hi; [|done..].
  by apply (in_block_range g rank).
Qed.



(** ** The worker against the serial reference *)

(** C2: running the workers of ranks 0..p-1 gives what the serial
    [Mat_vect_mult] gives, for every worker count p; on buffers of the
    right shape that is the vector y[i] = sum over j, from column 0
    upward, of A[i*n+j]*x[j]. *)
Theorem workers_equal_serial (g : dims) (μ : mem) :
  int_dims g ->
  run (workers_in_order g) μ = run (Mat_vect_mult (m g) (n g)) μ /\
  (forall p', is_int p' -> 1 <= p' ->
     run (workers_in_order (Dims p' (m g) (n g))) μ = run (workers_in_order g) μ) /\
  (shaped g μ ->
     run (workers_in_order g) μ =
     Some (tt, Build (mem_A μ) (mem_x μ)
                 (spec_y (mem_A μ) (mem_x μ) (m g) (n g)))).
Proof.
  intros Hg. split; [|split].
  - by apply workers_in_order_serial.
  - intros p' Hp' Hp1. rewrite !workers_in_order_serial; [done..|].
    destruct Hg. by split.
  - intros Hs. rewrite workers_in_order_serial by done.
    by apply run_Mat_vect_mult.
Qed.

Lemma workers_equal_serial_witness :
  int_dims (sample_dims 5) /\ shaped (sample_dims 5) sample_mem /\
  run (workers_in_order (sample_dims 5)) sample_mem =
    run (Mat_vect_mult 2 3) sample_mem /\
  run (workers_in_order (Dims 3 2 3)) sample_mem =
    run (workers_in_order (sample_dims 5)) sample_mem /\
  run (workers_in_order (sample_dims 5)) sample_mem =
    Some (tt, Build (mem_A sample_mem) (mem_x sample_mem)
                (spec_y (mem_A sample_mem) (mem_x sample_mem) 2 3)).
Proof.
  assert (Hg : int_dims (sample_dims 5)) by (split; simpl; int_lia).
  assert (Hs : shaped (sample_dims 5) sample_mem) by (split; simpl; int_lia).
  destruct (workers_equal_serial (sample_dims 5) sample_mem Hg)
    as (Hserial & Hp & Hspec).
  split; [exact Hg|]. split; [exact Hs|]. split; [exact Hserial|].
  split; [|exact (Hspec Hs)].
  apply (Hp 3); int_lia.
Defined.

(** The sample of the specification: the product is [6, 15]. *)
Example sample_product :
  spec_y (mem_A sample_mem) (mem_x sample_mem) 2 3 = [6; 15]%float /\
  (forall p, In p [1; 2; 3; 5] ->
     run (workers_in_order (sample_dims p)) sample_mem =
     Some (tt, Build (mem_A sample_mem) (mem_x sample_mem) [6; 15]%float)).
Proof.
  split; [by vm_compute|].
  intros p [<- | [<- | [<- | [<- | []]]]]; by vm_compute.
Qed.

(** ** Bounds *)



(** ** Threads: what one step preserves *)

Lemma in_block_disjoint g r1 r2 i :
  int_dims g -> 0 <= r1 < thread_count g -> 0 <= r2 < thread_count g ->
  in_block g r1 i -> in_block g r2 i -> r1 = r2.
Proof.
  intros [Hp Hm Hp1 Hm0] H1 H2. unfold in_block.
  by apply blocks_disjoint.
Qed.

Lemma in_block_cover g i :
  int_dims g -> 0 <= i < m g ->
  exists rank, 0 <= rank < thread_count g /\ in_block g rank i.
Proof. intros [Hp Hm Hp1 Hm0] Hi. by apply blocks_cover. Qed.

(** A store into a row of another worker does not change what a worker's
    code does, nor what it leaves in its own rows. *)
Lemma run_frame g u (th : prog unit) μ μ' k v :
  every (worker_access g u) th -> ~ in_block g u k -> 0 <= k ->
  run th μ = Some (tt, μ') ->
  run th (Build (mem_A μ) (mem_x μ) (<[Z.to_nat k := v]> (mem_y μ))) =
  Some (tt, Build (mem_A μ') (mem_x μ') (<[Z.to_nat k := v]> (mem_y μ'))).
Proof.
  intros Hth Hk Hk0. revert μ.
  induction Hth as [[] | a j cont HP Hc IH | a j w cont HP Hc IH]; intros μ; simpl.
  - by intros [= ->].
  - destruct (load a j μ) as [x|] eqn:E; [|done]. intros Hrun.
    assert (load a j (Build (mem_A μ) (mem_x μ) (<[Z.to_nat k := v]> (mem_y μ)))
            = Some x) as ->; [|by apply IH].
    unfold load in *. destruct a; simpl in *; try done.
    unfold in_range in *. rewrite length_insert.
    destruct ((0 <=? j) && (j <? Z.of_nat (length (mem_y μ)))) eqn:Hr; [|done].
    apply andb_true_iff in Hr as [Hj _]. apply Z.leb_le in Hj.
    rewrite list_lookup_insert_ne; [done|].
    intros Heq. apply Hk. by replace k with j by lia.
  - destruct a; simpl in HP; try done.
    destruct (store ArrY j w μ) as [μ1|] eqn:E; [|done]. intros Hrun.
    apply store_Some in E as [Hj ->]. simpl in *.
    rewrite store_in_range by (simpl; rewrite length_insert; lia). simpl.
    assert (Hjk : Z.to_nat k <> Z.to_nat j).
    { intros Heq. apply Hk. by replace k with j by lia. }
    rewrite list_insert_insert_ne by done.
    by apply (IH (Build (mem_A μ) (mem_x μ) (<[Z.to_nat j := w]> (mem_y μ)))).
Qed.

Lemma size_bind_unit {S} (c : prog unit) (f : unit -> prog S) :
  size (bind c f) = (size c + size (f tt))%nat.
Proof.
  induction c as [[] | a k cont IH | a k v cont IH]; simpl; [done | ..];
    by rewrite IH.
Qed.

Lemma uniform_bind_unit {S} (c : prog unit) (f : unit -> prog S) :
  uniform c -> uniform (f tt) -> uniform (bind c f).
Proof.
  intros Hc Hf. induction Hc as [[] | a k cont Hc IH Hsz | a k v cont Hc IH]; simpl.
  - done.
  - constructor; [done|]. intros v. by rewrite !size_bind_unit, Hsz.
  - by constructor.
Qed.

Lemma uniform_for_each (l : list Z) body :
  Forall (fun i => uniform (body i)) l -> uniform (for_each l body).
Proof.
  induction 1 as [|i l Hi Hl IH]; cbn [for_each]; [constructor|].
  by apply uniform_bind_unit.
Qed.

Lemma uniform_column_step n i j : uniform (column_step n i j).
Proof.
  unfold column_step, ld, st. simpl.
  repeat (constructor; intros); reflexivity.
Qed.

Lemma uniform_row_body n i : uniform (row_body n i).
Proof.
  unfold row_body, st, for_range. cbn [bind]. constructor.
  apply uniform_for_each, Forall_forall. intros j _. apply uniform_column_step.
Qed.

Lemma uniform_Pth_mat_vect g rank : uniform (Pth_mat_vect g rank).
Proof.
  rewrite Pth_mat_vect_rows.
  apply uniform_for_each, Forall_forall. intros i _. apply uniform_row_body.
Qed.

Lemma size_zero_done (th : prog unit) : size th = O -> th = Ret tt.
Proof. destruct th as [[] | |]; simpl; [done | lia ..]. Qed.

Lemma spawn_lookup g μ t th :
  cfg_threads (spawn g μ) !! t = Some th ->
  th = Pth_mat_vect g (Z.of_nat t) /\ 0 <= Z.of_nat t < thread_count g.
Proof.
  unfold spawn. simpl. rewrite list_lookup_fmap.
  destruct (seqZ 0 (thread_count g) !! t) as [r|] eqn:E; [|done].
  apply lookup_seqZ in E as [-> Hlt]. simpl. intros [= <-].
  rewrite Z.add_0_l. split; [done | lia].
Qed.

Lemma inv_rank g μ0 c t th :
  inv g μ0 c -> cfg_threads c !! t = Some th ->
  0 <= Z.of_nat t < thread_count g.
Proof.
  intros Hinv Ht. apply lookup_lt_Some in Ht.
  rewrite (inv_threads _ _ _ Hinv) in Ht. lia.
Qed.

Lemma inv_spawn g μ : int_dims g -> shaped g μ -> inv g μ (spawn g μ).
Proof.
  intros Hg Hs. split; try done.
  - unfold spawn. simpl. by rewrite length_fmap, length_seqZ.
  - intros t th Ht. apply spawn_lookup in Ht as [-> Hr]. split.
    + by apply every_Pth_mat_vect.
    + apply uniform_Pth_mat_vect.
  - intros t th Ht. apply spawn_lookup in Ht as [-> Hr].
    eexists. split; [by apply run_Pth_mat_vect|].
    intros i Hi. cbn [mem_y mem_A mem_x].
    pose proof (in_block_range g _ i Hg Hr Hi) as Hi'.
    replace i with (Z.of_nat (Z.to_nat i)) at 2 by lia.
    rewrite lookup_write_rows.
    + rewrite decide_True; [done|]. rewrite Z2Nat.id by lia.
      by apply in_block_rows.
    + destruct Hs. unfold spawn. cbn [cfg_mem]. lia.
    + apply Forall_forall. intros i' Hi2. apply in_block_rows in Hi2; [|done..].
      pose proof (in_block_range g _ i' Hg Hr Hi2). lia.
Qed.

Lemma inv_step g μ0 c c' t :
  int_dims g -> inv g μ0 c -> thread_step t c = Some c' -> inv g μ0 c'.
Proof.
  intros Hg Hinv. unfold thread_step.
  destruct (cfg_threads c !! t) as [[[] | a k cont | a k v cont]|] eqn:Ht;
    [by intros [= <-] | | | by intros [= <-]].
  - (* a load *)
    destruct (load a k (cfg_mem c)) as [w|] eqn:E; [|done]. intros [= <-].
    destruct (inv_own _ _ _ Hinv t _ Ht) as [Hev Hun].
    inversion Hev as [| ? ? ? HP Hc |]; subst.
    inversion Hun as [| ? ? ? Huc Hsz |]; subst.
    destruct Hinv as [HA Hx Hlen Hth Hown Hres].
    split; simpl; try done.
    + by rewrite length_insert.
    + intros u th. destruct (decide (t = u)) as [<- | Hne].
      * rewrite list_lookup_insert_eq by (by eapply lookup_lt_Some).
        intros [= <-]. done.
      * rewrite list_lookup_insert_ne by done. apply Hown.
    + intros u th. destruct (decide (t = u)) as [<- | Hne].
      * rewrite list_lookup_insert_eq by (by eapply lookup_lt_Some).
        intros [= <-]. destruct (Hres t _ Ht) as (μ' & Hrun & Hrows).
        simpl in Hrun. rewrite E in Hrun. eauto.
      * rewrite list_lookup_insert_ne by done. apply Hres.
  - (* a store *)
    destruct (store a k v (cfg_mem c)) as [μ1|] eqn:E; [|done]. intros [= <-].
    destruct (inv_own _ _ _ Hinv t _ Ht) as [Hev Hun].
    inversion Hev as [| | ? ? ? ? HP Hc]; subst.
    inversion Hun as [| | ? ? ? ? Huc]; subst.
    pose proof (inv_rank _ _ _ _ _ Hinv Ht) as Hrt.
    destruct a; simpl in HP; try done.
    apply store_Some in E as [Hk ->]. simpl in Hk.
    destruct Hinv as [HA Hx Hlen Hth Hown Hres].
    split; simpl; try done.
    + by rewrite length_insert.
    + by rewrite length_insert.
    + intros u th. destruct (decide (t = u)) as [<- | Hne].
      * rewrite list_lookup_insert_eq by (by eapply lookup_lt_Some).
        intros [= <-]. done.
      * rewrite list_lookup_insert_ne by done. apply Hown.
    + intros u th. destruct (decide (t = u)) as [<- | Hne].
      * rewrite list_lookup_insert_eq by (by eapply lookup_lt_Some).
        intros [= <-]. destruct (Hres t _ Ht) as (μ' & Hrun & Hrows).
        simpl in Hrun. rewrite store_in_range in Hrun by done. eauto.
      * rewrite list_lookup_insert_ne by done. intros Hu.
        destruct (Hres u _ Hu) as (μ' & Hrun & Hrows).
        assert (Hru : 0 <= Z.of_nat u < thread_count g).
        { apply lookup_lt_Some in Hu. lia. }
        assert (Hnot : ~ in_block g (Z.of_nat u) k).
        { intros Hin. apply Hne, Nat2Z.inj.
          by apply (in_block_disjoint g _ _ k). }
        eexists. split.
        { apply (run_frame g (Z.of_nat u)); [by apply Hown | done | lia | done]. }
        intros i Hi. simpl. rewrite list_lookup_insert_ne; [by apply Hrows|].
        intros Heq. apply Hnot. replace k with i; [done|].
        pose proof (in_block_range g _ i Hg Hru Hi). lia.
Qed.

Lemma inv_schedule g μ0 s c c' :
  int_dims g -> inv g μ0 c -> run_schedule s c = Some c' -> inv g μ0 c'.
Proof.
  intros Hg. revert c. induction s as [|t s IH]; intros c Hinv; simpl.
  - by intros [= <-].
  - destruct (thread_step t c) as [c1|] eqn:E; [|done].
    apply IH. by apply (inv_step g μ0 c c1 t).
Qed.

(** No step faults. *)
Lemma inv_progress g μ0 c t : inv g μ0 c -> is_Some (thread_step t c).
Proof.
  intros Hinv. unfold thread_step.
  destruct (cfg_threads c !! t) as [[[] | a k cont | a k v cont]|] eqn:Ht; [eauto | | | eauto].
  - destruct (inv_result _ _ _ Hinv t _ Ht) as (μ' & Hrun & _). simpl in Hrun.
    destruct (load a k (cfg_mem c)); [eauto | done].
  - destruct (inv_result _ _ _ Hinv t _ Ht) as (μ' & Hrun & _). simpl in Hrun.
    destruct (store a k v (cfg_mem c)); [eauto | done].
Qed.

Lemma schedule_runs g μ0 s c :
  int_dims g -> inv g μ0 c -> is_Some (run_schedule s c).
Proof.
  intros Hg. revert c. induction s as [|t s IH]; intros c Hinv; simpl; [eauto|].
  destruct (inv_progress g μ0 c t Hinv) as [c1 E]. rewrite E.
  apply IH. by apply (inv_step g μ0 c c1 t).
Qed.

Lemma next_access_own g μ0 c t e :
  inv g μ0 c -> next_access c t = Some e ->
  worker_access g (Z.of_nat t) e /\ in_bounds (cfg_mem c) e /\
  0 <= Z.of_nat t < thread_count g.
Proof.
  intros Hinv. unfold next_access.
  destruct (cfg_threads c !! t) as [[[] | a k cont | a k v cont]|] eqn:Ht; try done;
    intros [= <-];
    destruct (inv_own _ _ _ Hinv t _ Ht) as [Hev _];
    destruct (inv_result _ _ _ Hinv t _ Ht) as (μ' & Hrun & _);
    pose proof (inv_rank _ _ _ _ _ Hinv Ht) as Hr; simpl in Hrun.
  - inversion Hev; subst. split; [done|]. split; [|done].
    apply load_bounds. destruct (load a k (cfg_mem c)); [eauto | done].
  - inversion Hev; subst. split; [done|]. split; [|done].
    apply (store_bounds a k v). destruct (store a k v (cfg_mem c)); [eauto | done].
Qed.

(** Two accesses open to different workers never conflict. *)
Lemma worker_access_no_conflict g r1 r2 e1 e2 :
  int_dims g -> 0 <= r1 < thread_count g -> 0 <= r2 < thread_count g ->
  r1 <> r2 -> worker_access g r1 e1 -> worker_access g r2 e2 ->
  ~ conflict e1 e2.
Proof.
  intros Hg H1 H2 Hne W1 W2 [Hcell Hw]. apply Hne.
  destruct e1 as [a1 k1 | a1 k1], e2 as [a2 k2 | a2 k2];
    simpl in Hcell, Hw; destruct Hcell as [<- <-];
    destruct Hw as [Hw | Hw]; try discriminate;
    destruct a1; simpl in W1, W2; try done;
    by apply (in_block_disjoint g r1 r2 k1).
Qed.

Lemma inv_no_race g μ0 c : int_dims g -> inv g μ0 c -> ~ race c.
Proof.
  intros Hg Hinv (t1 & t2 & e1 & e2 & Hne & N1 & N2 & Hc).
  destruct (next_access_own g μ0 c t1 e1 Hinv N1) as (W1 & _ & R1).
  destruct (next_access_own g μ0 c t2 e2 Hinv N2) as (W2 & _ & R2).
  apply (worker_access_no_conflict g (Z.of_nat t1) (Z.of_nat t2) e1 e2);
    try done. lia.
Qed.

(** When every thread is done, [y] holds the specified vector. *)
Lemma inv_final g μ0 c :
  int_dims g -> shaped g μ0 -> inv g μ0 c -> all_done c ->
  cfg_mem c =
  Build (mem_A μ0) (mem_x μ0) (spec_y (mem_A μ0) (mem_x μ0) (m g) (n g)).
Proof.
  intros Hg Hs Hinv Hdone.
  destruct (cfg_mem c) as [A x y] eqn:Hμ.
  pose proof (inv_A _ _ _ Hinv) as HA. pose proof (inv_x _ _ _ Hinv) as Hx.
  pose proof (inv_len _ _ _ Hinv) as Hlen. rewrite Hμ in HA, Hx, Hlen.
  simpl in HA, Hx, Hlen. subst A x. f_equal.
  assert (Hm : Z.of_nat (length y) = m g) by (destruct Hs; lia).
  apply list_eq. intros k. unfold spec_y. rewrite list_lookup_fmap.
  destruct (decide (Z.of_nat k < m g)) as [Hk | Hk].
  - rewrite lookup_seqZ_lt by lia. simpl. rewrite Z.add_0_l.
    destruct (in_block_cover g (Z.of_nat k) Hg ltac:(lia)) as (r & Hr & Hin).
    assert (Hlt : (Z.to_nat r < length (cfg_threads c))%nat).
    { rewrite (inv_threads _ _ _ Hinv). lia. }
    destruct (lookup_lt_is_Some_2 _ _ Hlt) as [th Hth].
    assert (th = Ret tt) as ->.
    { unfold all_done in Hdone. rewrite Forall_forall in Hdone.
      apply Hdone. by apply list_elem_of_lookup_2 in Hth. }
    destruct (inv_result _ _ _ Hinv _ _ Hth) as (μ' & Hrun & Hrows).
    simpl in Hrun. injection Hrun as <-.
    rewrite Z2Nat.id in Hrows by lia.
    specialize (Hrows _ Hin). rewrite Hμ, Nat2Z.id in Hrows. done.
  - rewrite lookup_seqZ_ge by lia. simpl. apply lookup_ge_None_2. lia.
Qed.

(** ** Threads: how long it takes *)

Lemma work_left_step g μ0 c c' t u :
  inv g μ0 c -> thread_step t c = Some c' ->
  work_left c' u = if decide (u = t) then pred (work_left c u) else work_left c u.
Proof.
  intros Hinv. unfold thread_step, work_left.
  destruct (cfg_threads c !! t) as [[[] | a k cont | a k v cont]|] eqn:Ht.
  - intros [= <-]. case_decide as E; [|done]. subst u. by rewrite Ht.
  - destruct (load a k (cfg_mem c)) as [w|]; [|done]. intros [= <-]. simpl.
    destruct (inv_own _ _ _ Hinv t _ Ht) as [_ Hun].
    inversion Hun as [| ? ? ? Huc Hsz |]; subst.
    case_decide as E.
    + subst u. rewrite list_lookup_insert_eq by (by eapply lookup_lt_Some).
      rewrite Ht. simpl. apply Hsz.
    + rewrite list_lookup_insert_ne by done. done.
  - destruct (store a k v (cfg_mem c)) as [μ1|]; [|done]. intros [= <-]. simpl.
    case_decide as E.
    + subst u. rewrite list_lookup_insert_eq by (by eapply lookup_lt_Some).
      rewrite Ht. done.
    + rewrite list_lookup_insert_ne by done. done.
  - intros [= <-]. case_decide as E; [|done]. subst u. by rewrite Ht.
Qed.

Lemma work_left_schedule g μ0 s c c' u :
  int_dims g -> inv g μ0 c -> run_schedule s c = Some c' ->
  work_left c' u = (work_left c u - count_occ Nat.eq_dec s u)%nat.
Proof.
  intros Hg. revert c. induction s as [|t s IH]; intros c Hinv; simpl.
  - intros [= <-]. lia.
  - destruct (thread_step t c) as [c1|] eqn:E; [|done]. intros Hrun.
    rewrite (IH c1) by (done || by apply (inv_step g μ0 c c1 t)).
    rewrite (work_left_step g μ0 c c1 t u Hinv E).
    destruct (Nat.eq_dec t u) as [-> | Hne].
    + rewrite decide_True by done. lia.
    + rewrite decide_False by done. done.
Qed.

Lemma all_done_work_left g μ0 c :
  inv g μ0 c ->
  (forall t, (t < Z.to_nat (thread_count g))%nat -> work_left c t = O) ->
  all_done c.
Proof.
  intros Hinv Hz. unfold all_done. apply Forall_forall. intros th Hth.
  apply list_elem_of_lookup_1 in Hth as [t Ht].
  apply size_zero_done.
  specialize (Hz t). unfold work_left in Hz. rewrite Ht in Hz. apply Hz.
  apply lookup_lt_Some in Ht. by rewrite (inv_threads _ _ _ Hinv) in Ht.
Qed.

Lemma work_left_spawn g μ t :
  (t < Z.to_nat (thread_count g))%nat ->
  work_left (spawn g μ) t = size (Pth_mat_vect g (Z.of_nat t)).
Proof.
  intros Ht. unfold work_left, spawn. cbn [cfg_threads].
  rewrite list_lookup_fmap, lookup_seqZ_lt by lia.
  rewrite Z.add_0_l. reflexivity.
Qed.

(** ** Any interleaving of the workers *)

(** C9: however the scheduler interleaves the accesses of the p workers,
    no access faults, [A] and [x] stay as they were, every access a
    thread makes is one open to its rank (writes go to [y] in its own rows
    only) and inside the arrays, accesses open to different ranks never
    conflict, so no two threads ever write the same [y] cell and no two
    threads race; once all threads are done [y] holds what the serial
    product gives; and a schedule that gives every thread as many turns as
    it has accesses ends with all threads done. *)
Theorem schedule_independent (g : dims) (μ : mem) (s : list nat) :
  int_dims g -> shaped g μ ->
  (forall r1 r2 e1 e2,
     0 <= r1 < thread_count g -> 0 <= r2 < thread_count g -> r1 <> r2 ->
     worker_access g r1 e1 -> worker_access g r2 e2 -> ~ conflict e1 e2) /\
  exists c, run_schedule s (spawn g μ) = Some c /\
    mem_A (cfg_mem c) = mem_A μ /\ mem_x (cfg_mem c) = mem_x μ /\
    (forall t e, next_access c t = Some e ->
       worker_access g (Z.of_nat t) e /\ in_bounds (cfg_mem c) e) /\
    (forall t1 t2 k, next_access c t1 = Some (Wr ArrY k) ->
       next_access c t2 = Some (Wr ArrY k) -> t1 = t2) /\
    ~ race c /\
    (all_done c -> run (Mat_vect_mult (m g) (n g)) μ = Some (tt, cfg_mem c)) /\
    ((forall t, (t < Z.to_nat (thread_count g))%nat ->
        (size (Pth_mat_vect g (Z.of_nat t)) <= count_occ Nat.eq_dec s t)%nat) ->
     all_done c).
Proof.
  intros Hg Hs. split.
  { intros r1 r2 e1 e2 H1 H2 Hne. by apply worker_access_no_conflict. }
  pose proof (inv_spawn g μ Hg Hs) as Hinv0.
  destruct (schedule_runs g μ s _ Hg Hinv0) as [c Hrun].
  pose proof (inv_schedule g μ s _ c Hg Hinv0 Hrun) as Hinv.
  pose proof (inv_no_race g μ c Hg Hinv) as Hrace.
  exists c. split; [done|].
  split; [by apply (inv_A g μ c)|]. split; [by apply (inv_x g μ c)|].
  split; [|split; [|split; [|split]]].
  - intros t e He.
    destruct (next_access_own g μ c t e Hinv He) as (? & ? & _). done.
  - intros t1 t2 k N1 N2. destruct (decide (t1 = t2)) as [|Hne]; [done|].
    exfalso. apply Hrace. exists t1, t2, (Wr ArrY k), (Wr ArrY k).
    repeat split; try done. by left.
  - exact Hrace.
  - intros Hdone. rewrite (inv_final g μ c) by done.
    by apply run_Mat_vect_mult.
  - intros Hturns. apply (all_done_work_left g μ); [done|].
    intros t Ht. rewrite (work_left_schedule g μ s _ c t Hg Hinv0 Hrun).
    rewrite work_left_spawn by done. specialize (Hturns t Ht). lia.
Qed.

Lemma schedule_independent_witness :
  exists c,
    run_schedule (concat (replicate 13 [1; 0]%nat))
      (spawn (sample_dims 2) sample_mem) = Some c /\
    ~ race c /\ all_done c /\
    run (Mat_vect_mult 2 3) sample_mem = Some (tt, cfg_mem c).
Proof.
  assert (Hg : int_dims (sample_dims 2)) by (split; simpl; int_lia).
  assert (Hs : shaped (sample_dims 2) sample_mem) by (split; simpl; int_lia).
  destruct (schedule_independent (sample_dims 2) sample_mem
              (concat (replicate 13 [1; 0]%nat)) Hg Hs)
    as (_ & c & Hrun & _ & _ & _ & _ & Hrace & Hfinal & Hturns).
  assert (Hdone : all_done c).
  { apply Hturns. intros t Ht.
    destruct t as [|[|t]]; [vm_compute; lia | vm_compute; lia |].
    exfalso. change (Z.to_nat (thread_count (sample_dims 2))) with 2%nat in Ht.
    lia. }
  exists c. split; [exact Hrun|]. split; [exact Hrace|].
  split; [exact Hdone | exact (Hfinal Hdone)].
Defined.

(** Two workers taking turns, one access at a time, on the sample. *)
Example round_robin_sample :
  cfg_mem <$> run_schedule (concat (replicate 13 [0; 1]%nat))
                (spawn (sample_dims 2) sample_mem)
  = Some (Build [1; 2; 3; 4; 5; 6]%float [1; 1; 1]%float [6; 15]%float).
Proof. vm_compute. reflexivity. Qed.

(** ** Reading a matrix file *)

Lemma size_of_nonneg z : 0 <= z < 2 ^ 64 -> size_of z = z.
Proof. intros. unfold size_of. by apply Z.mod_small. Qed.

Lemma size_of_int z : is_int z -> 0 <= z -> size_of z = z.
Proof.
  unfold is_int, INT_MAX. intros [_ H] H0. apply size_of_nonneg.
  change (2 ^ 64) with 18446744073709551616. lia.
Qed.

Lemma int_of_bytes_range bs : is_int (int_of_bytes bs).
Proof. apply int_of_range. Qed.

Lemma fread_int_Some s v s' :
  fread_int s = Some (v, s') ->
  v = int_of_bytes (take 4 s) /\ is_int v /\ (4 <= length s)%nat /\
  s' = drop 4 s.
Proof.
  unfold fread_int. case_match eqn:E; [|done]. intros [= <- <-].
  apply Z.leb_le in E. split; [done|].
  split; [apply int_of_bytes_range|]. split; [lia | done].
Qed.

Lemma length_fread_doubles count s :
  Z.of_nat (length (fread_doubles count s)) =
  Z.max 0 (Z.min count (Z.of_nat (length s) / 8)).
Proof.
  unfold fread_doubles. rewrite length_fmap, length_seq. lia.
Qed.

(** On an error return the caller's variables are left as they were. *)
Lemma Read_matrix_error w filename out :
  Read_matrix w filename out = (0, (Read_matrix w filename out).2) \/
  Read_matrix w filename out = (-1, out).
Proof.
  unfold Read_matrix.
  destruct (w_files w !! filename) as [s0|]; [|by right].
  destruct (fread_int s0) as [[rows s1]|]; [|by right].
  destruct (fread_int s1) as [[cols s2]|]; [|by right].
  destruct ((rows <=? 0) || (cols <=? 0)); [by right|].
  destruct (negb (malloc_ok w _)); [by right|].
  destruct (negb (_ =? _)); [by right | by left].
Qed.

(** What a successful return delivers. *)
Lemma Read_matrix_ok w filename out out' :
  Read_matrix w filename out = (0, out') ->
  exists s A rows cols,
    w_files w !! filename = Some s /\
    out' = Outs (Some A) rows cols /\
    is_int rows /\ is_int cols /\ 1 <= rows /\ 1 <= cols /\
    (8 <= length s)%nat /\
    rows = int_of_bytes (take 4 s) /\
    cols = int_of_bytes (take 4 (drop 4 s)) /\
    A = fread_doubles (size_of (int_of (rows * cols))) (drop 8 s) /\
    Z.of_nat (length A) = size_of (int_of (rows * cols)).
Proof.
  unfold Read_matrix.
  destruct (w_files w !! filename) as [s0|]; [|done].
  destruct (fread_int s0) as [[rows s1]|] eqn:E1; [|done].
  destruct (fread_int s1) as [[cols s2]|] eqn:E2; [|done].
  destruct ((rows <=? 0) || (cols <=? 0)) eqn:Epos; [done|].
  destruct (negb (malloc_ok w _)); [done|].
  destruct (negb (_ =? _)) eqn:Ecnt; [done|].
  intros [= <-].
  apply fread_int_Some in E1 as (Hrv & Hr & Hl1 & ->).
  apply fread_int_Some in E2 as (Hcv & Hc & Hl2 & ->).
  rewrite length_drop in Hl2.
  apply orb_false_iff in Epos as [Hr0 Hc0].
  apply Z.leb_gt in Hr0, Hc0.
  apply negb_false_iff, Z.eqb_eq in Ecnt.
  rewrite drop_drop in *. simpl in Ecnt.
  exists s0, (fread_doubles (size_of (int_of (rows * cols))) (drop 8 s0)),
    rows, cols.
  repeat split; try done; try lia; try apply Hr; try apply Hc.
Qed.

(** When rows*cols fits an [int], a successful return delivers exactly
    rows*cols values and the file held that many. *)
Lemma Read_matrix_ok_shape w filename out s A rows cols :
  w_files w !! filename = Some s ->
  Read_matrix w filename out = (0, Outs (Some A) rows cols) ->
  rows * cols <= INT_MAX ->
  Z.of_nat (length A) = rows * cols /\
  8 + 8 * (rows * cols) <= Z.of_nat (length s).
Proof.
  intros Hs Hread Hfit.
  apply Read_matrix_ok in Hread
    as (s' & A' & r & c & Hs' & [= -> -> ->] & Hr & Hc & Hr1 & Hc1 & Hlen & _ & _ & HA & Hcnt).
  rewrite Hs in Hs'. injection Hs' as <-.
  assert (Hprod : is_int (r * c)) by (unfold is_int, INT_MIN, INT_MAX in *; nia).
  rewrite (int_of_id _ Hprod), size_of_int in Hcnt, HA by (done || nia).
  split; [done|].
  rewrite HA, length_fread_doubles, length_drop in Hcnt.
  assert (r * c <= Z.of_nat (length s - 8) / 8) by lia.
  assert (8 * (r * c) <= Z.of_nat (length s - 8)).
  { pose proof (Z.mul_div_le (Z.of_nat (length s - 8)) 8 ltac:(lia)). lia. }
  lia.
Qed.

(** The error returns of [Read_matrix]: no such file, a header that is
    not all there, a dimension that is not positive, and, when rows*cols
    fits an [int], fewer than rows*cols doubles after the header. *)
Lemma Read_matrix_rejects w filename out :
  match w_files w !! filename with
  | None => True
  | Some s =>
      (length s < 8)%nat \/
      int_of_bytes (take 4 s) <= 0 \/
      int_of_bytes (take 4 (drop 4 s)) <= 0 \/
      (int_of_bytes (take 4 s) * int_of_bytes (take 4 (drop 4 s)) <= INT_MAX /\
       Z.of_nat (length s) <
       8 + 8 * (int_of_bytes (take 4 s) * int_of_bytes (take 4 (drop 4 s))))
  end ->
  Read_matrix w filename out = (-1, out).
Proof.
  intros Hbad.
  destruct (Read_matrix_error w filename out) as [Hok | Herr]; [|done].
  exfalso. set (out' := (Read_matrix w filename out).2) in *.
  pose proof (Read_matrix_ok _ _ _ _ Hok)
    as (s & A & r & c & Hs & Hout & Hr & Hc & Hr1 & Hc1 & Hlen & -> & -> & HA & Hcnt).
  rewrite Hout in Hok. rewrite Hs in Hbad.
  destruct Hbad as [H | [H | [H | [Hfit H]]]]; [lia..|].
  pose proof (Read_matrix_ok_shape _ _ _ _ _ _ _ Hs Hok Hfit). lia.
Qed.

(** ** Writing the result *)

Lemma length_le_split k z : length (le_split k z) = k.
Proof. revert z. induction k as [|k IH]; intros z; simpl; [done|]. by rewrite IH. Qed.

Lemma length_doubles (l : list float) :
  length (flat_map bytes_of_double l) = (8 * length l)%nat.
Proof.
  induction l as [|f l IH]; cbn [flat_map]; [done|].
  rewrite length_app, IH. unfold bytes_of_double. rewrite length_le_split.
  cbn [length]. lia.
Qed.

Lemma with_file_with_file filename b1 d1 b2 d2 w :
  with_file filename b2 d2 (with_file filename b1 d1 w)
  = with_file filename b2 d2 w.
Proof.
  unfold with_file, set_disk, set_files.
  cbn [w_files w_disk w_heap w_junk w_writable w_thread_ok w_clock w_bufsiz].
  by rewrite insert_insert_eq.
Qed.

Lemma sys_write_with_file filename data cur d w :
  let got := take (Z.to_nat d) data in
  sys_write filename data (with_file filename cur d w)
  = (Z.of_nat (length got),
     with_file filename (cur ++ got) (d - Z.of_nat (length got)) w).
Proof.
  intros got. unfold sys_write.
  rewrite with_file_with_file. unfold with_file at 1 2 3, set_disk, set_files.
  cbn [w_files w_disk w_heap w_junk w_writable w_thread_ok w_clock w_bufsiz].
  by rewrite lookup_insert_eq.
Qed.

Lemma w_bufsiz_with_file filename bytes d w :
  w_bufsiz (with_file filename bytes d w) = w_bufsiz w.
Proof. reflexivity. Qed.

Lemma take_prefix_app {A} (k : nat) (l1 l2 : list A) :
  (k <= length l1)%nat -> take k (l1 ++ l2) = take k l1.
Proof. intros. by rewrite take_app_le. Qed.

(** The bytes a stream holds back never exceed the data of the call. *)
Lemma fwrite_keep_le (size rest len : nat) :
  (rest <= len)%nat ->
  ((if (128 <=? size)%nat then (rest mod size)%nat else 0%nat) <= len)%nat.
Proof.
  intros Hr. destruct (128 <=? size)%nat; [|lia].
  pose proof (Nat.Div0.mod_le rest size). lia.
Qed.

(** One [fwrite] on a stream through which the bytes [sent] have gone out
    whole: either it accepts everything, and the bytes sent and held back
    are those of before and the new data; or it reports a short count,
    and then the device is full and the file holds as many of the bytes
    as the device had room for when the stream was opened. *)
Lemma fwrite_step filename (room : Z) (sent buf data : list byte)
    (item count : Z) w :
  (length sent <= Z.to_nat room)%nat ->
  0 < item -> Z.of_nat (length data) = item * count ->
  let all := sent ++ buf ++ data in
  let '(r, fp', w') :=
    fwrite data item (Stream filename buf)
      (with_file filename sent (room - Z.of_nat (length sent)) w) in
  (r = count /\ s_name fp' = filename /\
   exists sent',
     sent' ++ s_buf fp' = all /\ (length sent' <= Z.to_nat room)%nat /\
     w' = with_file filename sent' (room - Z.of_nat (length sent')) w) \/
  (r < count /\ fp' = Stream filename [] /\
   (Z.to_nat room < length all)%nat /\
   (Z.to_nat (w_bufsiz w) < length buf + length data)%nat /\
   w' = with_file filename (take (Z.to_nat room) all)
          (room - Z.of_nat (length (take (Z.to_nat room) all))) w).
Proof.
  intros Hsent Hitem Hlen all. unfold fwrite.
  cbn [s_buf s_name]. rewrite !w_bufsiz_with_file.
  set (size := Z.to_nat (w_bufsiz w)).
  set (space := (size - length buf)%nat).
  destruct (Nat.leb_spec (length data) space) as [Hfit | Hover].
  { left. split; [|split; [done|]].
    - rewrite Hlen, Z.mul_comm. apply Z.div_mul. lia.
    - exists sent. cbn [s_buf]. by repeat split. }
  set (rest := (length data - space)%nat).
  set (keep := if (128 <=? size)%nat then (rest mod size)%nat else 0%nat).
  assert (Hkeep : (keep <= length data)%nat)
    by (apply fwrite_keep_le; unfold rest; lia).
  set (k := (length data - keep)%nat).
  rewrite sys_write_with_file. cbv zeta.
  set (out := buf ++ take k data).
  set (got := take (Z.to_nat (room - Z.of_nat (length sent))) out).
  assert (Hout : length out = (length buf + k)%nat).
  { unfold out. rewrite length_app, length_take. lia. }
  assert (Hall : all = (sent ++ out) ++ drop k data).
  { unfold all, out. rewrite <- !app_assoc. by rewrite take_drop. }
  destruct (Z.ltb_spec (Z.of_nat (length got)) (Z.of_nat (length out)))
    as [Hshort | Hwhole].
  - right.
    assert (Hroom : (Z.to_nat (room - Z.of_nat (length sent)) < length out)%nat).
    { unfold got in Hshort. rewrite length_take in Hshort. lia. }
    assert (Hgot : length got = Z.to_nat (room - Z.of_nat (length sent))).
    { unfold got. rewrite length_take. lia. }
    assert (Htake : take (Z.to_nat room) all = sent ++ got).
    { rewrite Hall, take_prefix_app by (rewrite length_app; lia).
      rewrite take_app_ge by lia. unfold got. do 2 f_equal. lia. }
    split; [|split; [done|split; [|split]]].
    + apply Z.div_lt_upper_bound; [lia|].
      rewrite <- Hlen. unfold space in *. lia.
    + rewrite Hall, !length_app. lia.
    + unfold size, space in *. lia.
    + rewrite Htake, length_app. f_equal. lia.
  - left. split; [|split; [done|]].
    + rewrite Hlen, Z.mul_comm. apply Z.div_mul. lia.
    + assert (Hgot : got = out).
      { unfold got. apply take_ge. unfold got in Hwhole.
        rewrite length_take in Hwhole. lia. }
      exists (sent ++ out). cbn [s_buf]. rewrite Hgot.
      split; [by rewrite Hall|]. split.
      * rewrite length_app. unfold got in Hwhole.
        rewrite length_take in Hwhole. lia.
      * rewrite length_app. f_equal. lia.
Qed.

(** Closing a stream through which [sent] has gone out whole: the file
    ends up with as many of the bytes sent and held back as the device
    had room for. *)
Lemma fclose_world filename (room : Z) (sent buf : list byte) w :
  (length sent <= Z.to_nat room)%nat ->
  (fclose (Stream filename buf)
     (with_file filename sent (room - Z.of_nat (length sent)) w)).2
  = with_file filename (take (Z.to_nat room) (sent ++ buf))
      (room - Z.of_nat (length (take (Z.to_nat room) (sent ++ buf)))) w.
Proof.
  intros Hsent. unfold fclose. cbn [s_name s_buf].
  rewrite sys_write_with_file. cbv zeta. cbn [snd].
  rewrite take_app_ge by lia.
  replace (Z.to_nat room - length sent)%nat
    with (Z.to_nat (room - Z.of_nat (length sent))) by lia.
  rewrite !length_app. f_equal. lia.
Qed.

(** Closing after a short count: nothing is left to go out. *)
Lemma fclose_empty filename bytes d w :
  (fclose (Stream filename []) (with_file filename bytes d w)).2
  = with_file filename bytes d w.
Proof.
  unfold fclose. cbn [s_name s_buf].
  rewrite sys_write_with_file. cbv zeta. cbn [snd].
  rewrite take_nil, app_nil_r. cbn [length]. f_equal. lia.
Qed.

Lemma take_extend {A} (k : nat) (l1 l2 : list A) :
  (k < length l1)%nat -> take k (l1 ++ l2) = take k l1.
Proof. intros. apply take_prefix_app. lia. Qed.

Lemma length_bytes_of_int v : length (bytes_of_int v) = 4%nat.
Proof. apply length_le_split. Qed.

Lemma length_vector_bytes y m :
  is_int m -> 0 <= m <= Z.of_nat (length y) ->
  Z.of_nat (length (vector_bytes y m)) = 8 + 8 * m.
Proof.
  intros Hm Hy. unfold vector_bytes.
  rewrite !length_app, !length_bytes_of_int, length_doubles, length_take.
  rewrite size_of_int by (done || lia). lia.
Qed.

(** [Write_vector] on a path that cannot be opened. *)
Lemma Write_vector_closed w filename y m :
  w_writable w filename = false -> Write_vector w filename y m = (-1, w).
Proof. intros Hopen. unfold Write_vector, fopen_wb. by rewrite Hopen. Qed.

Local Opaque fwrite fclose.

(** [Write_vector] on a path that can be opened.  The file receives as
    many leading bytes of the header and the data as the device has room
    for.  The return value is 0 or -1; it is 0 when the device has room
    for all of the bytes, and -1 only if the device has not and the bytes
    do not fit into the buffer of the stream either. *)
Lemma Write_vector_writable w filename y m :
  is_int m -> 0 <= m <= Z.of_nat (length y) ->
  w_writable w filename = true ->
  let bytes := take (Z.to_nat (w_disk w)) (vector_bytes y m) in
  exists ret,
    Write_vector w filename y m =
      (ret, with_file filename bytes (w_disk w - Z.of_nat (length bytes)) w) /\
    (ret = 0 \/
     ret = -1 /\ w_disk w < 8 + 8 * m /\ w_bufsiz w < 8 + 8 * m).
Proof.
  intros Hm Hy Hopen bytes.
  assert (Hsz : size_of m = m) by (apply size_of_int; (done || lia)).
  pose proof (length_vector_bytes y m Hm Hy) as Hvb.
  unfold Write_vector, fopen_wb. rewrite Hopen, Hsz.
  set (d := w_disk w) in *.
  set (data := flat_map bytes_of_double (take (Z.to_nat m) y)).
  assert (Hdata : Z.of_nat (length data) = 8 * m).
  { unfold data. rewrite length_doubles, length_take. lia. }
  assert (Hall : vector_bytes y m = bytes_of_int m ++ bytes_of_int 1 ++ data).
  { unfold vector_bytes. by rewrite Hsz. }
  pose proof (length_bytes_of_int m) as L1.
  pose proof (length_bytes_of_int 1) as L2.
  (* the row count *)
  pose proof (fwrite_step filename d [] [] (bytes_of_int m) 4 1 w
                ltac:(cbn [length]; lia) ltac:(lia) ltac:(rewrite L1; lia))
    as S1.
  cbn [length app] in S1. rewrite Z.sub_0_r in S1. cbv zeta in S1.
  destruct (fwrite (bytes_of_int m) 4 (Stream filename [])
              (with_file filename [] d w)) as [[r1 fp1] w1].
  destruct S1 as [(-> & Hn1 & sent1 & Hs1 & Hr1 & ->)
                 | (Hlt & -> & Hfull & Hbuf & ->)].
  2:{ replace (negb (r1 =? 1)) with true
        by (symmetry; apply negb_true_iff, Z.eqb_neq; lia).
      rewrite fclose_empty. exists (-1). unfold bytes. rewrite Hall.
      rewrite take_extend by lia. split; [done|]. right.
      rewrite L1 in *. cbn [length] in Hbuf. lia. }
  cbn [Z.eqb Pos.eqb negb]. destruct fp1 as [n1 buf1]. cbn [s_name s_buf] in *.
  subst n1.
  (* the column count *)
  pose proof (fwrite_step filename d sent1 buf1 (bytes_of_int 1) 4 1 w
                Hr1 ltac:(lia) ltac:(rewrite L2; lia)) as S2.
  cbv zeta in S2.
  destruct (fwrite (bytes_of_int 1) 4 (Stream filename buf1) _)
    as [[r2 fp2] w2].
  assert (Hlen1 : (length sent1 + length buf1 = 4)%nat).
  { rewrite <- length_app, Hs1. done. }
  destruct S2 as [(-> & Hn2 & sent2 & Hs2 & Hr2 & ->)
                 | (Hlt & -> & Hfull & Hbuf & ->)].
  2:{ replace (negb (r2 =? 1)) with true
        by (symmetry; apply negb_true_iff, Z.eqb_neq; lia).
      rewrite fclose_empty. exists (-1). unfold bytes. rewrite Hall.
      assert (E : sent1 ++ buf1 ++ bytes_of_int 1
                  = bytes_of_int m ++ bytes_of_int 1)
        by (by rewrite app_assoc, Hs1).
      rewrite E in *.
      replace (bytes_of_int m ++ bytes_of_int 1 ++ data)
        with ((bytes_of_int m ++ bytes_of_int 1) ++ data)
        by (by rewrite <- app_assoc).
      rewrite (take_extend _ _ data) by done.
      split; [done|]. right. split; [done|].
      rewrite length_app, L1, L2 in Hfull. rewrite L2 in Hbuf. lia. }
  cbn [Z.eqb Pos.eqb negb]. destruct fp2 as [n2 buf2]. cbn [s_name s_buf] in *.
  subst n2.
  rewrite (app_assoc sent1), Hs1 in Hs2.
  assert (Hlen2 : (length sent2 + length buf2 = 8)%nat).
  { rewrite <- length_app, Hs2, length_app, L1, L2. done. }
  (* the data *)
  pose proof (fwrite_step filename d sent2 buf2 data 8 m w
                Hr2 ltac:(lia) Hdata) as S3.
  cbv zeta in S3.
  destruct (fwrite data 8 (Stream filename buf2) _) as [[r3 fp3] w3].
  rewrite (app_assoc sent2), Hs2, <- app_assoc in S3.
  rewrite <- Hall in S3.
  destruct S3 as [(-> & Hn3 & sent3 & Hs3 & Hr3 & ->)
                 | (Hlt & -> & Hfull & Hbuf & ->)].
  2:{ replace (negb (r3 =? m)) with true
        by (symmetry; apply negb_true_iff, Z.eqb_neq; lia).
      rewrite fclose_empty. exists (-1). split; [done|]. right. lia. }
  rewrite Z.eqb_refl. cbn [negb]. destruct fp3 as [n3 buf3].
  cbn [s_name s_buf] in *. subst n3.
  rewrite fclose_world by done. rewrite Hs3.
  exists 0. split; [done | by left].
Qed.

Local Transparent fwrite fclose.






(** ** main *)

(** [main] either stops at a check, with exit code 1, a diagnostic on
    the error stream and nothing else done, or goes on to compute and
    write. *)
Lemma main_cases w argv :
  (o_status (main w argv) = Exit 1 /\ o_world (main w argv) = w /\
   o_events (main w argv) <> [] /\ Forall is_stderr (o_events (main w argv)) /\
   forall p A x m n, ~ validated w argv p A x m n) \/
  (exists p A x m n, validated w argv p A x m n /\
     main w argv = compute_and_write w argv p A x m n).
Proof.
  unfold main.
  destruct (negb (Z.of_nat (length argv) =? 5)) eqn:Hargc.
  { left. repeat split; try done; [by repeat constructor|].
    intros p A x m n [H _ _ _ _ _ _]. rewrite H in Hargc. done. }
  apply negb_false_iff, Z.eqb_eq in Hargc.
  destruct (atoi (nth 4 argv EmptyString) <=? 0) eqn:Hp.
  { left. repeat split; try done; [by repeat constructor|].
    intros p A x m n [_ -> H _ _ _ _]. apply Z.leb_le in Hp. lia. }
  apply Z.leb_gt in Hp.
  destruct (Read_matrix w (nth 1 argv EmptyString) (Outs None 0 0))
    as [retA oA] eqn:EA.
  destruct (negb (retA =? 0)) eqn:HretA.
  { left. repeat split; try done; [by repeat constructor|].
    intros p A x m n [_ _ _ H _ _ _]. rewrite EA in H. by injection H as -> _. }
  apply negb_false_iff, Z.eqb_eq in HretA. subst retA.
  destruct (Read_matrix w (nth 2 argv EmptyString) (Outs None 0 0))
    as [retx ox] eqn:Ex.
  destruct (negb (retx =? 0)) eqn:Hretx.
  { left. repeat split; try done; [by repeat constructor|].
    intros p A x m n [_ _ _ _ H _ _]. rewrite Ex in H. by injection H as -> _. }
  apply negb_false_iff, Z.eqb_eq in Hretx. subst retx.
  destruct (Read_matrix_ok _ _ _ _ EA)
    as (sA & A & m & n & _ & -> & _ & _ & _ & _ & _).
  destruct (Read_matrix_ok _ _ _ _ Ex)
    as (sx & x & m_x & n_x & _ & -> & _ & _ & _ & _ & _).
  cbn [out_m out_n out_A default].
  destruct (negb (n_x =? 1)) eqn:Hnx.
  { left. repeat split; try done; [by repeat constructor|].
    intros p A' x' m' n' [_ _ _ _ H _ _]. rewrite Ex in H.
    by simplify_eq. }
  apply negb_false_iff, Z.eqb_eq in Hnx. subst n_x.
  destruct (negb (n =? m_x)) eqn:Hn.
  { left. repeat split; try done; [by repeat constructor|].
    intros p A' x' m' n' [_ _ _ HA Hx _ _]. rewrite EA in HA. rewrite Ex in Hx.
    simplify_eq. by rewrite Z.eqb_refl in Hn. }
  apply negb_false_iff, Z.eqb_eq in Hn. subst m_x.
  destruct (negb (malloc_ok w (size_of (size_of m * 8)))) eqn:Hy.
  { left. repeat split; try done; [by repeat constructor|].
    intros p A' x' m' n' [_ _ _ HA _ H _]. rewrite EA in HA.
    simplify_eq. by rewrite H in Hy. }
  apply negb_false_iff in Hy.
  destruct (negb (malloc_ok w (size_of (size_of (atoi (nth 4 argv EmptyString)) * 8))))
    eqn:Hh.
  { left. repeat split; try done; [by repeat constructor|].
    intros p A' x' m' n' [_ -> _ _ _ _ H]. by rewrite H in Hh. }
  apply negb_false_iff in Hh.
  right. exists (atoi (nth 4 argv EmptyString)), A, x, m, n.
  split; [split; try done; lia|].
  unfold compute_and_write.
  destruct (parallel_region w _ _) as [evs [μ|]]; [|done].
  destruct (Write_vector w _ _ _) as [retw w']. done.
Qed.

Lemma run_length {R} (c : prog R) μ r μ' b :
  run c μ = Some (r, μ') -> length (arr_of b μ') = length (arr_of b μ).
Proof.
  revert μ. induction c as [r0 | a k cont IH | a k v cont IH]; intros μ; simpl.
  - by intros [= _ <-].
  - destruct (load a k μ); [apply IH | done].
  - destruct (store a k v μ) as [μ1|] eqn:E; [|done].
    intros Hrun. rewrite (IH _ Hrun). by apply (length_store a k v).
Qed.





(** C3: on the sample (two workers) with [pthread_create] failing for
    rank 1, [main] still writes the output file and ends with exit code
    0; row 1 of the written vector is what the fresh block held (42.0),
    not the product (15.0). *)
Theorem thread_creation_failure_ignored :
  let o := main (sample_world 4096 (fun r => negb (r =? 1))) (sample_argv "2") in
  o_status o = Exit 0 /\
  o_events o = [EvCreate 0 true; EvCreate 1 false; EvJoin 0; EvJoin 1;
                EvWrite "y.mat" 0; EvTiming 2 2 4%float 2%float] /\
  w_files (o_world o) !! "y.mat" = Some (matrix_file 2 1 [6; 42]%float) /\
  spec_y [1; 2; 3; 4; 5; 6]%float [1; 1; 1]%float 2 3 = [6; 15]%float.
Proof. vm_compute. done. Qed.

(** ** What a run leaves in the output file *)




(** ** From the checks of main to the workers *)

Lemma atoi_int s : is_int (atoi s).
Proof.
  unfold atoi. destruct (skip_spaces s) as [|c s'] eqn:E; [apply int_of_range|].
  repeat case_match; apply int_of_range.
Qed.

(** What the checks of [main] establish for the workers, when the number
    of entries of A fits an [int]. *)
Lemma validated_shaped w argv p A x m n :
  validated w argv p A x m n -> m * n <= INT_MAX ->
  int_dims (Dims p m n) /\
  shaped (Dims p m n) (Build A x (fresh w (Z.to_nat m))).
Proof.
  intros [_ Hp Hpos HA Hx _ _] Hfit.
  pose proof (Read_matrix_ok _ _ _ _ HA)
    as (sA & ? & ? & ? & HsA & [= <- <- <-] & Hm & Hn & Hm1 & Hn1 & _).
  pose proof (Read_matrix_ok _ _ _ _ Hx)
    as (sx & ? & ? & ? & Hsx & [= <- <- <-] & _).
  destruct (Read_matrix_ok_shape _ _ _ _ _ _ _ HsA HA Hfit) as [HlenA _].
  destruct (Read_matrix_ok_shape _ _ _ _ _ _ _ Hsx Hx) as [Hlenx _].
  { unfold is_int, INT_MAX in *. lia. }
  split.
  - split; cbn [thread_count Engine.m]; try lia; [|done].
    rewrite Hp. apply atoi_int.
  - split; cbn [Engine.m Engine.n mem_A mem_x mem_y]; try lia.
    + unfold is_int, INT_MIN, INT_MAX in *. nia.
    + unfold fresh. rewrite length_fmap, length_seq. lia.
Qed.

Lemma filter_all_true (f : Z -> bool) (l : list Z) :
  (forall r, f r = true) -> filter (fun r => f r = true) l = l.
Proof.
  intros Hf. induction l as [|r l IH]; [done|].
  rewrite filter_cons_True by apply Hf. by rewrite IH.
Qed.

(** When every thread could be created, the parallel region leaves the
    specified vector in [y]. *)
Lemma parallel_region_computes w argv p A x m n :
  validated w argv p A x m n -> m * n <= INT_MAX ->
  (forall r, w_thread_ok w r = true) ->
  (parallel_region w (Dims p m n) (Build A x (fresh w (Z.to_nat m)))).2 =
  Some (Build A x (spec_y A x m n)).
Proof.
  intros Hv Hfit Hok.
  destruct (validated_shaped _ _ _ _ _ _ _ Hv Hfit) as [Hg Hs].
  unfold parallel_region. cbn [snd].
  rewrite filter_all_true by done.
  change (for_each (seqZ 0 (thread_count (Dims p m n)))
            (Pth_mat_vect (Dims p m n)))
    with (workers_in_order (Dims p m n)).
  rewrite workers_in_order_serial by done.
  by rewrite (run_Mat_vect_mult _ _ Hs).
Qed.

(** ** A header whose product overflows *)

(** On the short file the checks of [main] pass. *)
Lemma short_file_validated :
  validated short_world (sample_argv "1") 1 [1; 2]%float [1; 1; 1]%float
    1431655766 3.
Proof. split; vm_compute; (reflexivity || discriminate). Qed.

(** Row 0 on a two-element [A] with n = 3: the load of [A[2]] is out of
    bounds. *)
Lemma row_fault_short (v : float) (y' : list float) :
  run (row_body 3 0) (Build [1; 2]%float [1; 1; 1]%float (v :: y')) = None.
Proof. vm_compute. reflexivity. Qed.

Lemma fresh_cons w (count : Z) :
  0 < count -> exists v y', fresh w (Z.to_nat count) = v :: y'.
Proof.
  intros Hc. unfold fresh. destruct (Z.to_nat count) as [|k] eqn:E; [lia|].
  simpl. eauto.
Qed.

(** The row loop faults in its first round, whatever rows follow. *)
Lemma rows_fault_short (l : list Z) (v : float) (y' : list float) :
  run (for_each (0 :: l) (row_body 3))
      (Build [1; 2]%float [1; 1; 1]%float (v :: y')) = None.
Proof.
  cbn [for_each]. rewrite run_bind, row_fault_short. reflexivity.
Qed.

Lemma worker_fault_short (v : float) (y' : list float) :
  run (Pth_mat_vect (Dims 1 1431655766 3) 0)
      (Build [1; 2]%float [1; 1; 1]%float (v :: y')) = None.
Proof.
  rewrite Pth_mat_vect_rows.
  rewrite block_rows_eq by (split; simpl; int_lia).
  cbn [thread_count Engine.m Engine.n].
  assert (E1 : (0 + 1) * 1431655766 / 1 - 0 * 1431655766 / 1 = 1431655766)
    by reflexivity.
  assert (E2 : 0 * 1431655766 / 1 = 0) by reflexivity.
  rewrite E1, E2, seqZ_cons by lia.
  apply rows_fault_short.
Qed.

Lemma region_fault_short :
  (parallel_region short_world (Dims 1 1431655766 3)
     (Build [1; 2]%float [1; 1; 1]%float
        (fresh short_world (Z.to_nat 1431655766)))).2 = None.
Proof.
  destruct (fresh_cons short_world 1431655766 ltac:(lia)) as (v & y' & ->).
  unfold parallel_region. cbn [snd].
  assert (Hranks : seqZ 0 (thread_count (Dims 1 1431655766 3)) = [0])
    by reflexivity.
  rewrite Hranks, filter_cons_True by done. rewrite filter_nil.
  cbn [for_each]. rewrite run_bind, worker_fault_short. reflexivity.
Qed.

(** With the short file [main] passes every check, creates the worker,
    and the worker reads outside [A]. *)
Lemma main_faults_on_short_file :
  o_status (main short_world (sample_argv "1")) = Fault.
Proof.
  pose proof short_file_validated as Hv.
  destruct (main_cases short_world (sample_argv "1"))
    as [(_ & _ & _ & _ & Hno) | (p & A & x & m & n & Hv' & ->)].
  { exfalso. by apply (Hno _ _ _ _ _ Hv). }
  assert (p = 1 /\ A = [1; 2]%float /\ x = [1; 1; 1]%float /\
          m = 1431655766 /\ n = 3) as (-> & -> & -> & -> & ->).
  { destruct Hv as [_ Hp _ HA Hx _ _], Hv' as [_ Hp' _ HA' Hx' _ _].
    rewrite HA in HA'. rewrite Hx in Hx'. rewrite <- Hp in Hp'.
    injection HA' as HA1 Hm1 Hn1. injection Hx' as Hx1.
    clear HA Hx Hp. rewrite Hp', <- HA1, <- Hm1, <- Hn1, <- Hx1.
    repeat split; reflexivity. }
  unfold compute_and_write.
  pose proof region_fault_short as Hregion.
  destruct (parallel_region short_world _ _) as [evs res].
  cbn [snd] in Hregion. by rewrite Hregion.
Qed.

(** C10: a 24-byte file whose header announces 1431655766 x 3 entries and
    that holds two doubles is read without error: [Read_matrix] returns 0
    and hands the caller the dimensions 1431655766 and 3 with a buffer of
    two values, because the [int] product rows*cols wraps around to 2.
    [main] then goes on, and the worker reads outside the buffer. *)
Theorem Read_matrix_accepts_short_file :
  Read_matrix short_world "A.mat" (Outs None 0 0) =
    (0, Outs (Some [1; 2]%float) 1431655766 3) /\
  int_of (1431655766 * 3) = 2 /\
  Z.of_nat (length short_file) = 8 + 8 * 2 /\
  o_status (main short_world (sample_argv "1")) = Fault.
Proof.
  split; [by vm_compute|]. split; [by vm_compute|]. split; [by vm_compute|].
  exact main_faults_on_short_file.
Qed.

(** ** The byte codec *)

Lemma Z_of_byte_of_Z z : Z_of_byte (byte_of_Z z) = z mod 2 ^ 8.
Proof.
  unfold Z_of_byte, byte_of_Z.
  change 255 with (Z.ones 8). rewrite Z.land_ones by lia.
  pose proof (Z.mod_pos_bound z (2 ^ 8) ltac:(lia)) as Hb.
  destruct (Byte.of_N (Z.to_N (z mod 2 ^ 8))) as [b|] eqn:E.
  - apply Byte.to_of_N in E. simpl. rewrite E. lia.
  - apply Byte.of_N_None_iff in E. lia.
Qed.

Lemma le_combine_split k z :
  le_combine (le_split k z) = z mod 2 ^ (8 * Z.of_nat k).
Proof.
  revert z. induction k as [|k IH]; intros z.
  - simpl. by rewrite Z.mod_1_r.
  - cbn [le_split le_combine]. rewrite IH, Z_of_byte_of_Z.
    replace (8 * Z.of_nat (S k)) with (8 + 8 * Z.of_nat k) by lia.
    rewrite Z.shiftr_div_pow2, Z.shiftl_mul_pow2 by lia.
    pose proof (Z.mod_pos_bound z (2 ^ 8) ltac:(lia)) as H8.
    pose proof (Z.mod_pos_bound (z / 2 ^ 8) (2 ^ (8 * Z.of_nat k)) ltac:(lia)) as Hk.
    rewrite Z.lor_comm, <- Z.add_nocarry_lor.
    + rewrite Z.pow_add_r by lia.
      rewrite (Z.rem_mul_r z (2 ^ 8) (2 ^ (8 * Z.of_nat k))) by lia. lia.
    + apply Z.bits_inj'. intros i Hi. rewrite Z.land_spec, Z.bits_0.
      destruct (Z_lt_le_dec i 8).
      * rewrite Z.mul_pow2_bits_low by lia. done.
      * rewrite (Z.mod_pow2_bits_high z 8 i) by lia. apply andb_false_r.
Qed.

Lemma int_of_mod z : is_int z -> int_of (z mod 2 ^ 32) = z.
Proof.
  intros Hz. unfold int_of, wrap.
  change (2 ^ (32 - 1)) with 2147483648.
  rewrite Zplus_mod_idemp_l.
  change (2 ^ 32) with 4294967296.
  rewrite Z.mod_small by int_lia. lia.
Qed.

(** An [int] written to a file and read back is the same [int]. *)
Lemma int_of_bytes_of_int z : is_int z -> int_of_bytes (bytes_of_int z) = z.
Proof.
  intros Hz. unfold int_of_bytes, bytes_of_int.
  rewrite le_combine_split. by apply int_of_mod.
Qed.

Lemma digits2_pos_bounds (m : positive) :
  2 ^ (Z.pos (digits2_pos m) - 1) <= Z.pos m < 2 ^ Z.pos (digits2_pos m).
Proof.
  induction m as [m IH | m IH |]; cbn [digits2_pos].
  - rewrite Pos2Z.inj_succ.
    replace (Z.succ (Z.pos (digits2_pos m)) - 1)
      with (Z.succ (Z.pos (digits2_pos m) - 1)) by lia.
    rewrite !Z.pow_succ_r by lia. lia.
  - rewrite Pos2Z.inj_succ.
    replace (Z.succ (Z.pos (digits2_pos m)) - 1)
      with (Z.succ (Z.pos (digits2_pos m) - 1)) by lia.
    rewrite !Z.pow_succ_r by lia. lia.
  - simpl. lia.
Qed.

(** The three fields of a 64-bit pattern. *)
Lemma double_fields (S E F : Z) :
  0 <= S <= 1 -> 0 <= E < 2048 -> 0 <= F < 2 ^ 52 ->
  let b := S * 2 ^ 63 + E * 2 ^ 52 + F in
  Z.testbit b 63 = (S =? 1) /\
  Z.land (Z.shiftr b 52) 2047 = E /\
  Z.land b (2 ^ 52 - 1) = F /\
  0 <= b < 2 ^ 64.
Proof.
  intros HS HE HF b.
  assert (Hb : b = (S * 2048 + E) * 2 ^ 52 + F) by (unfold b; lia).
  split; [|split; [|split]].
  - rewrite Z.testbit_eqb by lia.
    replace b with (S * 2 ^ 63 + (E * 2 ^ 52 + F)) by (unfold b; lia).
    rewrite Z.div_add_l by lia.
    rewrite (Z.div_small (E * 2 ^ 52 + F)) by lia.
    rewrite Z.add_0_r.
    destruct (Z.eq_dec S 0) as [-> | ?]; [done|].
    replace S with 1 by lia. done.
  - rewrite Z.shiftr_div_pow2 by lia.
    change 2047 with (Z.ones 11). rewrite Z.land_ones by lia.
    rewrite Hb, Z.div_add_l, (Z.div_small F) by lia.
    rewrite Z.add_0_r. change (2 ^ 11) with 2048.
    rewrite Z.add_comm, Z.mod_add by lia. apply Z.mod_small. lia.
  - change (2 ^ 52 - 1) with (Z.ones 52). rewrite Z.land_ones by lia.
    rewrite Hb, Z.add_comm, Z.mod_add by lia. apply Z.mod_small. lia.
  - unfold b. lia.
Qed.

Lemma valid_finite s m e :
  valid_binary (S754_finite s m e) = true ->
  (Z.pos m < 2 ^ 52 /\ e = -1074) \/
  (2 ^ 52 <= Z.pos m < 2 ^ 53 /\ -1074 <= e <= 971).
Proof.
  cbn [SpecFloat.valid_binary]. unfold bounded, canonical_mantissa, fexp.
  rewrite andb_true_iff, Z.eqb_eq, Z.leb_le.
  change (SpecFloat.emin prec emax) with (-1074). change (emax - prec) with 971.
  change prec with 53.
  pose proof (digits2_pos_bounds m) as Hd.
  set (d := Z.pos (digits2_pos m)) in *. intros [Hc He].
  assert (Hd1 : 1 <= d) by (unfold d; lia).
  destruct (Z_lt_le_dec (Z.pos m) (2 ^ 52)) as [Hlt | Hge].
  - left. split; [done|].
    assert (d <= 52); [|lia].
    destruct (Z_lt_le_dec 52 d) as [Hbig|]; [|lia].
    assert (2 ^ 52 <= 2 ^ (d - 1)) by (apply Z.pow_le_mono_r; lia). lia.
  - right.
    assert (53 <= d).
    { destruct (Z_lt_le_dec d 53) as [Hsmall|]; [|lia].
      assert (2 ^ d <= 2 ^ 52) by (apply Z.pow_le_mono_r; lia). lia. }
    assert (d = 53) by lia.
    replace d with 53 in Hd by lia. change (2 ^ (53 - 1)) with (2 ^ 52) in Hd.
    lia.
Qed.

(** A double written as its bit pattern and read back is the same double. *)
Lemma double_of_bits_of_double (f : float) :
  0 <= bits_of_double f < 2 ^ 64 /\ double_of_bits (bits_of_double f) = f.
Proof.
  pose proof (Prim2SF_valid f) as Hv. pose proof (SF2Prim_Prim2SF f) as Hf.
  unfold bits_of_double.
  destruct (Prim2SF f) as [s | s | | s m e].
  - destruct (double_fields (if s then 1 else 0) 0 0) as (Hs & HE & HF & Hb);
      [destruct s; lia | lia | lia |].
    cbv zeta in *.
    replace ((if s then 1 else 0) * 2 ^ 63 + 0 * 2 ^ 52 + 0)
      with (if s then 2 ^ 63 else 0) in * by (destruct s; lia).
    split; [done|].
    unfold double_of_bits. rewrite Hs, HE, HF. cbn [Z.eqb].
    rewrite <- Hf. by destruct s.
  - destruct (double_fields (if s then 1 else 0) 2047 0) as (Hs & HE & HF & Hb);
      [destruct s; lia | lia | lia |].
    cbv zeta in *.
    replace ((if s then 1 else 0) * 2 ^ 63 + 2047 * 2 ^ 52 + 0)
      with ((if s then 2 ^ 63 else 0) + 2047 * 2 ^ 52) in * by (destruct s; lia).
    split; [done|].
    unfold double_of_bits. rewrite Hs, HE, HF. cbn [Z.eqb Pos.eqb].
    rewrite <- Hf. by destruct s.
  - destruct (double_fields 0 2047 (2 ^ 51)) as (Hs & HE & HF & Hb); [lia..|].
    cbv zeta in *.
    replace (0 * 2 ^ 63 + 2047 * 2 ^ 52 + 2 ^ 51)
      with (2047 * 2 ^ 52 + 2 ^ 51) in * by lia.
    split; [done|].
    unfold double_of_bits. rewrite HE, HF. by rewrite <- Hf.
  - apply valid_finite in Hv as [[Hm ->] | [Hm He]].
    + destruct (double_fields (if s then 1 else 0) 0 (Z.pos m))
        as (Hs & HE & HF & Hb); [destruct s; lia | lia | lia |].
      cbv zeta in *.
      apply Z.ltb_lt in Hm. rewrite Hm.
      replace ((if s then 1 else 0) * 2 ^ 63 + 0 * 2 ^ 52 + Z.pos m)
        with ((if s then 2 ^ 63 else 0) + Z.pos m) in * by (destruct s; lia).
      split; [done|].
      unfold double_of_bits. rewrite Hs, HE, HF. cbn [Z.eqb].
      rewrite <- Hf. by destruct s.
    + destruct (double_fields (if s then 1 else 0) (e + 1075) (Z.pos m - 2 ^ 52))
        as (Hs & HE & HF & Hb); [destruct s; lia | lia | lia |].
      cbv zeta in *.
      assert (Hm' : (Z.pos m <? 2 ^ 52) = false) by (apply Z.ltb_ge; lia).
      rewrite Hm'.
      replace ((if s then 1 else 0) * 2 ^ 63 + (e + 1075) * 2 ^ 52
               + (Z.pos m - 2 ^ 52))
        with ((if s then 2 ^ 63 else 0)
              + ((e + 1075) * 2 ^ 52 + (Z.pos m - 2 ^ 52))) in *
        by (destruct s; lia).
      split; [done|].
      unfold double_of_bits. rewrite Hs, HE, HF.
      assert (E1 : (e + 1075 =? 2047) = false) by (apply Z.eqb_neq; lia).
      assert (E2 : (e + 1075 =? 0) = false) by (apply Z.eqb_neq; lia).
      rewrite E1, E2.
      replace (Z.pos m - 2 ^ 52 + 2 ^ 52) with (Z.pos m) by lia.
      replace (e + 1075 - 1075) with e by lia.
      rewrite <- Hf. by destruct s.
Qed.

Lemma double_of_bytes_of_double f : double_of_bytes (bytes_of_double f) = f.
Proof.
  unfold double_of_bytes, bytes_of_double. rewrite le_combine_split.
  destruct (double_of_bits_of_double f) as [Hb Hf].
  change (8 * Z.of_nat 8) with 64. by rewrite Z.mod_small.
Qed.

Lemma length_bytes_of_double f : length (bytes_of_double f) = 8%nat.
Proof. apply length_le_split. Qed.

Lemma take_drop_doubles (l : list float) (rest : list byte) (i : nat) f :
  l !! i = Some f ->
  take 8 (drop (8 * i) (flat_map bytes_of_double l ++ rest)) = bytes_of_double f.
Proof.
  revert i. induction l as [|g l IH]; intros i Hi; [done|].
  cbn [flat_map]. rewrite <- app_assoc.
  destruct i as [|i].
  - injection Hi as ->. change (8 * 0)%nat with 0%nat. rewrite drop_0.
    rewrite take_app_length' by apply (length_bytes_of_double f). done.
  - replace (8 * S i)%nat with (length (bytes_of_double g) + 8 * i)%nat
      by (rewrite length_bytes_of_double; lia).
    rewrite drop_app_add'; [|done]. by apply IH.
Qed.

(** Reading back the doubles that were written, whatever follows them. *)
Lemma fread_doubles_written (l : list float) (rest : list byte) :
  fread_doubles (Z.of_nat (length l)) (flat_map bytes_of_double l ++ rest) = l.
Proof.
  unfold fread_doubles. rewrite length_app, length_doubles.
  assert (Hk : Z.to_nat (Z.min (Z.of_nat (length l))
                  (Z.of_nat (8 * length l + length rest) / 8)) = length l).
  { assert (Z.of_nat (length l) <= Z.of_nat (8 * length l + length rest) / 8).
    { apply Z.div_le_lower_bound; lia. }
    lia. }
  rewrite Hk. apply list_eq. intros i.
  rewrite list_lookup_fmap.
  destruct (l !! i) as [f|] eqn:E.
  - rewrite lookup_seq_lt by (by apply lookup_lt_Some in E).
    cbn [fmap option_fmap option_map Nat.add].
    rewrite (take_drop_doubles l rest i f E).
    by rewrite double_of_bytes_of_double.
  - rewrite lookup_seq_ge; [done|]. by apply lookup_ge_None.
Qed.

(** ** Matrix files: what is written is what is read *)

Lemma fread_int_written v rest :
  is_int v -> fread_int (bytes_of_int v ++ rest) = Some (v, rest).
Proof.
  intros Hv. unfold fread_int.
  rewrite length_app, length_bytes_of_int.
  replace (4 <=? Z.of_nat (4 + length rest)) with true
    by (symmetry; apply Z.leb_le; lia).
  rewrite take_app_length', drop_app_length' by apply (length_bytes_of_int v).
  by rewrite int_of_bytes_of_int.
Qed.

Lemma Read_matrix_written w filename out rows cols entries rest :
  w_files w !! filename = Some (matrix_file rows cols entries ++ rest) ->
  1 <= rows -> 1 <= cols -> rows * cols <= INT_MAX ->
  Z.of_nat (length entries) = rows * cols ->
  8 * (rows * cols) <= w_heap w ->
  Read_matrix w filename out = (0, Outs (Some entries) rows cols).
Proof.
  intros Hfile Hr Hc Hfit Hlen Hheap. unfold Read_matrix.
  rewrite Hfile. unfold matrix_file. rewrite <- !app_assoc.
  assert (Hri : is_int rows) by int_nia.
  assert (Hci : is_int cols) by int_nia.
  assert (Hpi : is_int (rows * cols)) by int_nia.
  rewrite fread_int_written by done. rewrite fread_int_written by done.
  replace ((rows <=? 0) || (cols <=? 0)) with false
    by (symmetry; apply orb_false_iff; split; apply Z.leb_gt; lia).
  rewrite (int_of_id _ Hpi). rewrite (size_of_int _ Hpi) by nia.
  assert (H8 : size_of (rows * cols * 8) = 8 * (rows * cols)).
  { rewrite size_of_nonneg; [lia|].
    change (2 ^ 64) with 18446744073709551616. int_nia. }
  rewrite H8. unfold malloc_ok.
  replace (8 * (rows * cols) <=? w_heap w) with true
    by (symmetry; apply Z.leb_le; lia).
  cbn [negb]. rewrite <- Hlen, fread_doubles_written, Z.eqb_refl. done.
Qed.

Lemma matrix_file_header rows cols entries :
  is_int rows -> is_int cols ->
  let s := matrix_file rows cols entries in
  (8 <= length s)%nat /\
  int_of_bytes (take 4 s) = rows /\
  int_of_bytes (take 4 (drop 4 s)) = cols /\
  Z.of_nat (length s) = 8 + 8 * Z.of_nat (length entries).
Proof.
  intros Hr Hc s. unfold s, matrix_file.
  rewrite take_app_length', drop_app_length', take_app_length'
    by (apply (length_bytes_of_int rows) || apply (length_bytes_of_int cols)).
  rewrite !length_app, !length_bytes_of_int, length_doubles.
  rewrite !int_of_bytes_of_int by done. repeat split; lia.
Qed.

(** X1: reading a matrix file that holds the header rows, cols and then
    some doubles, when rows*cols fits an [int] and [malloc] grants the
    8*rows*cols bytes: if at least rows*cols doubles are there,
    [Read_matrix] returns 0 and delivers rows, cols and exactly the first
    rows*cols of them, bit for bit (what follows is not looked at); if
    fewer are there it returns -1 and leaves the caller's variables as
    they were. *)
Theorem Read_matrix_matrix_file (w : world) (filename : string) (out : outs)
    (rows cols : Z) (entries : list float) :
  w_files w !! filename = Some (matrix_file rows cols entries) ->
  1 <= rows -> 1 <= cols -> rows * cols <= INT_MAX ->
  8 * (rows * cols) <= w_heap w ->
  Read_matrix w filename out =
    if decide (rows * cols <= Z.of_nat (length entries))
    then (0, Outs (Some (take (Z.to_nat (rows * cols)) entries)) rows cols)
    else (-1, out).
Proof.
  intros Hfile Hr Hc Hfit Hheap.
  assert (Hri : is_int rows) by int_nia.
  assert (Hci : is_int cols) by int_nia.
  case_decide as Hlen.
  - apply (Read_matrix_written _ _ _ _ _ _
             (flat_map bytes_of_double (drop (Z.to_nat (rows * cols)) entries)));
      try done.
    + rewrite Hfile. f_equal. unfold matrix_file.
      rewrite <- !app_assoc. do 2 f_equal.
      rewrite <- flat_map_app. by rewrite take_drop.
    + rewrite length_take. lia.
  - apply Read_matrix_rejects. rewrite Hfile.
    destruct (matrix_file_header rows cols entries Hri Hci)
      as (_ & -> & -> & ->).
    right. right. right. split; [done | lia].
Qed.

Lemma Read_matrix_matrix_file_witness :
  Read_matrix (sample_world 0 (fun _ => true)) "A.mat" (Outs None 0 0) =
    (0, Outs (Some [1; 2; 3; 4; 5; 6]%float) 2 3).
Proof.
  apply (Read_matrix_matrix_file (sample_world 0 (fun _ => true)) "A.mat"
           (Outs None 0 0) 2 3 [1; 2; 3; 4; 5; 6]%float);
    [reflexivity | lia | lia | unfold INT_MAX; lia | simpl; lia].
Defined.

(** ** Write_vector, byte by byte *)

Lemma size_of_mul8 m :
  is_int m -> 0 <= m -> size_of (size_of m * 8) = 8 * m.
Proof.
  intros Hm H0. rewrite (size_of_int m) by done.
  rewrite size_of_nonneg; [lia|].
  change (2 ^ 64) with 18446744073709551616. int_lia.
Qed.

Lemma vector_bytes_matrix_file y m :
  is_int m -> 0 <= m ->
  vector_bytes y m = matrix_file m 1 (take (Z.to_nat m) y).
Proof.
  intros Hm H0. unfold vector_bytes, matrix_file.
  by rewrite size_of_int by (done || lia).
Qed.

(** ** Written by Write_vector, read by Read_matrix *)

(** A result file that was cut short is refused. *)
Lemma Read_matrix_cut_short w filename out m entries (k : nat) :
  is_int m -> 1 <= m -> Z.of_nat (length entries) = m ->
  w_files w !! filename = Some (take k (matrix_file m 1 entries)) ->
  Z.of_nat k < 8 + 8 * m ->
  Read_matrix w filename out = (-1, out).
Proof.
  intros Hm Hm1 Hlen Hfile Hk. apply Read_matrix_rejects. rewrite Hfile.
  assert (H1 : is_int 1) by int_lia.
  destruct (matrix_file_header m 1 entries Hm H1) as (_ & Hr & Hc & Hl).
  cbv zeta in *.
  destruct (decide (k < 8)%nat) as [Hshort | Hlong].
  { left. rewrite length_take. lia. }
  right. right. right.
  rewrite take_take, Nat.min_l by lia. rewrite Hr.
  assert (Hc' : int_of_bytes (take 4 (drop 4 (take k (matrix_file m 1 entries))))
                = 1).
  { rewrite <- Hc. f_equal. rewrite !take_drop_commute.
    by rewrite take_take, Nat.min_l by lia. }
  rewrite Hc'. split; [int_lia|]. rewrite length_take. lia.
Qed.

(** With room on the device the whole file is written and 0 returned. *)
Lemma Write_vector_room w filename y m :
  is_int m -> 0 <= m -> Z.of_nat (length y) = m ->
  w_writable w filename = true -> 8 + 8 * m <= w_disk w ->
  Write_vector w filename y m =
    (0, with_file filename (matrix_file m 1 y) (w_disk w - (8 + 8 * m)) w).
Proof.
  intros Hm H0 Hlen Hopen Hroom.
  destruct (Write_vector_writable w filename y m Hm ltac:(lia) Hopen)
    as (ret & Hwr & Hret).
  cbv zeta in Hwr. rewrite Hwr.
  pose proof (length_vector_bytes y m Hm ltac:(lia)) as Hvb.
  rewrite take_ge by lia. rewrite Hvb.
  rewrite vector_bytes_matrix_file by (done || lia).
  rewrite take_ge by lia.
  destruct Hret as [-> | (_ & ? & _)]; [done | lia].
Qed.

(** In every case the file holds the leading bytes the device took. *)
Lemma Write_vector_kept w filename y m :
  is_int m -> 0 <= m -> Z.of_nat (length y) = m ->
  w_writable w filename = true ->
  let kept := take (Z.to_nat (w_disk w)) (matrix_file m 1 y) in
  exists ret,
    Write_vector w filename y m =
      (ret, with_file filename kept (w_disk w - Z.of_nat (length kept)) w).
Proof.
  intros Hm H0 Hlen Hopen.
  destruct (Write_vector_writable w filename y m Hm ltac:(lia) Hopen)
    as (ret & Hwr & Hret).
  cbv zeta in Hwr |- *. exists ret. rewrite Hwr.
  rewrite vector_bytes_matrix_file by (done || lia).
  by rewrite (take_ge y) by lia.
Qed.

(** X2: what [Write_vector] leaves, [Read_matrix] reads back or refuses.
    After [Write_vector] on a path that can be opened, with
    1 <= m <= the length of y: if the device had room for the 8 + 8*m
    bytes, [Write_vector] returned 0 and reading the same path returns 0
    and delivers rows = m, cols = 1 and the first m values of y, bit for
    bit; if the device had not, the file was cut short and [Read_matrix]
    returns -1 and leaves the caller's variables as they were, whatever
    [Write_vector] returned. *)
Theorem Write_vector_Read_matrix (w : world) (filename : string)
    (y : list float) (m : Z) (out : outs) :
  is_int m -> 1 <= m <= Z.of_nat (length y) ->
  8 * m <= w_heap w ->
  w_writable w filename = true ->
  let r := Write_vector w filename y m in
  (8 + 8 * m <= w_disk w -> r.1 = 0) /\
  Read_matrix r.2 filename out =
    if decide (8 + 8 * m <= w_disk w)
    then (0, Outs (Some (take (Z.to_nat m) y)) m 1)
    else (-1, out).
Proof.
  intros Hm Hy Hheap Hopen r. unfold r. clear r.
  destruct (Write_vector_writable w filename y m Hm ltac:(lia) Hopen)
    as (ret & Hwr & Hret).
  cbv zeta in Hwr. rewrite Hwr. cbn [fst snd].
  pose proof (length_vector_bytes y m Hm ltac:(lia)) as Hlen.
  split; [intros Hroom; destruct Hret as [-> | (_ & ? & _)]; [done | lia]|].
  rewrite vector_bytes_matrix_file in * by (done || lia).
  case_decide as Hroom.
  - rewrite take_ge by lia.
    apply (Read_matrix_written _ _ _ _ _ _ []).
    + unfold with_file. cbn [set_disk set_files w_files].
      by rewrite lookup_insert_eq, app_nil_r.
    + lia.
    + lia.
    + int_lia.
    + rewrite length_take. lia.
    + rewrite Z.mul_1_r. done.
  - apply (Read_matrix_cut_short _ _ _ m (take (Z.to_nat m) y)
             (Z.to_nat (w_disk w))); try done; try lia.
    + rewrite length_take. lia.
    + unfold with_file. cbn [set_disk set_files w_files].
      by rewrite lookup_insert_eq.
Qed.

Lemma Write_vector_Read_matrix_witness :
  Read_matrix (Write_vector (sample_world 64 (fun _ => true)) "y.mat"
                 [6; 15]%float 2).2 "y.mat" (Outs None 0 0)
    = (0, Outs (Some [6; 15]%float) 2 1) /\
  Read_matrix (Write_vector (sample_world 10 (fun _ => true)) "y.mat"
                 [6; 15]%float 2).2 "y.mat" (Outs None 0 0)
    = (-1, Outs None 0 0).
Proof.
  assert (Hm : is_int 2) by int_lia.
  split.
  - apply (Write_vector_Read_matrix (sample_world 64 (fun _ => true)) "y.mat"
             [6; 15]%float 2 (Outs None 0 0) Hm);
      [simpl; lia | simpl; lia | reflexivity].
  - apply (Write_vector_Read_matrix (sample_world 10 (fun _ => true)) "y.mat"
             [6; 15]%float 2 (Outs None 0 0) Hm);
      [simpl; lia | simpl; lia | reflexivity].
Defined.

(** X3: the two routines disagree on an empty vector.  [Write_vector]
    takes m = 0: on a path that can be opened it returns 0 (if the 8
    bytes of the header fit the buffer of the stream or the device has
    room for them) and leaves a file of at most the header 0, 1; and
    [Read_matrix] refuses that file, leaving the caller's variables as
    they were. *)
Theorem Write_vector_empty (w : world) (filename : string) (y : list float)
    (out : outs) :
  w_writable w filename = true ->
  let r := Write_vector w filename y 0 in
  (8 <= w_disk w \/ 8 <= w_bufsiz w -> r.1 = 0) /\
  w_files r.2 !! filename
    = Some (take (Z.to_nat (w_disk w)) (bytes_of_int 0 ++ bytes_of_int 1)) /\
  Read_matrix r.2 filename out = (-1, out).
Proof.
  intros Hopen r. unfold r. clear r.
  assert (H0 : is_int 0) by int_lia.
  destruct (Write_vector_writable w filename y 0 H0 ltac:(lia) Hopen)
    as (ret & Hwr & Hret).
  cbv zeta in Hwr. rewrite Hwr. cbn [fst snd].
  assert (Hfile : vector_bytes y 0 = bytes_of_int 0 ++ bytes_of_int 1).
  { rewrite vector_bytes_matrix_file by (done || lia). unfold matrix_file.
    change (Z.to_nat 0) with 0%nat. rewrite take_0. cbn [flat_map].
    by rewrite app_nil_r. }
  rewrite Hfile.
  split; [intros Hroom; destruct Hret as [-> | (_ & ? & ?)]; [done | lia]|].
  unfold with_file. cbn [set_disk set_files w_files].
  rewrite lookup_insert_eq. split; [done|].
  apply Read_matrix_rejects. cbn [set_disk set_files w_files].
  rewrite lookup_insert_eq.
  destruct (decide (Z.to_nat (w_disk w) < 8)%nat) as [Hshort | Hlong].
  { left. rewrite length_take. lia. }
  right. left.
  rewrite take_take, Nat.min_l by lia.
  rewrite take_app_length' by apply (length_bytes_of_int 0).
  rewrite int_of_bytes_of_int by done. lia.
Qed.

Lemma Write_vector_empty_witness :
  Read_matrix (Write_vector (sample_world 8 (fun _ => true)) "y.mat" [] 0).2
    "y.mat" (Outs None 0 0) = (-1, Outs None 0 0).
Proof.
  apply (Write_vector_empty (sample_world 8 (fun _ => true)) "y.mat" []
           (Outs None 0 0)). reflexivity.
Defined.

(** ** The bounds are tight *)

Lemma run_for_each_reaches l body μ r i :
  run (for_each l body) μ = Some r -> i ∈ l ->
  exists μi, (forall b, length (arr_of b μi) = length (arr_of b μ)) /\
             is_Some (run (body i) μi).
Proof.
  revert μ. induction l as [|k l IH]; intros μ Hrun Hi.
  - by apply not_elem_of_nil in Hi.
  - cbn [for_each] in Hrun. rewrite run_bind in Hrun.
    destruct (run (body k) μ) as [[[] μ1]|] eqn:Hk; [|done].
    apply elem_of_cons in Hi as [-> | Hi].
    + exists μ. split; [done|]. by rewrite Hk.
    + destruct (IH μ1 Hrun Hi) as (μi & Hlen & Hsome).
      exists μi. split; [|done].
      intros b. rewrite Hlen. by apply (run_length _ _ _ _ b) in Hk.
Qed.

Lemma load_Some_range a k μ v :
  load a k μ = Some v -> 0 <= k < Z.of_nat (length (arr_of a μ)).
Proof. intros H. apply (load_bounds a k μ). by rewrite H. Qed.

(** What one round of the inner loop needs. *)
Lemma column_step_needs n i j μ :
  is_Some (run (column_step n i j) μ) ->
  0 <= i < Z.of_nat (length (mem_y μ)) /\
  0 <= int_of (int_of (i * n) + j) < Z.of_nat (length (mem_A μ)) /\
  0 <= j < Z.of_nat (length (mem_x μ)).
Proof.
  unfold column_step, ld, st. cbn [bind run].
  destruct (load ArrY i μ) as [yi|] eqn:Ey; [|by intros [? ?]].
  destruct (load ArrA _ μ) as [a|] eqn:Ea; [|by intros [? ?]].
  destruct (load ArrX j μ) as [xj|] eqn:Ex; [|by intros [? ?]].
  intros _.
  apply load_Some_range in Ey, Ea, Ex. done.
Qed.

Lemma row_body_needs n i j μ :
  is_Some (run (row_body n i) μ) -> 0 <= j < n ->
  0 <= i < Z.of_nat (length (mem_y μ)) /\
  0 <= int_of (int_of (i * n) + j) < Z.of_nat (length (mem_A μ)) /\
  0 <= j < Z.of_nat (length (mem_x μ)).
Proof.
  intros [r Hrun] Hj. unfold row_body, for_range in Hrun.
  rewrite run_bind in Hrun.
  destruct (run (st ArrY i 0%float) μ) as [[[] μ1]|] eqn:Hst; [|done].
  destruct (run_for_each_reaches _ _ _ _ j Hrun) as (μj & Hlen & Hsome).
  { apply elem_of_seqZ. lia. }
  apply column_step_needs in Hsome.
  pose proof (fun b => run_length _ _ _ _ b Hst) as Hlen1.
  pose proof (Hlen ArrA) as HA. pose proof (Hlen ArrX) as Hx.
  pose proof (Hlen ArrY) as Hy.
  rewrite (Hlen1 ArrA) in HA. rewrite (Hlen1 ArrX) in Hx.
  rewrite (Hlen1 ArrY) in Hy.
  cbn [arr_of] in HA, Hx, Hy. by rewrite <- HA, <- Hx, <- Hy.
Qed.

Lemma rows_need l n i j μ :
  is_Some (run (for_each l (row_body n)) μ) -> i ∈ l -> 0 <= j < n ->
  0 <= i < Z.of_nat (length (mem_y μ)) /\
  0 <= int_of (int_of (i * n) + j) < Z.of_nat (length (mem_A μ)) /\
  0 <= j < Z.of_nat (length (mem_x μ)).
Proof.
  intros [r Hrun] Hi Hj.
  destruct (run_for_each_reaches _ _ _ _ i Hrun Hi) as (μi & Hlen & Hsome).
  pose proof (row_body_needs n i j μi Hsome Hj) as H.
  pose proof (Hlen ArrA) as HA. pose proof (Hlen ArrX) as Hx.
  pose proof (Hlen ArrY) as Hy.
  cbn [arr_of] in HA, Hx, Hy. by rewrite <- HA, <- Hx, <- Hy.
Qed.

(** The cell [A[len]] is one the loops reach when len < m*n. *)
Lemma first_missing_cell m n len :
  1 <= n -> 0 <= len <= INT_MAX -> len < m * n ->
  exists i j, 0 <= i < m /\ 0 <= j < n /\
              int_of (int_of (i * n) + j) = len.
Proof.
  intros Hn Hlen Hlt.
  pose proof (Z.div_mod len n ltac:(lia)) as Hd.
  pose proof (Z.mod_pos_bound len n ltac:(lia)) as Hm.
  exists (len / n), (len mod n).
  assert (0 <= len / n) by (apply Z.div_pos; lia).
  assert (len / n < m) by (apply Z.div_lt_upper_bound; nia).
  split; [lia|]. split; [lia|].
  assert (0 <= len / n * n <= len) by nia.
  rewrite (int_of_id (len / n * n)) by int_lia.
  rewrite int_of_id by int_lia. lia.
Qed.

Lemma rows_need_buffers m n μ :
  1 <= m -> 1 <= n ->
  Z.of_nat (length (mem_A μ)) <= INT_MAX ->
  is_Some (run (for_each (seqZ 0 m) (row_body n)) μ) ->
  m * n <= Z.of_nat (length (mem_A μ)) /\
  n <= Z.of_nat (length (mem_x μ)) /\
  m <= Z.of_nat (length (mem_y μ)).
Proof.
  intros Hm Hn HA Hrun.
  split; [|split].
  - destruct (Z_le_gt_dec (m * n) (Z.of_nat (length (mem_A μ)))) as [|Hlt];
      [done | exfalso].
    destruct (first_missing_cell m n (Z.of_nat (length (mem_A μ))))
      as (i & j & Hi & Hj & Hidx); [lia..|].
    destruct (rows_need (seqZ 0 m) n i j μ Hrun) as (_ & Hin & _);
      [apply elem_of_seqZ; lia | done |].
    lia.
  - destruct (rows_need (seqZ 0 m) n 0 (n - 1) μ Hrun) as (_ & _ & Hin);
      [apply elem_of_seqZ; lia | lia |].
    lia.
  - destruct (rows_need (seqZ 0 m) n (m - 1) 0 μ Hrun) as (Hin & _);
      [apply elem_of_seqZ; lia | lia |].
    lia.
Qed.

(** X4: the bounds of the product are tight.  If [Mat_vect_mult] (or the
    p workers, run in rank order) comes to its end without a fault, then
    every cell y[i], A[i*n+j], x[j] with 0 <= i < m and 0 <= j < n lay
    inside its array; so for m, n >= 1 and an A of at most INT_MAX
    values, A held at least m*n values, x at least n and y at least m. *)
Theorem Mat_vect_mult_needs_buffers (g : dims) (μ : mem) :
  int_dims g ->
  is_Some (run (Mat_vect_mult (m g) (n g)) μ) \/
  is_Some (run (workers_in_order g) μ) ->
  (forall i j, 0 <= i < m g -> 0 <= j < n g ->
     0 <= i < Z.of_nat (length (mem_y μ)) /\
     0 <= int_of (int_of (i * n g) + j) < Z.of_nat (length (mem_A μ)) /\
     0 <= j < Z.of_nat (length (mem_x μ))) /\
  (1 <= m g -> 1 <= n g -> Z.of_nat (length (mem_A μ)) <= INT_MAX ->
     m g * n g <= Z.of_nat (length (mem_A μ)) /\
     n g <= Z.of_nat (length (mem_x μ)) /\
     m g <= Z.of_nat (length (mem_y μ))).
Proof.
  intros Hg Hrun.
  assert (Hrows : is_Some (run (for_each (seqZ 0 (m g)) (row_body (n g))) μ)).
  { rewrite <- Mat_vect_mult_rows.
    destruct Hrun as [H | H]; [done|]. by rewrite <- workers_in_order_serial. }
  split.
  - intros i j Hi Hj. apply (rows_need (seqZ 0 (m g))); [done | | done].
    apply elem_of_seqZ. lia.
  - intros Hm Hn HA. by apply rows_need_buffers.
Qed.

Lemma Mat_vect_mult_needs_buffers_witness :
  2 * 3 <= Z.of_nat (length (mem_A sample_mem)) /\
  3 <= Z.of_nat (length (mem_x sample_mem)) /\
  2 <= Z.of_nat (length (mem_y sample_mem)).
Proof.
  assert (Hg : int_dims (sample_dims 2)) by (split; simpl; int_lia).
  assert (Hrun : is_Some (run (Mat_vect_mult 2 3) sample_mem))
    by (vm_compute; eauto).
  destruct (Mat_vect_mult_needs_buffers (sample_dims 2) sample_mem Hg
              (or_introl Hrun)) as [_ H].
  apply H; [simpl; lia | simpl; lia | vm_compute; discriminate].
Defined.

(** ** More on the block macros *)

Lemma BLOCK_OWNER_eq p n j :
  is_int p -> is_int n -> 1 <= p -> 1 <= n -> 0 <= j < n ->
  BLOCK_OWNER j p n = (p * (j + 1) - 1) / n.
Proof.
  intros Hp Hn Hp1 Hn1 Hj. unfold BLOCK_OWNER.
  assert (Hj1 : is_int (j + 1)) by int_lia.
  rewrite (long_of_id (j + 1)) by (by apply is_int_is_long).
  pose proof (int_mul_is_long p (j + 1) Hp Hj1) as Hpl.
  rewrite (long_of_id (p * (j + 1))) by done.
  assert (0 < p * (j + 1)) by nia.
  rewrite (long_of_id (p * (j + 1) - 1)) by int_lia.
  rewrite Z.quot_div_nonneg by lia.
  apply long_of_id.
  assert (0 <= (p * (j + 1) - 1) / n <= p * (j + 1) - 1).
  { split; [apply Z.div_pos; lia|]. apply Z.div_le_upper_bound; nia. }
  int_lia.
Qed.

Lemma sum_block_sizes p n (k : nat) :
  is_int p -> is_int n -> 0 <= n -> 1 <= p -> Z.of_nat k <= p ->
  foldr Z.add 0 ((fun id => BLOCK_SIZE id p n) <$> seqZ 0 (Z.of_nat k))
  = Z.of_nat k * n / p.
Proof.
  intros Hp Hn Hn0 Hp1. induction k as [|k IH]; intros Hk.
  - simpl. by rewrite Z.div_0_l by lia.
  - rewrite seqZ_S, fmap_app, foldr_app. cbn [fmap list_fmap foldr].
    rewrite Z.add_0_l, Z.add_0_r.
    rewrite BLOCK_SIZE_eq by (done || lia).
    assert (Hshift : forall l a,
              foldr Z.add a l = foldr Z.add 0 l + a).
    { induction l as [|z l IHl]; intros a; cbn [foldr]; [lia|].
      rewrite IHl. lia. }
    rewrite Hshift, IH by lia.
    replace (Z.of_nat (S k)) with (Z.of_nat k + 1) by lia. lia.
Qed.

(** X5: the block sizes add up.  For [int]s p >= 1 and n >= 0 no block
    has a negative size, the sizes of the p blocks sum to n, and the
    sizes of the first k blocks sum to [BLOCK_LOW] of rank k: the rows
    are handed out without loss and without repetition. *)
Theorem block_sizes_sum (p n : Z) :
  is_int p -> is_int n -> 0 <= n -> 1 <= p ->
  (forall id, 0 <= id < p -> 0 <= BLOCK_SIZE id p n) /\
  foldr Z.add 0 ((fun id => BLOCK_SIZE id p n) <$> seqZ 0 p) = n /\
  (forall k, 0 <= k <= p ->
     foldr Z.add 0 ((fun id => BLOCK_SIZE id p n) <$> seqZ 0 k)
     = BLOCK_LOW k p n).
Proof.
  intros Hp Hn Hn0 Hp1. split; [|split].
  - intros id Hid. rewrite BLOCK_SIZE_eq by (done || lia).
    pose proof (block_low_mono p n Hn0 Hp1 id (id + 1) ltac:(lia)). lia.
  - pose proof (sum_block_sizes p n (Z.to_nat p) Hp Hn Hn0 Hp1 ltac:(lia)) as E.
    rewrite Z2Nat.id in E by lia. rewrite E.
    rewrite Z.mul_comm, Z.div_mul by lia. done.
  - intros k Hk.
    pose proof (sum_block_sizes p n (Z.to_nat k) Hp Hn Hn0 Hp1 ltac:(lia)) as E.
    rewrite Z2Nat.id in E by lia. rewrite E.
    by rewrite BLOCK_LOW_eq by (done || lia).
Qed.

Lemma block_sizes_sum_witness :
  foldr Z.add 0 ((fun id => BLOCK_SIZE id 3 7) <$> seqZ 0 3) = 7.
Proof.
  assert (Hint : is_int 3 /\ is_int 7) by (split; int_lia).
  destruct Hint as [H3 H7].
  exact (proj1 (proj2 (block_sizes_sum 3 7 H3 H7 ltac:(lia) ltac:(lia)))).
Defined.

(** X6: [BLOCK_OWNER] names the one rank that holds the row.  For
    [int]s p >= 1, n >= 1, a row 0 <= j < n and a rank 0 <= id < p:
    BLOCK_OWNER(j,p,n) = id exactly when j lies in the block of id; and
    the owner does not decrease when the row grows. *)
Theorem block_owner_exact (p n : Z) :
  is_int p -> is_int n -> 1 <= p -> 1 <= n ->
  (forall j id, 0 <= j < n -> 0 <= id < p ->
     (BLOCK_OWNER j p n = id <->
      BLOCK_LOW id p n <= j <= BLOCK_HIGH id p n)) /\
  (forall j j', 0 <= j <= j' -> j' < n ->
     BLOCK_OWNER j p n <= BLOCK_OWNER j' p n).
Proof.
  intros Hp Hn Hp1 Hn1. split.
  - intros j id Hj Hid.
    rewrite BLOCK_OWNER_eq by done.
    destruct (owner_floor p n Hp1 j Hj) as [Hw Hin].
    cbv zeta in Hw, Hin.
    split.
    + intros <-. by rewrite BLOCK_LOW_eq, BLOCK_HIGH_eq by (done || lia).
    + intros Hblock.
      apply (blocks_disjoint p n Hp Hn ltac:(lia) Hp1 _ _ j); try done.
      by rewrite BLOCK_LOW_eq, BLOCK_HIGH_eq by (done || lia).
  - intros j j' Hj Hj'.
    rewrite !BLOCK_OWNER_eq by (done || lia).
    apply Z.div_le_mono; nia.
Qed.

Lemma block_owner_exact_witness :
  BLOCK_OWNER 4 3 7 = 2 /\ BLOCK_OWNER 2 3 7 <= BLOCK_OWNER 4 3 7.
Proof.
  assert (Hint : is_int 3 /\ is_int 7) by (split; int_lia).
  destruct Hint as [H3 H7].
  destruct (block_owner_exact 3 7 H3 H7 ltac:(lia) ltac:(lia)) as [Hiff Hmono].
  split.
  - apply (proj2 (Hiff 4 2 ltac:(lia) ltac:(lia))).
    split; by vm_compute.
  - apply Hmono; lia.
Defined.

(** ** The serial program, end to end *)

Lemma Read_matrix_ok_heap w filename out A rows cols :
  Read_matrix w filename out = (0, Outs (Some A) rows cols) ->
  malloc_ok w (size_of (size_of (int_of (rows * cols)) * 8)) = true.
Proof.
  unfold Read_matrix.
  destruct (w_files w !! filename) as [s0|]; [|done].
  destruct (fread_int s0) as [[r s1]|]; [|done].
  destruct (fread_int s1) as [[c s2]|]; [|done].
  destruct ((r <=? 0) || (c <=? 0)); [done|].
  destruct (malloc_ok w _) eqn:Hheap; [|done].
  destruct (negb (_ =? _)); [done|].
  by intros [= _ <- <-].
Qed.

(** On a machine that grants no block of 2^63 bytes, a count that was
    granted is not a negative [int] turned into a [size_t]. *)
Lemma granted_count w c :
  w_heap w < 2 ^ 63 -> is_int c ->
  malloc_ok w (size_of (size_of c * 8)) = true -> 0 <= c.
Proof.
  intros Hheap Hc Hok. unfold malloc_ok in Hok. apply Z.leb_le in Hok.
  destruct (Z_lt_le_dec c 0) as [Hneg|]; [exfalso | done].
  unfold size_of in Hok.
  change (2 ^ 64) with 18446744073709551616 in Hok.
  change (2 ^ 63) with 9223372036854775808 in Hheap.
  replace (c mod 18446744073709551616) with (c + 18446744073709551616) in Hok.
  2:{ apply (Z.mod_unique _ _ (-1)); [left|]; int_lia. }
  replace (((c + 18446744073709551616) * 8) mod 18446744073709551616)
    with (8 * c + 18446744073709551616) in Hok.
  2:{ apply (Z.mod_unique _ _ 7); [left|]; int_lia. }
  int_lia.
Qed.

(** When both files were read and the product then ran to its end, the
    number of entries of A fits an [int] and the buffers have the shape of
    the data model. *)
Lemma accepted_shaped w fa fx A x m n y p :
  w_heap w < 2 ^ 63 ->
  Read_matrix w fa (Outs None 0 0) = (0, Outs (Some A) m n) ->
  Read_matrix w fx (Outs None 0 0) = (0, Outs (Some x) n 1) ->
  Z.of_nat (length y) = m ->
  is_Some (run (Mat_vect_mult m n) (Build A x y)) ->
  m * n <= INT_MAX /\ shaped (Dims p m n) (Build A x y).
Proof.
  intros Hheap HA Hx Hy Hrun.
  pose proof (Read_matrix_ok_heap _ _ _ _ _ _ HA) as Hgrant.
  pose proof (Read_matrix_ok _ _ _ _ HA)
    as (sA & ? & ? & ? & HsA & [= <- <- <-] & Hm & Hn & Hm1 & Hn1 & _ & _ & _
        & _ & HlenA).
  pose proof (Read_matrix_ok _ _ _ _ Hx)
    as (sx & ? & ? & ? & Hsx & [= <- <- <-] & _).
  destruct (Read_matrix_ok_shape _ _ _ _ _ _ _ Hsx Hx) as [Hlenx _];
    [int_lia|].
  pose proof (int_of_range (m * n)) as Hc.
  pose proof (granted_count w _ Hheap Hc Hgrant) as Hc0.
  rewrite size_of_int in HlenA by done.
  assert (Hfit : m * n <= INT_MAX).
  { rewrite Mat_vect_mult_rows in Hrun.
    destruct (rows_need_buffers m n (Build A x y)) as (Hneed & _);
      cbn [mem_A mem_x mem_y]; try done; [int_lia|].
    cbn [mem_A] in Hneed. int_lia. }
  split; [done|].
  rewrite int_of_id in HlenA by int_nia.
  split; cbn [Engine.m Engine.n mem_A mem_x mem_y]; try done; try lia.
  int_nia.
Qed.

Lemma malloc_ok_le w a b : a <= b -> b <= w_heap w -> malloc_ok w a = true.
Proof. intros. apply Z.leb_le. lia. Qed.

Lemma length_fresh w k : length (fresh w k) = k.
Proof. unfold fresh. by rewrite length_fmap, length_seq. Qed.

Lemma length_spec_y A x m n : 0 <= m -> Z.of_nat (length (spec_y A x m n)) = m.
Proof. intros. unfold spec_y. rewrite length_fmap, length_seqZ. lia. Qed.

(** What the checks and the allocation of the two programs come to on two
    well-formed input files. *)
Lemma inputs_shaped w fa fx A x m n p :
  1 <= m -> 1 <= n -> m * n <= INT_MAX ->
  Z.of_nat (length A) = m * n -> Z.of_nat (length x) = n ->
  w_files w !! fa = Some (matrix_file m n A) ->
  w_files w !! fx = Some (matrix_file n 1 x) ->
  8 * (m * n) <= w_heap w ->
  Read_matrix w fa (Outs None 0 0) = (0, Outs (Some A) m n) /\
  Read_matrix w fx (Outs None 0 0) = (0, Outs (Some x) n 1) /\
  malloc_ok w (size_of (size_of m * 8)) = true /\
  is_int m /\
  shaped (Dims p m n) (Build A x (fresh w (Z.to_nat m))).
Proof.
  intros Hm Hn Hfit HlenA Hlenx HfA Hfx Hheap.
  assert (Hmi : is_int m) by int_nia.
  split; [|split; [|split; [|split]]].
  - apply (Read_matrix_written _ _ _ _ _ _ []); try done.
    by rewrite app_nil_r.
  - apply (Read_matrix_written _ _ _ _ _ _ []); try done; try lia.
    + by rewrite app_nil_r.
    + int_nia.
    + nia.
  - rewrite size_of_mul8 by (done || lia). apply Z.leb_le. nia.
  - done.
  - split; cbn [Engine.m Engine.n mem_A mem_x mem_y]; try done.
    + int_nia.
    + rewrite length_fresh. lia.
Qed.

(** X7: the serial program on well-formed input.  With three file
    arguments, A.mat an m x n matrix file and x.mat an n x 1 matrix file
    (m, n >= 1, m*n an [int]), enough heap for A, an output path that can
    be opened and room for 8 + 8*m bytes, [main] of matrix_vector.c
    returns 0, prints nothing on the error stream, and leaves in the
    output file exactly the m x 1 matrix file of the product (each y[i]
    summed from column 0 upward); no other file changes. *)
Theorem serial_product (w : world) (prog fa fx fy : string)
    (A x : list float) (m n : Z) :
  1 <= m -> 1 <= n -> m * n <= INT_MAX ->
  Z.of_nat (length A) = m * n -> Z.of_nat (length x) = n ->
  w_files w !! fa = Some (matrix_file m n A) ->
  w_files w !! fx = Some (matrix_file n 1 x) ->
  8 * (m * n) <= w_heap w ->
  w_writable w fy = true -> 8 + 8 * m <= w_disk w ->
  Serial.main w [prog; fa; fx; fy] =
    Outcome (Exit 0) [EvWrite fy 0]
      (with_file fy (matrix_file m 1 (spec_y A x m n))
         (w_disk w - (8 + 8 * m)) w).
Proof.
  intros Hm Hn Hfit HlenA Hlenx HfA Hfx Hheap Hopen Hroom.
  destruct (inputs_shaped w fa fx A x m n 1 Hm Hn Hfit HlenA Hlenx HfA Hfx Hheap)
    as (HA & Hx & Hy & Hmi & Hs).
  unfold Serial.main. cbn [length nth].
  change (negb (Z.of_nat 4 =? 4)) with false. cbv iota.
  rewrite HA. cbn [negb Z.eqb]. cbv iota.
  rewrite Hx. cbn [negb Z.eqb Pos.eqb out_m out_n out_A default]. unfold id.
  cbv iota.
  rewrite Z.eqb_refl, Hy. cbn [negb]. cbv iota.
  pose proof (run_Mat_vect_mult (Dims 1 m n) _ Hs) as Hrun.
  cbn [mem_A mem_x mem_y Engine.m Engine.n] in Hrun. rewrite Hrun.
  cbn [mem_y].
  pose proof (length_spec_y A x m n ltac:(lia)) as Hlen.
  rewrite Write_vector_room by (done || lia). reflexivity.
Qed.

Lemma serial_product_witness :
  o_status (Serial.main (sample_world 4096 (fun _ => true))
              ["matrix_vector"; "A.mat"; "x.mat"; "y.mat"]%string) = Exit 0 /\
  w_files (o_world (Serial.main (sample_world 4096 (fun _ => true))
              ["matrix_vector"; "A.mat"; "x.mat"; "y.mat"]%string)) !! "y.mat"
    = Some (matrix_file 2 1 [6; 15]%float).
Proof.
  rewrite (serial_product (sample_world 4096 (fun _ => true))
             "matrix_vector" "A.mat" "x.mat" "y.mat"
             [1; 2; 3; 4; 5; 6]%float [1; 1; 1]%float 2 3);
    [| lia | lia | unfold INT_MAX; lia | reflexivity | reflexivity
     | reflexivity | reflexivity | simpl; lia | reflexivity | simpl; lia].
  split; [reflexivity|]. vm_compute. reflexivity.
Defined.

(** How a run of the serial program goes: it stops at a check (exit code
    1, a diagnostic, nothing else done), or both files were read, the
    result vector was allocated, and it multiplies and writes. *)
Lemma serial_cases w argv :
  (o_status (Serial.main w argv) = Exit 1 /\ o_world (Serial.main w argv) = w /\
   o_events (Serial.main w argv) <> [] /\
   Forall is_stderr (o_events (Serial.main w argv)) /\
   forall A x m n,
     ~ (length argv = 4%nat /\
        Read_matrix w (nth 1 argv EmptyString) (Outs None 0 0)
          = (0, Outs (Some A) m n) /\
        Read_matrix w (nth 2 argv EmptyString) (Outs None 0 0)
          = (0, Outs (Some x) n 1) /\
        malloc_ok w (size_of (size_of m * 8)) = true)) \/
  (exists A x m n,
     length argv = 4%nat /\
     Read_matrix w (nth 1 argv EmptyString) (Outs None 0 0)
       = (0, Outs (Some A) m n) /\
     Read_matrix w (nth 2 argv EmptyString) (Outs None 0 0)
       = (0, Outs (Some x) n 1) /\
     malloc_ok w (size_of (size_of m * 8)) = true /\
     Serial.main w argv =
       match run (Mat_vect_mult m n) (Build A x (fresh w (Z.to_nat m))) with
       | None => Outcome Fault [] w
       | Some (_, μ) =>
           let out := nth 3 argv EmptyString in
           let (retw, w') := Write_vector w out (mem_y μ) m in
           if negb (retw =? 0) then
             Outcome (Exit 1)
               [EvWrite out retw;
                EvStderr ("Error: Failed to write result to " +:+ out +:+ nl)]
               w'
           else Outcome (Exit 0) [EvWrite out retw] w'
       end).
Proof.
  unfold Serial.main.
  destruct (negb (Z.of_nat (length argv) =? 4)) eqn:Hargc.
  { left. repeat split; try done; [by repeat constructor|].
    intros A x m n (H & _). rewrite H in Hargc. done. }
  apply negb_false_iff, Z.eqb_eq in Hargc.
  destruct (Read_matrix w (nth 1 argv EmptyString) (Outs None 0 0))
    as [retA oA] eqn:EA.
  destruct (negb (retA =? 0)) eqn:HretA.
  { left. repeat split; try done; [by repeat constructor|].
    intros A x m n (_ & H & _). by injection H as -> _. }
  apply negb_false_iff, Z.eqb_eq in HretA. subst retA.
  destruct (Read_matrix w (nth 2 argv EmptyString) (Outs None 0 0))
    as [retx ox] eqn:Ex.
  destruct (negb (retx =? 0)) eqn:Hretx.
  { left. repeat split; try done; [by repeat constructor|].
    intros A x m n (_ & _ & H & _). by injection H as -> _. }
  apply negb_false_iff, Z.eqb_eq in Hretx. subst retx.
  destruct (Read_matrix_ok _ _ _ _ EA)
    as (sA & A & m & n & _ & -> & _ & _ & _ & _ & _).
  destruct (Read_matrix_ok _ _ _ _ Ex)
    as (sx & x & m_x & n_x & _ & -> & _ & _ & _ & _ & _).
  cbn [out_m out_n out_A default].
  destruct (negb (n_x =? 1)) eqn:Hnx.
  { left. repeat split; try done; [by repeat constructor|].
    intros A' x' m' n' (_ & _ & H & _). by simplify_eq. }
  apply negb_false_iff, Z.eqb_eq in Hnx. subst n_x.
  destruct (negb (n =? m_x)) eqn:Hn.
  { left. repeat split; try done; [by repeat constructor|].
    intros A' x' m' n' (_ & HA & Hx & _).
    simplify_eq. by rewrite Z.eqb_refl in Hn. }
  apply negb_false_iff, Z.eqb_eq in Hn. subst m_x.
  destruct (negb (malloc_ok w (size_of (size_of m * 8)))) eqn:Hy.
  { left. repeat split; try done; [by repeat constructor|].
    intros A' x' m' n' (_ & HA & _ & H).
    simplify_eq. by rewrite H in Hy. }
  apply negb_false_iff in Hy.
  right. exists A, x, m, n. repeat split; try done; lia.
Qed.

(** X8: what exit code 0 of the serial program says.  On a machine that
    grants no block of 2^63 bytes, if [main] of matrix_vector.c returns 0
    then both input files were read as an m x n matrix A and an n x 1
    vector x whose entry counts m*n and n are exact (m*n fits an [int]),
    the product ran to its end, and the output file holds the leading
    bytes of the m x 1 matrix file of the product of what was read, as
    many as the device had room for: the whole file when it had room for
    8 + 8*m bytes.  No other file changed. *)
Theorem serial_exit_zero (w : world) (argv : list string) :
  w_heap w < 2 ^ 63 ->
  o_status (Serial.main w argv) = Exit 0 ->
  exists A x m n,
    length argv = 4%nat /\
    Read_matrix w (nth 1 argv EmptyString) (Outs None 0 0)
      = (0, Outs (Some A) m n) /\
    Read_matrix w (nth 2 argv EmptyString) (Outs None 0 0)
      = (0, Outs (Some x) n 1) /\
    m * n <= INT_MAX /\
    Z.of_nat (length A) = m * n /\ Z.of_nat (length x) = n /\
    let whole := matrix_file m 1 (spec_y A x m n) in
    let kept := take (Z.to_nat (w_disk w)) whole in
    o_world (Serial.main w argv) =
      with_file (nth 3 argv EmptyString) kept
        (w_disk w - Z.of_nat (length kept)) w /\
    (8 + 8 * m <= w_disk w -> kept = whole).
Proof.
  intros Hheap Hexit.
  destruct (serial_cases w argv)
    as [(Hst & _) | (A & x & m & n & Hargc & HA & Hx & Hy & Hmain)].
  { rewrite Hst in Hexit. discriminate. }
  rewrite Hmain in *. clear Hmain.
  destruct (run _ _) as [[[] μ]|] eqn:Hrun; [|done].
  destruct (accepted_shaped w _ _ A x m n (fresh w (Z.to_nat m)) 1 Hheap HA Hx)
    as [Hfit Hs].
  { rewrite length_fresh.
    destruct (Read_matrix_ok _ _ _ _ HA)
      as (_ & _ & ? & ? & _ & [= _ <- <-] & _ & _ & Hm1 & _).
    lia. }
  { by rewrite Hrun. }
  pose proof (run_Mat_vect_mult (Dims 1 m n) _ Hs) as Hspec.
  cbn [mem_A mem_x mem_y Engine.m Engine.n] in Hspec.
  rewrite Hspec in Hrun. injection Hrun as <-. cbn [mem_y] in Hexit |- *.
  destruct Hs as [Hm1 Hn1 Hmn HlenA Hlenx Hleny].
  cbn [mem_A mem_x mem_y Engine.m Engine.n] in *.
  assert (Hmi : is_int m) by int_nia.
  pose proof (length_spec_y A x m n ltac:(lia)) as Hlen.
  cbv zeta in *.
  destruct (w_writable w (nth 3 argv EmptyString)) eqn:Hopen.
  2:{ rewrite Write_vector_closed in Hexit by done. done. }
  destruct (Write_vector_kept w (nth 3 argv EmptyString) (spec_y A x m n) m
              Hmi ltac:(lia) Hlen Hopen) as (ret & Hwr).
  cbv zeta in Hwr. rewrite Hwr in *.
  destruct (negb (ret =? 0)); [done|]. cbn [o_world].
  exists A, x, m, n. repeat split; try done.
  intros Hroom. apply take_ge.
  destruct (matrix_file_header m 1 (spec_y A x m n) Hmi ltac:(int_lia))
    as (_ & _ & _ & Hl).
  cbv zeta in Hl. lia.
Qed.

Lemma serial_exit_zero_witness :
  exists A x m n,
    Read_matrix (sample_world 4096 (fun _ => true)) "A.mat" (Outs None 0 0)
      = (0, Outs (Some A) m n) /\
    m * n <= INT_MAX /\
    o_world (Serial.main (sample_world 4096 (fun _ => true))
               ["matrix_vector"; "A.mat"; "x.mat"; "y.mat"]%string) =
      with_file "y.mat"
        (take (Z.to_nat 4096) (matrix_file m 1 (spec_y A x m n)))
        (4096 - Z.of_nat (length (take (Z.to_nat 4096)
                                    (matrix_file m 1 (spec_y A x m n)))))
        (sample_world 4096 (fun _ => true)).
Proof.
  destruct (serial_exit_zero (sample_world 4096 (fun _ => true))
              ["matrix_vector"; "A.mat"; "x.mat"; "y.mat"]%string)
    as (A & x & m & n & _ & HA & _ & Hfit & _ & _ & Hfile & _).
  - vm_compute. reflexivity.
  - vm_compute. reflexivity.
  - exists A, x, m, n. split; [exact HA|]. split; [exact Hfit | exact Hfile].
Defined.

(** ** The parallel program against the serial one *)

Lemma filter_Forall_true (f : Z -> bool) (l : list Z) :
  Forall (fun r => f r = true) l -> filter (fun r => f r = true) l = l.
Proof.
  induction 1 as [|r l Hr Hl IH]; [done|].
  rewrite filter_cons_True by done. by rewrite IH.
Qed.

(** When every [pthread_create] succeeds, the parallel region makes the
    p calls and the p joins and leaves in memory what the serial loop
    leaves (or faults as it does). *)
Lemma parallel_region_all_created w g μ :
  int_dims g ->
  (forall r, 0 <= r < thread_count g -> w_thread_ok w r = true) ->
  parallel_region w g μ =
    (((fun r => EvCreate r true) <$> seqZ 0 (thread_count g))
       ++ (EvJoin <$> seqZ 0 (thread_count g)),
     snd <$> run (Mat_vect_mult (m g) (n g)) μ).
Proof.
  intros Hg Hok. unfold parallel_region.
  assert (Hall : Forall (fun r => w_thread_ok w r = true)
                   (seqZ 0 (thread_count g))).
  { apply Forall_seqZ. intros r Hr. apply Hok. lia. }
  rewrite filter_Forall_true by done.
  change (for_each (seqZ 0 (thread_count g)) (Pth_mat_vect g))
    with (workers_in_order g).
  rewrite workers_in_order_serial by done.
  f_equal. f_equal. apply Forall_fmap_ext.
  eapply Forall_impl; [exact Hall|]. intros r Hr. cbn beta. by rewrite Hr.
Qed.

(** X9: the parallel program on well-formed input.  With A.mat an m x n
    matrix file, x.mat an n x 1 matrix file (m, n >= 1, m*n an [int]), a
    thread count p >= 1, enough heap, every [pthread_create] succeeding,
    an output path that can be opened and room for 8 + 8*m bytes, [main]
    of pth_matrix_vector.c creates ranks 0..p-1 in order, joins them in
    order, writes, prints the one timing record (m, p, clock 3 - clock 0,
    clock 2 - clock 1) and returns 0; the output file is exactly the
    m x 1 matrix file of the product, the same bytes for every p. *)
Theorem parallel_product (w : world) (prog fa fx fy ps : string)
    (A x : list float) (m n : Z) :
  1 <= atoi ps ->
  1 <= m -> 1 <= n -> m * n <= INT_MAX ->
  Z.of_nat (length A) = m * n -> Z.of_nat (length x) = n ->
  w_files w !! fa = Some (matrix_file m n A) ->
  w_files w !! fx = Some (matrix_file n 1 x) ->
  8 * (m * n) <= w_heap w -> 8 * atoi ps <= w_heap w ->
  (forall r, 0 <= r < atoi ps -> w_thread_ok w r = true) ->
  w_writable w fy = true -> 8 + 8 * m <= w_disk w ->
  Program.main w [prog; fa; fx; fy; ps] =
    Outcome (Exit 0)
      (((fun r => EvCreate r true) <$> seqZ 0 (atoi ps))
         ++ (EvJoin <$> seqZ 0 (atoi ps))
         ++ [EvWrite fy 0;
             EvTiming m (atoi ps)
               (PrimFloat.sub (GET_TIME w 3) (GET_TIME w 0))
               (PrimFloat.sub (GET_TIME w 2) (GET_TIME w 1))])
      (with_file fy (matrix_file m 1 (spec_y A x m n))
         (w_disk w - (8 + 8 * m)) w).
Proof.
  intros Hp Hm Hn Hfit HlenA Hlenx HfA Hfx Hheap Hheap' Hok Hopen Hroom.
  set (p := atoi ps) in *.
  assert (Hpi : is_int p) by apply atoi_int.
  destruct (inputs_shaped w fa fx A x m n p Hm Hn Hfit HlenA Hlenx HfA Hfx Hheap)
    as (HA & Hx & Hy & Hmi & Hs).
  assert (Hg : int_dims (Dims p m n)) by (split; cbn; (done || lia)).
  unfold Program.main. cbn [length nth]. fold p.
  change (negb (Z.of_nat 5 =? 5)) with false. cbv iota.
  replace (p <=? 0) with false by (symmetry; apply Z.leb_gt; lia).
  rewrite HA. cbn [negb Z.eqb]. cbv iota.
  rewrite Hx. cbn [negb Z.eqb Pos.eqb out_m out_n out_A default]. unfold id.
  cbv iota.
  rewrite Z.eqb_refl, Hy. cbn [negb]. cbv iota.
  rewrite size_of_mul8 by (done || lia).
  replace (malloc_ok w (8 * p)) with true
    by (symmetry; apply Z.leb_le; lia).
  cbn [negb]. cbv iota.
  rewrite parallel_region_all_created by done.
  cbn [thread_count Engine.m Engine.n].
  pose proof (run_Mat_vect_mult (Dims p m n) _ Hs) as Hrun.
  cbn [mem_A mem_x mem_y Engine.m Engine.n] in Hrun. rewrite Hrun.
  cbn [fmap option_fmap option_map snd mem_y].
  pose proof (length_spec_y A x m n ltac:(lia)) as Hlen.
  rewrite Write_vector_room by (done || lia). cbv iota.
  cbn [negb Z.eqb]. cbv iota. by rewrite <- app_assoc.
Qed.

Lemma parallel_product_witness :
  w_files (o_world (Program.main (sample_world 4096 (fun _ => true))
                      (sample_argv "5"))) !! "y.mat"
    = Some (matrix_file 2 1 [6; 15]%float) /\
  o_status (Program.main (sample_world 4096 (fun _ => true))
              (sample_argv "5")) = Exit 0.
Proof.
  unfold sample_argv.
  rewrite (parallel_product (sample_world 4096 (fun _ => true))
             "pth_matrix_vector" "A.mat" "x.mat" "y.mat" "5"
             [1; 2; 3; 4; 5; 6]%float [1; 1; 1]%float 2 3);
    [| vm_compute; discriminate | lia | lia | unfold INT_MAX; lia
     | reflexivity | reflexivity | reflexivity | reflexivity
     | simpl; lia | vm_compute; discriminate | reflexivity | reflexivity
     | simpl; lia].
  split; [vm_compute; reflexivity | reflexivity].
Defined.

(** X10: the two programs agree.  For the same three file arguments and
    any thread count p >= 1 whose handle array is granted and whose
    [pthread_create] calls all succeed, [main] of pth_matrix_vector.c
    ends as [main] of matrix_vector.c does (the same exit code, or a
    fault where the serial loop faults) and leaves the same world: the
    same bytes in the same files. *)
Theorem parallel_agrees_with_serial (w : world)
    (prog prog' fa fx fy ps : string) :
  1 <= atoi ps ->
  malloc_ok w (size_of (size_of (atoi ps) * 8)) = true ->
  (forall r, 0 <= r < atoi ps -> w_thread_ok w r = true) ->
  o_status (Program.main w [prog; fa; fx; fy; ps])
    = o_status (Serial.main w [prog'; fa; fx; fy]) /\
  o_world (Program.main w [prog; fa; fx; fy; ps])
    = o_world (Serial.main w [prog'; fa; fx; fy]).
Proof.
  intros Hp Hh Hok.
  destruct (main_cases w [prog; fa; fx; fy; ps])
    as [(Hst & Hw & _ & _ & Hno) | (p & A & x & m & n & Hv & Hmain)];
  destruct (serial_cases w [prog'; fa; fx; fy])
    as [(Hst' & Hw' & _ & _ & Hno') | (A' & x' & m' & n' & _ & HA' & Hx' & Hy' & Hmain')].
  - by rewrite Hst, Hst', Hw, Hw'.
  - exfalso. apply (Hno (atoi ps) A' x' m' n').
    split; try done. lia.
  - exfalso. destruct Hv as [_ _ _ HA Hx Hy _].
    apply (Hno' A x m n). by repeat split.
  - pose proof Hv as [_ Hpe _ HA Hx _ _]. cbn [nth] in Hpe, HA, Hx, HA', Hx'.
    rewrite HA in HA'. rewrite Hx in Hx'.
    injection HA' as <- <- <-. injection Hx' as <-.
    rewrite Hmain, Hmain'. clear Hmain Hmain'. unfold compute_and_write.
    assert (Hg : int_dims (Dims p m n)).
    { destruct (Read_matrix_ok _ _ _ _ HA)
        as (_ & _ & ? & ? & _ & [= _ <- <-] & Hmi & _ & Hm1 & _).
      split; cbn [thread_count Engine.m]; try lia; [|done].
      rewrite Hpe. apply atoi_int. }
    rewrite parallel_region_all_created;
      [|done | intros r Hr; apply Hok; by rewrite <- Hpe].
    cbn [thread_count Engine.m Engine.n nth].
    destruct (run (Mat_vect_mult m n) _) as [[[] μ]|]; [|done].
    cbn [fmap option_fmap option_map snd]. cbv zeta.
    destruct (Write_vector w fy (mem_y μ) m) as [retw w'].
    by destruct (negb (retw =? 0)).
Qed.

Lemma parallel_agrees_with_serial_witness :
  o_world (Program.main (sample_world 4096 (fun _ => true)) (sample_argv "3"))
    = o_world (Serial.main (sample_world 4096 (fun _ => true))
                 ["matrix_vector"; "A.mat"; "x.mat"; "y.mat"]%string).
Proof.
  apply (parallel_agrees_with_serial (sample_world 4096 (fun _ => true))
           "pth_matrix_vector" "matrix_vector" "A.mat" "x.mat" "y.mat" "3");
    [vm_compute; discriminate | reflexivity | reflexivity].
Defined.

(** ** What the workers overwrite, and what uncreated workers leave *)

Lemma Forall_block_rows g rank :
  int_dims g -> 0 <= rank < thread_count g ->
  Forall (fun i => 0 <= i < m g) (block_rows g rank).
Proof.
  intros Hg Hr. apply Forall_forall. intros i Hi.
  apply in_block_rows in Hi; [|done..]. by apply (in_block_range g rank).
Qed.

Lemma for_each_ext (l : list Z) (f h : Z -> prog unit) :
  (forall r, f r = h r) -> for_each l f = for_each l h.
Proof.
  intros E. induction l as [|r l IH]; [done|].
  cbn [for_each]. by rewrite E, IH.
Qed.

(** The workers of the ranks in [ranks], one after the other, give the
    rows of their blocks their values and touch nothing else. *)
Lemma run_workers g μ ranks :
  int_dims g -> shaped g μ ->
  Forall (fun r => 0 <= r < thread_count g) ranks ->
  run (for_each ranks (Pth_mat_vect g)) μ =
  Some (tt, Build (mem_A μ) (mem_x μ)
              (write_rows (mem_A μ) (mem_x μ) (n g) (mem_y μ)
                 (concat (block_rows g <$> ranks)))).
Proof.
  intros Hg Hs Hranks.
  rewrite (for_each_ext ranks _
             (fun r => for_each (block_rows g r) (row_body (n g))))
    by (intros r; apply Pth_mat_vect_rows).
  rewrite run_for_each_nested. apply run_rows; [done|].
  apply Forall_concat, Forall_fmap.
  eapply Forall_impl; [exact Hranks|]. intros r Hr. cbn beta.
  by apply Forall_block_rows.
Qed.

Lemma elem_of_concat (i : Z) (ls : list (list Z)) :
  i ∈ concat ls <-> exists l, i ∈ l /\ l ∈ ls.
Proof.
  induction ls as [|l ls IH]; cbn [concat].
  - split; [by intros ?%elem_of_nil | by intros (? & _ & ?%elem_of_nil)].
  - rewrite elem_of_app, IH. split.
    + intros [Hi | (l' & Hi & Hl')].
      * exists l. split; [done | by left].
      * exists l'. split; [done | by right].
    + intros (l' & Hi & [-> | Hl']%elem_of_cons).
      * by left.
      * right. by exists l'.
Qed.

Lemma elem_of_blocks g ranks rank i :
  int_dims g -> Forall (fun r => 0 <= r < thread_count g) ranks ->
  0 <= rank < thread_count g -> in_block g rank i ->
  i ∈ concat (block_rows g <$> ranks) <-> rank ∈ ranks.
Proof.
  intros Hg Hranks Hr Hi. rewrite elem_of_concat. split.
  - intros (l & Hil & Hl). apply list_elem_of_fmap in Hl as (r & -> & Hrin).
    rewrite Forall_forall in Hranks. pose proof (Hranks r Hrin) as Hr'.
    apply in_block_rows in Hil; [|done..].
    by rewrite (in_block_disjoint g rank r i Hg Hr Hr' Hi Hil).
  - intros Hin. exists (block_rows g rank). split.
    + by apply in_block_rows.
    + apply list_elem_of_fmap. by exists rank.
Qed.

(** X11: what the parallel region leaves when some [pthread_create]
    calls fail.  On buffers of the data model's shape the region never
    faults, leaves [A] and [x] as they were, and in [y] the rows of every
    block whose thread was created hold the product while the rows of
    every block whose thread was not created hold what [y] held before
    (what [malloc] left there): [main] does not look at what
    [pthread_create] returns. *)
Theorem uncreated_blocks_keep_junk (w : world) (g : dims) (μ : mem) :
  int_dims g -> shaped g μ ->
  exists y',
    (parallel_region w g μ).2 = Some (Build (mem_A μ) (mem_x μ) y') /\
    length y' = length (mem_y μ) /\
    forall rank i, 0 <= rank < thread_count g -> in_block g rank i ->
      y' !! Z.to_nat i =
        if w_thread_ok w rank
        then Some (spec_row (mem_A μ) (mem_x μ) (n g) i)
        else mem_y μ !! Z.to_nat i.
Proof.
  intros Hg Hs.
  set (created := filter (fun r => w_thread_ok w r = true)
                    (seqZ 0 (thread_count g))).
  assert (Hcreated : Forall (fun r => 0 <= r < thread_count g) created).
  { apply Forall_forall. intros r Hr.
    apply list_elem_of_filter in Hr as [_ Hr]. apply elem_of_seqZ in Hr. lia. }
  exists (write_rows (mem_A μ) (mem_x μ) (n g) (mem_y μ)
            (concat (block_rows g <$> created))).
  split; [|split].
  - unfold parallel_region. cbn [snd]. fold created.
    by rewrite run_workers.
  - apply length_write_rows.
  - intros rank i Hr Hi.
    pose proof (in_block_range g rank i Hg Hr Hi) as Hrange.
    assert (Hy : Z.of_nat (length (mem_y μ)) = m g) by (by destruct Hs).
    replace i with (Z.of_nat (Z.to_nat i)) at 2 by lia.
    rewrite lookup_write_rows.
    + rewrite Z2Nat.id by lia.
      destruct (w_thread_ok w rank) eqn:Hok.
      * rewrite decide_True; [done|].
        apply (elem_of_blocks g created rank i); try done.
        apply list_elem_of_filter. split; [done|]. apply elem_of_seqZ. lia.
      * rewrite decide_False; [done|].
        rewrite (elem_of_blocks g created rank i) by done.
        intros Hin. apply list_elem_of_filter in Hin as [Hin _].
        by rewrite Hok in Hin.
    + lia.
    + apply Forall_concat, Forall_fmap.
      eapply Forall_impl; [exact Hcreated|]. intros r Hr'. cbn beta.
      eapply Forall_impl; [by apply Forall_block_rows|]. cbn beta. lia.
Qed.

Lemma uncreated_blocks_keep_junk_witness :
  exists y',
    (parallel_region (sample_world 4096 (fun r => negb (r =? 1)))
       (sample_dims 2) sample_mem).2
      = Some (Build (mem_A sample_mem) (mem_x sample_mem) y') /\
    y' !! 1%nat = Some 42%float.
Proof.
  assert (Hg : int_dims (sample_dims 2)) by (split; simpl; int_lia).
  assert (Hs : shaped (sample_dims 2) sample_mem) by (split; simpl; int_lia).
  destruct (uncreated_blocks_keep_junk
              (sample_world 4096 (fun r => negb (r =? 1)))
              (sample_dims 2) sample_mem Hg Hs) as (y' & Hrun & _ & Hrows).
  exists y'. split; [exact Hrun|].
  apply (Hrows 1 1); [simpl; lia | split; by vm_compute].
Defined.

(** X12: the product overwrites.  On buffers of the data model's shape
    the result does not depend on what [y] held before, and running the
    product a second time, with the same or another worker count, leaves
    the memory exactly as the first run left it. *)
Theorem product_overwrites (g : dims) (μ : mem) :
  int_dims g -> shaped g μ ->
  (forall y0, length y0 = length (mem_y μ) ->
     run (workers_in_order g) (Build (mem_A μ) (mem_x μ) y0)
       = run (workers_in_order g) μ) /\
  (forall p', is_int p' -> 1 <= p' ->
     run (workers_in_order g ;; workers_in_order (Dims p' (m g) (n g))) μ
       = run (workers_in_order g) μ).
Proof.
  intros Hg Hs. split.
  - intros y0 Hy0.
    assert (Hs0 : shaped g (Build (mem_A μ) (mem_x μ) y0)).
    { destruct Hs. split; cbn [mem_A mem_x mem_y]; try done. by rewrite Hy0. }
    rewrite !workers_in_order_serial by done.
    by rewrite (run_Mat_vect_mult g _ Hs), (run_Mat_vect_mult g _ Hs0).
  - intros p' Hp' Hp1.
    assert (Hg' : int_dims (Dims p' (m g) (n g))) by (destruct Hg; by split).
    rewrite run_bind, (workers_in_order_serial g) by done.
    rewrite (run_Mat_vect_mult g _ Hs).
    rewrite (workers_in_order_serial _ _ Hg').
    cbn [Engine.m Engine.n].
    assert (Hs1 : shaped g (Build (mem_A μ) (mem_x μ)
                              (spec_y (mem_A μ) (mem_x μ) (m g) (n g)))).
    { destruct Hs. split; cbn [mem_A mem_x mem_y]; try done.
      apply length_spec_y. lia. }
    by rewrite (run_Mat_vect_mult g _ Hs1).
Qed.

Lemma product_overwrites_witness :
  run (workers_in_order (sample_dims 2))
      (Build (mem_A sample_mem) (mem_x sample_mem) [0; 0]%float)
    = run (workers_in_order (sample_dims 2)) sample_mem.
Proof.
  assert (Hg : int_dims (sample_dims 2)) by (split; simpl; int_lia).
  assert (Hs : shaped (sample_dims 2) sample_mem) by (split; simpl; int_lia).
  apply (proj1 (product_overwrites (sample_dims 2) sample_mem Hg Hs)).
  reflexivity.
Defined.

(** ** make_matrix.c: what it writes, [Read_matrix] reads *)

(** An [fwrite] on a stream whose device has room for everything. *)
Lemma fwrite_room filename (room : Z) (sent buf data : list byte)
    (item count : Z) w :
  0 < item -> Z.of_nat (length data) = item * count ->
  (length sent + length buf + length data <= Z.to_nat room)%nat ->
  exists sent' buf',
    fwrite data item (Stream filename buf)
      (with_file filename sent (room - Z.of_nat (length sent)) w)
    = (count, Stream filename buf',
       with_file filename sent' (room - Z.of_nat (length sent')) w) /\
    sent' ++ buf' = sent ++ buf ++ data.
Proof.
  intros Hitem Hlen Hroom.
  pose proof (fwrite_step filename room sent buf data item count w
                ltac:(lia) Hitem Hlen) as S.
  cbv zeta in S.
  destruct (fwrite data item (Stream filename buf) _) as [[r fp'] w'].
  destruct S as [(-> & Hn & sent' & Hs & _ & ->) | (_ & _ & Hfull & _)].
  - destruct fp' as [name buf']. cbn [s_name s_buf] in *. subst name.
    by exists sent', buf'.
  - rewrite !length_app in Hfull. lia.
Qed.

Lemma fill_from (c : MakeMatrix.libc) (filled rest : list float) :
  MakeMatrix.fill c (length filled)
    (seqZ (Z.of_nat (length filled)) (Z.of_nat (length rest)))
    (filled ++ rest)
  = Some (filled ++ (MakeMatrix.entry c <$> seq (length filled) (length rest))).
Proof.
  revert filled. induction rest as [|f rest IH]; intros filled.
  - done.
  - cbn [length]. rewrite seqZ_cons by lia. cbn [MakeMatrix.fill].
    rewrite in_range_true by (rewrite length_app; cbn [length]; lia).
    rewrite Nat2Z.id, insert_app_r_alt by lia.
    rewrite Nat.sub_diag. cbn [insert list_insert].
    replace (Z.pred (Z.of_nat (S (length rest))))
      with (Z.of_nat (length rest)) by lia.
    pose proof (IH (filled ++ [MakeMatrix.entry c (length filled)])) as E.
    rewrite length_app in E. cbn [length] in E.
    rewrite Nat.add_1_r, <- app_assoc in E. cbn [app] in E.
    replace (Z.succ (Z.of_nat (length filled)))
      with (Z.of_nat (S (length filled))) by lia.
    rewrite E. cbn [seq fmap list_fmap]. by rewrite <- app_assoc.
Qed.

Lemma fill_fresh (c : MakeMatrix.libc) w (t : Z) :
  0 <= t ->
  MakeMatrix.fill c 0 (seqZ 0 t) (fresh w (Z.to_nat t))
  = Some (MakeMatrix.entry c <$> seq 0 (Z.to_nat t)).
Proof.
  intros Ht.
  pose proof (fill_from c [] (fresh w (Z.to_nat t))) as E.
  rewrite length_fresh in E. cbn [length app] in E.
  by rewrite Z2Nat.id in E by lia.
Qed.

(** [Read_matrix] on a file that holds as many doubles as the [int]
    product of its header says. *)
Lemma Read_matrix_written_count w filename out rows cols entries :
  w_files w !! filename = Some (matrix_file rows cols entries) ->
  is_int rows -> is_int cols -> 1 <= rows -> 1 <= cols ->
  0 <= int_of (rows * cols) ->
  Z.of_nat (length entries) = int_of (rows * cols) ->
  8 * int_of (rows * cols) <= w_heap w ->
  Read_matrix w filename out = (0, Outs (Some entries) rows cols).
Proof.
  intros Hfile Hri Hci Hr Hc Ht Hlen Hheap. unfold Read_matrix.
  rewrite Hfile. unfold matrix_file.
  rewrite fread_int_written by done. rewrite fread_int_written by done.
  replace ((rows <=? 0) || (cols <=? 0)) with false
    by (symmetry; apply orb_false_iff; split; apply Z.leb_gt; lia).
  pose proof (int_of_range (rows * cols)) as Hti.
  rewrite size_of_mul8 by done. rewrite (size_of_int _ Hti) by done.
  unfold malloc_ok.
  replace (8 * int_of (rows * cols) <=? w_heap w) with true
    by (symmetry; apply Z.leb_le; lia).
  cbn [negb]. rewrite <- Hlen.
  rewrite <- (app_nil_r (flat_map _ _)).
  rewrite fread_doubles_written, Z.eqb_refl. done.
Qed.

(** X13: what make_matrix writes, [Read_matrix] reads.  With three
    arguments after the program name, rows and cols at least 1, an [int]
    product rows*cols that is not negative, enough heap for that many
    doubles, a path that can be opened and room on the device, [main] of
    make_matrix.c prints nothing, returns 0 and leaves a file that holds
    rows, cols and then exactly [int] (rows*cols) entries, the k-th from
    the k-th call of [rand]; and [Read_matrix] on that file returns 0 and
    delivers rows, cols and those entries bit for bit.  (When rows*cols
    does not fit an [int] the two wrap it alike: the header then promises
    more entries than the file holds.) *)
Theorem make_matrix_Read_matrix (c : MakeMatrix.libc) (w : world)
    (prog file rs cs : string) (out : outs) :
  1 <= atoi rs -> 1 <= atoi cs ->
  0 <= int_of (atoi rs * atoi cs) ->
  8 * int_of (atoi rs * atoi cs) <= w_heap w ->
  w_writable w file = true ->
  8 + 8 * int_of (atoi rs * atoi cs) <= w_disk w ->
  let total := int_of (atoi rs * atoi cs) in
  let entries := MakeMatrix.entry c <$> seq 0 (Z.to_nat total) in
  let w' := with_file file (matrix_file (atoi rs) (atoi cs) entries)
              (w_disk w - (8 + 8 * total)) w in
  MakeMatrix.main c w [prog; file; rs; cs] = Outcome (Exit 0) [] w' /\
  Read_matrix w' file out = (0, Outs (Some entries) (atoi rs) (atoi cs)).
Proof.
  intros Hr Hc Ht Hheap Hopen Hroom total entries w'.
  pose proof (atoi_int rs) as Hri. pose proof (atoi_int cs) as Hci.
  set (rows := atoi rs) in *. set (cols := atoi cs) in *.
  assert (Hti : is_int total) by apply int_of_range.
  assert (Hlen : Z.of_nat (length entries) = total).
  { unfold entries. rewrite length_fmap, length_seq. lia. }
  split.
  2:{ apply Read_matrix_written_count; try done.
      unfold w', with_file. cbn [set_disk set_files w_files].
      by rewrite lookup_insert_eq. }
  unfold MakeMatrix.main. cbn [length nth]. fold rows cols.
  change (negb (Z.of_nat 4 =? 4)) with false. cbv iota.
  replace ((rows <=? 0) || (cols <=? 0)) with false
    by (symmetry; apply orb_false_iff; split; apply Z.leb_gt; lia).
  unfold fopen_wb. rewrite Hopen.
  set (d := w_disk w) in *.
  set (data := flat_map bytes_of_double entries).
  assert (Hdata : Z.of_nat (length data) = 8 * total).
  { unfold data. rewrite length_doubles. lia. }
  pose proof (length_bytes_of_int rows) as L1.
  pose proof (length_bytes_of_int cols) as L2.
  (* the row count *)
  destruct (fwrite_room file d [] [] (bytes_of_int rows) 4 1 w)
    as (sent1 & buf1 & E1 & Hs1);
    [lia | rewrite L1; lia | cbn [length]; lia |].
  cbn [length app] in E1, Hs1. rewrite Z.sub_0_r in E1. rewrite E1.
  cbn [Z.eqb Pos.eqb negb]. cbv iota.
  (* the column count *)
  destruct (fwrite_room file d sent1 buf1 (bytes_of_int cols) 4 1 w)
    as (sent2 & buf2 & E2 & Hs2); [lia | rewrite L2; lia | |].
  { rewrite <- Nat.add_assoc, <- !length_app, app_assoc, Hs1, length_app. lia. }
  rewrite E2. cbn [Z.eqb Pos.eqb negb]. cbv iota.
  rewrite (app_assoc sent1), Hs1 in Hs2.
  (* the block *)
  fold total. rewrite size_of_mul8 by done.
  replace (malloc_ok (with_file file sent2 (d - Z.of_nat (length sent2)) w)
             (8 * total)) with true
    by (symmetry; apply Z.leb_le; cbn; lia).
  cbn [negb]. cbv iota.
  rewrite (Z.mul_comm 8 total), Z.div_mul by lia.
  change (fresh (with_file file sent2 (d - Z.of_nat (length sent2)) w))
    with (fresh w).
  rewrite fill_fresh by done. fold entries.
  rewrite (size_of_int _ Hti) by done.
  replace (Z.of_nat (length entries) <? total) with false
    by (symmetry; apply Z.ltb_ge; lia).
  cbv iota. rewrite take_ge by lia. fold data.
  (* the entries *)
  destruct (fwrite_room file d sent2 buf2 data 8 total w)
    as (sent3 & buf3 & E3 & Hs3); [lia | lia | |].
  { rewrite <- Nat.add_assoc, <- !length_app, app_assoc, Hs2, !length_app.
    lia. }
  rewrite E3, Z.eqb_refl. cbn [negb]. cbv iota.
  rewrite (app_assoc sent2), Hs2, <- app_assoc in Hs3.
  assert (Hs3len : (length sent3 <= Z.to_nat d)%nat).
  { apply (f_equal length) in Hs3. rewrite !length_app in Hs3. lia. }
  rewrite fclose_world by done. rewrite Hs3.
  change (bytes_of_int rows ++ bytes_of_int cols ++ data)
    with (matrix_file rows cols entries).
  assert (Hfile : Z.of_nat (length (matrix_file rows cols entries))
                  = 8 + 8 * total).
  { unfold matrix_file. rewrite !length_app. fold data. lia. }
  rewrite take_ge by lia. by rewrite Hfile.
Qed.

Lemma make_matrix_Read_matrix_witness :
  Read_matrix
    (o_world (MakeMatrix.main (MakeMatrix.Libc 2147483647 (fun k => Z.of_nat k))
                (sample_world 64 (fun _ => true))
                ["make_matrix"; "B.mat"; "2"; "3"]%string))
    "B.mat" (Outs None 0 0)
  = (0, Outs (Some (MakeMatrix.entry
                      (MakeMatrix.Libc 2147483647 (fun k => Z.of_nat k))
                      <$> seq 0 6)) 2 3).
Proof.
  destruct (make_matrix_Read_matrix
              (MakeMatrix.Libc 2147483647 (fun k => Z.of_nat k))
              (sample_world 64 (fun _ => true))
              "make_matrix" "B.mat" "2" "3" (Outs None 0 0))
    as [Hmain Hread];
    [by vm_compute | by vm_compute | by vm_compute | by vm_compute
     | reflexivity | by vm_compute |].
  rewrite Hmain. exact Hread.
Defined.

(** ** print_matrix.c: what it prints *)

Lemma print_row_from (matrix : list float) (cols i j : Z) (len : nat) :
  0 <= i -> 0 <= cols -> 0 <= j ->
  i * cols + j + Z.of_nat len <= Z.of_nat (length matrix) ->
  Z.of_nat (length matrix) <= INT_MAX ->
  PrintMatrix.print_row matrix cols i (seqZ j (Z.of_nat len))
  = ((PrintMatrix.Entry <$> take len (drop (Z.to_nat (i * cols + j)) matrix))
       ++ [PrintMatrix.Stdout nl], true).
Proof.
  intros Hi Hc. revert j. induction len as [|len IH]; intros j Hj Hin Hfit.
  - done.
  - rewrite seqZ_cons by lia. cbn [PrintMatrix.print_row].
    assert (H1 : is_int (i * cols)) by int_nia.
    assert (H2 : is_int (i * cols + j)) by int_nia.
    rewrite (int_of_id _ H1), (int_of_id _ H2).
    unfold PrintMatrix.cell. rewrite in_range_true by nia.
    destruct (lookup_lt_is_Some_2 matrix (Z.to_nat (i * cols + j)))
      as [v Hv]; [nia|].
    rewrite Hv.
    replace (Z.pred (Z.of_nat (S len))) with (Z.of_nat len) by lia.
    rewrite (IH (Z.succ j)) by lia.
    rewrite (drop_S _ _ _ Hv). cbn [take fmap list_fmap app].
    by replace (Z.to_nat (i * cols + Z.succ j))
      with (S (Z.to_nat (i * cols + j))) by nia.
Qed.

Lemma print_rows_from (matrix : list float) (cols i : Z) (len : nat) :
  0 <= i -> 0 <= cols ->
  (i + Z.of_nat len) * cols <= Z.of_nat (length matrix) ->
  Z.of_nat (length matrix) <= INT_MAX ->
  PrintMatrix.print_rows matrix cols (seqZ i (Z.of_nat len))
  = (concat (PrintMatrix.row_text matrix cols <$> seqZ i (Z.of_nat len)), true).
Proof.
  intros Hi Hc. revert i Hi. induction len as [|len IH]; intros i Hi Hin Hfit.
  - done.
  - rewrite seqZ_cons by lia. cbn [PrintMatrix.print_rows fmap list_fmap concat].
    replace (seqZ 0 cols) with (seqZ 0 (Z.of_nat (Z.to_nat cols)))
      by (by rewrite Z2Nat.id by lia).
    rewrite print_row_from by nia.
    replace (Z.pred (Z.of_nat (S len))) with (Z.of_nat len) by lia.
    rewrite (IH (Z.succ i)) by nia.
    unfold PrintMatrix.row_text at 2. by rewrite Z.add_0_r.
Qed.

(** X14: what print_matrix prints.  For a file that holds the header
    rows, cols (both at least 1, rows*cols an [int] for which [malloc]
    grants the block) and then some doubles: if at least rows*cols of
    them are there, [main] of print_matrix.c returns 0 and prints the
    line with the two dimensions and then, row after row, the first
    rows*cols entries in the order of the file, cols to a line, never
    reading outside the block; if fewer are there it returns 1 with the
    one diagnostic and prints nothing else. *)
Theorem print_matrix_matrix_file (w : world) (prog file : string)
    (rows cols : Z) (entries : list float) :
  w_files w !! file = Some (matrix_file rows cols entries) ->
  1 <= rows -> 1 <= cols -> rows * cols <= INT_MAX ->
  8 * (rows * cols) <= w_heap w ->
  PrintMatrix.main w [prog; file] =
    if decide (rows * cols <= Z.of_nat (length entries))
    then PrintMatrix.Result (Exit 0)
           (PrintMatrix.Stdout ("Matrix: " +:+ pretty rows +:+ " x "
                                +:+ pretty cols +:+ nl)
            :: PrintMatrix.matrix_text
                 (take (Z.to_nat (rows * cols)) entries) rows cols)
    else PrintMatrix.Result (Exit 1)
           [PrintMatrix.Stderr
              ("Error: Failed to read matrix data from file" +:+ nl)].
Proof.
  intros Hfile Hr Hc Hfit Hheap.
  assert (Hri : is_int rows) by int_nia.
  assert (Hci : is_int cols) by int_nia.
  assert (Hpi : is_int (rows * cols)) by int_nia.
  unfold PrintMatrix.main. cbn [length nth].
  change (negb (Z.of_nat 2 =? 2)) with false. cbv iota.
  rewrite Hfile. unfold matrix_file.
  rewrite fread_int_written by done. rewrite fread_int_written by done.
  replace ((rows <=? 0) || (cols <=? 0)) with false
    by (symmetry; apply orb_false_iff; split; apply Z.leb_gt; lia).
  rewrite (int_of_id _ Hpi). rewrite size_of_mul8 by (done || nia).
  rewrite (size_of_int _ Hpi) by nia.
  unfold malloc_ok.
  replace (8 * (rows * cols) <=? w_heap w) with true
    by (symmetry; apply Z.leb_le; lia).
  cbn [negb]. cbv iota.
  case_decide as Hlen.
  - set (matrix := take (Z.to_nat (rows * cols)) entries).
    assert (Hm : Z.of_nat (length matrix) = rows * cols).
    { unfold matrix. rewrite length_take. lia. }
    assert (Hsplit : flat_map bytes_of_double entries
                     = flat_map bytes_of_double matrix
                       ++ flat_map bytes_of_double
                            (drop (Z.to_nat (rows * cols)) entries)).
    { rewrite <- flat_map_app. unfold matrix. by rewrite take_drop. }
    rewrite Hsplit, <- Hm, !fread_doubles_written.
    rewrite Z.eqb_refl. cbn [negb]. cbv iota.
    replace (seqZ 0 rows) with (seqZ 0 (Z.of_nat (Z.to_nat rows)))
      by (by rewrite Z2Nat.id by lia).
    rewrite print_rows_from by nia. by rewrite Z2Nat.id by lia.
  - pose proof (length_fread_doubles (rows * cols)
                  (flat_map bytes_of_double entries)) as Hcnt.
    rewrite length_doubles in Hcnt.
    replace (Z.of_nat (8 * length entries) / 8)
      with (Z.of_nat (length entries)) in Hcnt
      by (rewrite Nat2Z.inj_mul, Z.mul_comm, Z.div_mul; lia).
    replace (Z.of_nat (length (fread_doubles (rows * cols)
                                 (flat_map bytes_of_double entries)))
             =? rows * cols) with false
      by (symmetry; apply Z.eqb_neq; lia).
    done.
Qed.

Lemma print_matrix_matrix_file_witness :
  PrintMatrix.main (sample_world 0 (fun _ => true))
    ["print_matrix"; "A.mat"]%string
  = PrintMatrix.Result (Exit 0)
      [PrintMatrix.Stdout ("Matrix: 2 x 3" +:+ nl);
       PrintMatrix.Entry 1; PrintMatrix.Entry 2; PrintMatrix.Entry 3;
       PrintMatrix.Stdout nl;
       PrintMatrix.Entry 4; PrintMatrix.Entry 5; PrintMatrix.Entry 6;
       PrintMatrix.Stdout nl].
Proof.
  rewrite (print_matrix_matrix_file (sample_world 0 (fun _ => true))
             "print_matrix" "A.mat" 2 3 [1; 2; 3; 4; 5; 6]%float);
    [reflexivity | reflexivity | lia | lia | unfold INT_MAX; lia
     | simpl; lia].
Defined.
